(** * The type-checking engine of gopls: a shallow embedding

  This development embeds the orchestration layer of the gopls
  type-checking engine ([cache/check.go], [cache/pkg.go], [cache/maps.go])
  and of two of its clients ([source/diagnostics.go], [source/linkname.go]),
  and proves properties of them.  Each module below follows one group
  of source functions:

  - [PkgFile]        : [pkg.File]                          (pkg.go)
  - [ErrorExpansion] : [expandErrors], [extendedError]     (check.go)
  - [Handles]        : [packageHandle], [typeCheckInputs], [Metadata]
  - [KeyHasher]      : [computePackageKey]
  - [TypeCheck]      : [typeCheckImpl], [doTypeCheck]
  - [ImportGraph]    : [resolveImportGraph]
  - [HandleStore]    : [buildPackageHandle], [typeCheckInputs] (the function)
  - [Batch]          : [typeCheckBatch], [getImportPackage],
                       [handleSyntaxPackage], [forEachPackage], [TypeCheck]
  - [SharedImportGraph] : the second half of [resolveImportGraph]
  - [SourceDiagnostics] : [source.Analyze], [source.FileDiagnostics]
  - [Linkname]       : [parseLinkname], [findLinknameAtOffset]
  - [PersistentMaps] : the orderings of [newPackagesMap] and [newGoFilesMap]
  - [DepsErrors]     : [depsErrors]

  Go values are modelled as follows.  A Go [string] is a [string];
  a slice is a [list]; a Go [map] is a [gmap], and wherever the source
  ranges over a map the iteration order is an explicit argument or a
  field of the run-time environment; [(T, error)] results are values of
  [result T]; a pointer is the address it holds.  Functions that call
  each other through the batch are given fuel, and return [None] when
  it runs out; the calls of the go/types checker, the parser and the
  file cache are fields of an environment record.

  The first part holds the definitions, the second part the properties. *)

From stdpp Require Import base option strings list gmap sorting pretty.
From Equations Require Import Equations.

#[local] Set Warnings "-clear-no-such-hyp".

(** ** Shared vocabulary *)

Module Go.

(** A Go [error] value, identified by its message. *)
Abbreviation error := string (only parsing).

(** The result of a Go function returning [(T, error)]. *)
Inductive result (A : Type) : Type :=
| Ok (a : A)
| Err (e : error).
Global Arguments Ok {A} a.
Global Arguments Err {A} e.

Definition is_ok {A} (r : result A) : bool :=
  match r with Ok _ => true | Err _ => false end.

(** [span.URI], [PackageID], [PackagePath], [ImportPath], [PackageName]
    are all defined string types. *)
Abbreviation URI := string (only parsing).
Abbreviation PackageID := string (only parsing).
Abbreviation PackagePath := string (only parsing).
Abbreviation ImportPath := string (only parsing).
Abbreviation PackageName := string (only parsing).

(** [scanner.ErrorList]: the messages of the syntax errors of one file,
    with the name of the file they were found in. *)
Record ErrorList := {
  el_filename : string;
  el_msgs : list string
}.

(** [source.ParsedGoFile], without the syntax tree itself. *)
Record ParsedGoFile := {
  pgf_URI : URI;
  pgf_Src : string;
  pgf_Fixed : bool;
  pgf_ParseErr : option ErrorList
}.

End Go.
Import Go.

(** ** [pkg.File]: lookup of a parsed file by URI *)

Module PkgFile.

Record pkg := {
  m_ID : PackageID;
  goFiles : list ParsedGoFile;
  compiledGoFiles : list ParsedGoFile
}.

(** One [for _, f := range files { if f.URI == uri { return f, nil } }]
    loop; [None] when the loop falls through. *)
Fixpoint searchFiles (files : list ParsedGoFile) (uri : URI) : option ParsedGoFile :=
  match files with
  | [] => None
  | f :: rest => if decide (pgf_URI f = uri) then Some f else searchFiles rest uri
  end.

Definition File (p : pkg) (uri : URI) : result ParsedGoFile :=
  match searchFiles (compiledGoFiles p) uri with
  | Some cgf => Ok cgf
  | None =>
      match searchFiles (goFiles p) uri with
      | Some gf => Ok gf
      | None => Err ("no parsed file for " +:+ uri +:+ " in " +:+ m_ID p)
      end
  end.

End PkgFile.

(** ** [expandErrors]: attaching secondary type errors to their primary *)

Module ErrorExpansion.

(** [types.Error]: a position, a message, the [Soft] flag, and the
    unexported location fields that travel with the value when it is
    copied. *)
Record Error := {
  Pos : Z;
  Msg : string;
  Soft : bool;
  go116code : Z;
  go116start : Z;
  go116end : Z
}.

Definition setMsg (e : Error) (msg : string) : Error :=
  {| Pos := Pos e; Msg := msg; Soft := Soft e;
     go116code := go116code e; go116start := go116start e; go116end := go116end e |}.

Definition setSoft (e : Error) (soft : bool) : Error :=
  {| Pos := Pos e; Msg := Msg e; Soft := soft;
     go116code := go116code e; go116start := go116start e; go116end := go116end e |}.

Record extendedError := {
  primary : Error;
  secondaries : list Error
}.

Definition tab : Ascii.ascii := Ascii.ascii_of_nat 9.

(** The negation of the inner loop's exit test
    [len(spl.Msg) == 0 || spl.Msg[0] != '\t']. *)
Definition startsWithTab (msg : string) : bool :=
  match msg with
  | EmptyString => false
  | String c _ => bool_decide (c = tab)
  end.

(** [s[1:]] *)
Definition dropFirst (msg : string) : string :=
  match msg with
  | EmptyString => EmptyString
  | String _ rest => rest
  end.

(** The two statements that turn a continuation into a secondary:
    [spl.Msg = spl.Msg[1:]] on the copy [spl]. *)
Definition stripTab (spl : Error) : Error := setMsg spl (dropFirst (Msg spl)).

(** The inner loop [for i++; i < len(errs); i++]: collects the
    continuation errors at the front of [errs], each with its tab
    removed, and returns them with the errors left over. *)
Fixpoint takeSecondaries (errs : list Error) : list Error * list Error :=
  match errs with
  | [] => ([], [])
  | spl :: rest =>
      if startsWithTab (Msg spl) then
        let '(secs, rest') := takeSecondaries rest in
        (stripTab spl :: secs, rest')
      else ([], errs)
  end.

(** The body of [for i, mainSecondary := range original.secondaries]. *)
Definition cloneError (supportsRelatedInformation : bool) (original : extendedError)
    (i : nat) (mainSecondary : Error) : extendedError :=
  let relocatedSecondary :=
    setSoft
      (setMsg mainSecondary
         (if supportsRelatedInformation
          then Msg (primary original) +:+ " (see details)"
          else Msg (primary original) +:+ " (this error: " +:+ Msg mainSecondary +:+ ")"))
      (Soft (primary original)) in
  {| primary := relocatedSecondary;
     secondaries :=
       primary original ::
       imap (fun j secondary =>
               if decide (i = j)
               then setMsg secondary (Msg secondary +:+ " (this error)")
               else secondary)
            (secondaries original) |}.

Equations? expandErrors (errs : list Error) (supportsRelatedInformation : bool)
    : list extendedError by wf (length errs) lt :=
  expandErrors [] _ := [];
  expandErrors (e :: rest) supports :=
    let original := {| primary := e; secondaries := (takeSecondaries rest).1 |} in
    (original :: imap (cloneError supports original) (secondaries original))
      ++ expandErrors (takeSecondaries rest).2 supports.
Proof.
  clear. simpl.
  enough (length (takeSecondaries rest).2 ≤ length rest) by lia.
  induction rest as [|spl rest IH]; simpl; [lia|].
  destruct (startsWithTab (Msg spl)); simpl; [|lia].
  destruct (takeSecondaries rest) as [secs rest']; simpl in *; lia.
Qed.





(** The checker reports [redeclared] at position 1 and, as a
    continuation, [prev here] at position 2. *)
Definition redeclared : Error :=
  {| Pos := 1; Msg := "redeclared"; Soft := false;
     go116code := 0; go116start := 1; go116end := 1 |}.
Definition prevHere : Error :=
  {| Pos := 2; Msg := String tab "prev here"; Soft := false;
     go116code := 0; go116start := 2; go116end := 2 |}.

(** The location of an error: its position and the unexported fields
    that hold its code and extent. *)
Definition location (e : Error) : Z * Z * Z * Z :=
  (Pos e, go116code e, go116start e, go116end e).

End ErrorExpansion.

(** ** Package handles and the inputs of a type check *)

Module Handles.

(** [source.Hash]: the 32 bytes of a SHA-256 digest. *)
Abbreviation Hash := string (only parsing).

(** [source.FileHandle], with the two components of its [FileIdentity]. *)
Record FileHandle := {
  fh_URI : URI;
  fh_Hash : Hash;
  fh_Content : string
}.

Record FileIdentity := {
  fi_URI : URI;
  fi_Hash : Hash
}.

Definition fileIdentity (fh : FileHandle) : FileIdentity :=
  {| fi_URI := fh_URI fh; fi_Hash := fh_Hash fh |}.

(** [types.StdSizes] *)
Record StdSizes := {
  WordSize : Z;
  MaxAlign : Z
}.

(** [packages.Module], the fields the engine reads. *)
Record ModuleInfo := {
  mod_Path : string;
  mod_Version : string;
  mod_GoVersion : string
}.

(** [source.Metadata].  The engine holds metadata by pointer and compares
    the pointers; [m_ptr] is the address. *)
Record Metadata := {
  m_ptr : nat;
  ID : PackageID;
  PkgPath : PackagePath;
  Name : PackageName;
  GoFiles : list URI;
  CompiledGoFiles : list URI;
  TypesSizes : StdSizes;
  DepsByImpPath : gmap ImportPath PackageID;
  DepsByPkgPath : gmap PackagePath PackageID;
  Module : option ModuleInfo
}.

(** [packageHandle] and [typeCheckInputs].  [deps] maps to handles, hence
    the mutual definition; [ph_ptr] is the address of the handle. *)
Inductive packageHandle := PackageHandle {
  ph_ptr : nat;
  ph_m : Metadata;
  ph_inputs : typeCheckInputs;
  ph_key : Hash
}
with typeCheckInputs := TypeCheckInputs {
  id : PackageID;
  pkgPath : PackagePath;
  name : PackageName;
  goFiles : list FileHandle;
  compiledGoFiles : list FileHandle;
  sizes : StdSizes;
  deps : gmap PackageID packageHandle;
  depsByImpPath : gmap ImportPath PackageID;
  goVersion : string;
  relatedInformation : bool;
  linkTarget : string;
  moduleMode : bool
}.

(** The keys of a Go map in the order a [for k := range m] loop visits
    them: every key once, in an order the runtime chooses. *)
Definition rangeOrder {V} (m : gmap string V) (order : list string) : Prop :=
  order ≡ₚ elements (dom m).

(** The Go runtime chooses the order in which a [range] loop visits the
    keys of a map. *)
Record Runtime := {
  rangeKeys : ∀ V, gmap string V → list string
}.
Arguments rangeKeys _ {V} _.

Definition RangeValid (rt : Runtime) : Prop :=
  ∀ V (m : gmap string V), rangeOrder m (rangeKeys rt m).

(** [for _, v := range m] *)
Definition rangeValues {V} (rt : Runtime) (m : gmap string V) : list V :=
  omap (λ k, m !! k) (rangeKeys rt m).

(** A runtime that visits the keys of every map in one fixed order. *)
Definition fixedRuntime : Runtime :=
  {| rangeKeys := λ V m, elements (dom m) |}.

End Handles.

(** ** [computePackageKey]: the key of a package build *)

Module KeyHasher.
Import Handles.

(** The printing methods that [fmt] calls on the values written to the
    hasher, and the hash function.  [Hash.String] and
    [FileIdentity.String] are declared outside the files modelled here. *)
Record Env := {
  Hash_String : Hash → string;
  FileIdentity_String : FileIdentity → string;
  sha256 : string → Hash
}.

Definition newline : string := String (Ascii.ascii_of_nat 10) "".

(** [%t] *)
Definition fmt_bool (b : bool) : string := if b then "true" else "false".

(** [sort.Strings]: increasing order of Go's [<] on strings, which
    compares byte by byte. *)
Definition sortStrings (l : list string) : list string := merge_sort String.le l.

(** The text written by the loop over the sorted import paths.  Indexing a
    Go map of strings with an absent key gives the empty string. *)
Definition importLine (inputs : typeCheckInputs) (impPath : string) : string :=
  "import " +:+ impPath +:+ " " +:+ default "" (depsByImpPath inputs !! impPath).

(** The text written for one dependency; [None] when [inputs.deps] has no
    handle for [depID], where the source dereferences a nil pointer. *)
Definition depLine (env : Env) (inputs : typeCheckInputs) (depID : string) : option string :=
  dep ← deps inputs !! depID;
  Some ("dep: " +:+ PkgPath (ph_m dep) +:+ " key:" +:+ Hash_String env (ph_key dep) +:+ newline).

(** [fmt.Fprintln(hasher, fh.FileIdentity())] *)
Definition fileLine (env : Env) (fh : FileHandle) : string :=
  FileIdentity_String env (fileIdentity fh) +:+ newline.

(** Everything [computePackageKey] writes to the hasher, in order.
    [importOrder] and [depOrder] are the orders in which the two [range]
    loops over [inputs.depsByImpPath] and [inputs.deps] visit the keys. *)
Definition packageKeyStream (env : Env) (importOrder depOrder : list string)
    (inputs : typeCheckInputs) : option string :=
  let importPaths := sortStrings importOrder in
  let depIDs := sortStrings depOrder in
  depLines ← mapM (depLine env inputs) depIDs;
  Some (
    "package: " +:+ id inputs +:+ " " +:+ name inputs +:+ " " +:+ pkgPath inputs +:+ newline
    +:+ "go " +:+ goVersion inputs +:+ newline
    +:+ String.concat "" (importLine inputs <$> importPaths)
    +:+ String.concat "" depLines
    +:+ "compiledGoFiles: " +:+ pretty (length (compiledGoFiles inputs)) +:+ newline
    +:+ String.concat "" (fileLine env <$> compiledGoFiles inputs)
    +:+ "goFiles: " +:+ pretty (length (goFiles inputs)) +:+ newline
    +:+ String.concat "" (fileLine env <$> goFiles inputs)
    +:+ "sizes: " +:+ pretty (WordSize (sizes inputs)) +:+ " "
                  +:+ pretty (MaxAlign (sizes inputs)) +:+ newline
    +:+ "relatedInformation: " +:+ fmt_bool (relatedInformation inputs) +:+ newline
    +:+ "linkTarget: " +:+ linkTarget inputs +:+ newline
    +:+ "moduleMode: " +:+ fmt_bool (moduleMode inputs) +:+ newline).

Definition computePackageKey (env : Env) (importOrder depOrder : list string)
    (inputs : typeCheckInputs) : option Hash :=
  sha256 env <$> packageKeyStream env importOrder depOrder inputs.

(** Two inputs for one package [p] without files.  In the first, [p]
    imports [a] and [b], resolved to the packages [x] and [y]; in the
    second it imports [a] alone, resolved to a package whose ID is
    [ximport b y]. *)
Definition inputsOf (imports : gmap ImportPath PackageID) : typeCheckInputs :=
  {| id := "p"; pkgPath := "p"; name := "p";
     goFiles := []; compiledGoFiles := [];
     sizes := {| WordSize := 8; MaxAlign := 8 |};
     deps := ∅; depsByImpPath := imports;
     goVersion := "1.18";
     relatedInformation := true; linkTarget := "pkg.go.dev"; moduleMode := true |}.

Definition twoImports : typeCheckInputs := inputsOf {[ "a" := "x"; "b" := "y" ]}.
Definition oneImport : typeCheckInputs := inputsOf {[ "a" := "ximport b y" ]}.

(** An environment to run the function in: hashes are printed as they
    are, a file identity as its URI followed by its hash, and the bytes
    written stand for their own digest. *)
Definition plainEnv : Env :=
  {| Hash_String := λ h, h;
     FileIdentity_String := λ fi, fi_URI fi +:+ fi_Hash fi;
     sha256 := λ bytes, bytes |}.

(** Inputs with two imports and a handle for each of them. *)
Definition leafHandle (ptr : nat) (path : string) (key : Hash) : packageHandle :=
  {| ph_ptr := ptr;
     ph_m := {| m_ptr := ptr; ID := path; PkgPath := path; Name := path;
                GoFiles := []; CompiledGoFiles := [];
                TypesSizes := {| WordSize := 8; MaxAlign := 8 |};
                DepsByImpPath := ∅; DepsByPkgPath := ∅; Module := None |};
     ph_inputs := inputsOf ∅;
     ph_key := key |}.

Definition withTwoDeps : typeCheckInputs :=
  {| id := "p"; pkgPath := "p"; name := "p";
     goFiles := [];
     compiledGoFiles := [ {| fh_URI := "file:///p/p.go"; fh_Hash := "h"; fh_Content := "package p" |} ];
     sizes := {| WordSize := 8; MaxAlign := 8 |};
     deps := {[ "fmt" := leafHandle 1 "fmt" "k1"; "os" := leafHandle 2 "os" "k2" ]};
     depsByImpPath := {[ "fmt" := "fmt"; "os" := "os" ]};
     goVersion := "1.18";
     relatedInformation := true; linkTarget := "pkg.go.dev"; moduleMode := true |}.

(** What [computePackageKey] reads of its inputs: of a file its identity,
    of the handle of a dependency the package path of its metadata and
    its key. *)
Definition sameKeyData (a b : typeCheckInputs) : Prop :=
  id a = id b ∧ name a = name b ∧ pkgPath a = pkgPath b ∧ goVersion a = goVersion b
  ∧ depsByImpPath a = depsByImpPath b
  ∧ fileIdentity <$> compiledGoFiles a = fileIdentity <$> compiledGoFiles b
  ∧ fileIdentity <$> goFiles a = fileIdentity <$> goFiles b
  ∧ sizes a = sizes b
  ∧ relatedInformation a = relatedInformation b
  ∧ linkTarget a = linkTarget b
  ∧ moduleMode a = moduleMode b
  ∧ ∀ depID, (λ dep, (PkgPath (ph_m dep), ph_key dep)) <$> deps a !! depID
             = (λ dep, (PkgPath (ph_m dep), ph_key dep)) <$> deps b !! depID.

(** The inputs [withTwoDeps] after the handles of the dependencies were
    built anew, at other addresses, and the file was read anew. *)
Definition withTwoDepsRebuilt : typeCheckInputs :=
  {| id := "p"; pkgPath := "p"; name := "p";
     goFiles := [];
     compiledGoFiles := [ {| fh_URI := "file:///p/p.go"; fh_Hash := "h"; fh_Content := "" |} ];
     sizes := {| WordSize := 8; MaxAlign := 8 |};
     deps := {[ "fmt" := leafHandle 11 "fmt" "k1"; "os" := leafHandle 12 "os" "k2" ]};
     depsByImpPath := {[ "fmt" := "fmt"; "os" := "os" ]};
     goVersion := "1.18";
     relatedInformation := true; linkTarget := "pkg.go.dev"; moduleMode := true |}.

End KeyHasher.

(** ** [doTypeCheck] and [typeCheckImpl]: one full type check *)

Module TypeCheck.
Import Handles ErrorExpansion.

(** [*types.Package]: the canonical package [types.Unsafe], or a package
    object made by [types.NewPackage] and filled in by the checker. *)
Inductive TypesPackage :=
| Unsafe
| NewPackage (path : PackagePath) (name : PackageName).

(** [source.Diagnostic], the fields this code reads or that tell where a
    diagnostic comes from. *)
Record Diagnostic := {
  d_URI : URI;
  d_Source : string;
  d_Message : string
}.

(** [syntaxPackage], without the indexes computed from the checker's
    output ([typesInfo], [methodsets], [xrefs], [importMap]). *)
Record syntaxPackage := {
  pkg_id : PackageID;
  types : TypesPackage;
  goFiles : list ParsedGoFile;
  compiledGoFiles : list ParsedGoFile;
  parseErrors : list ErrorList;
  typeErrors : list Error;
  diagnostics : list Diagnostic;
  hasFixedFiles : bool
}.

Definition setTypes (pkg : syntaxPackage) (t : TypesPackage) : syntaxPackage :=
  {| pkg_id := pkg_id pkg; types := t; goFiles := goFiles pkg;
     compiledGoFiles := compiledGoFiles pkg; parseErrors := parseErrors pkg;
     typeErrors := typeErrors pkg; diagnostics := diagnostics pkg;
     hasFixedFiles := hasFixedFiles pkg |}.

Definition setFiles (pkg : syntaxPackage) (gfs cgfs : list ParsedGoFile)
    (perrs : list ErrorList) : syntaxPackage :=
  {| pkg_id := pkg_id pkg; types := types pkg; goFiles := gfs;
     compiledGoFiles := cgfs; parseErrors := perrs;
     typeErrors := typeErrors pkg; diagnostics := diagnostics pkg;
     hasFixedFiles := hasFixedFiles pkg |}.

Definition setTypeErrors (pkg : syntaxPackage) (errs : list Error) : syntaxPackage :=
  {| pkg_id := pkg_id pkg; types := types pkg; goFiles := goFiles pkg;
     compiledGoFiles := compiledGoFiles pkg; parseErrors := parseErrors pkg;
     typeErrors := errs; diagnostics := diagnostics pkg;
     hasFixedFiles := hasFixedFiles pkg |}.

Definition setDiagnostics (pkg : syntaxPackage) (ds : list Diagnostic) : syntaxPackage :=
  {| pkg_id := pkg_id pkg; types := types pkg; goFiles := goFiles pkg;
     compiledGoFiles := compiledGoFiles pkg; parseErrors := parseErrors pkg;
     typeErrors := typeErrors pkg; diagnostics := ds;
     hasFixedFiles := hasFixedFiles pkg |}.

(** What a run does to its collaborators, in order. *)
Inductive Event :=
| EvParseFiles (uris : list URI)
| EvCheckFiles (id : PackageID).

(** The collaborators of a type check: the parse cache, the type checker
    (the errors it passes to the error callback of its configuration, in
    order), the two functions that turn errors into diagnostics, and the
    context, which is cancelled ([Some] of its error) or live during the
    run. *)
Record Env := {
  parseFiles : list FileHandle → result (list ParsedGoFile);
  check_Files : typeCheckInputs → list ParsedGoFile → list Error;
  parseErrorDiagnostics : syntaxPackage → ErrorList → result (list Diagnostic);
  typeErrorDiagnostics : bool → string → syntaxPackage → extendedError → result (list Diagnostic);
  ctx_Err : option error
}.

Definition doTypeCheck (env : Env) (inputs : typeCheckInputs)
    : result syntaxPackage * list Event :=
  let pkg :=
    {| pkg_id := id inputs;
       types := NewPackage (pkgPath inputs) (name inputs);
       goFiles := []; compiledGoFiles := []; parseErrors := [];
       typeErrors := []; diagnostics := []; hasFixedFiles := false |} in
  let log1 := [EvParseFiles (fh_URI <$> Handles.goFiles inputs)] in
  match parseFiles env (Handles.goFiles inputs) with
  | Err err => (Err err, log1)
  | Ok gfs =>
  let log2 := log1 ++ [EvParseFiles (fh_URI <$> Handles.compiledGoFiles inputs)] in
  match parseFiles env (Handles.compiledGoFiles inputs) with
  | Err err => (Err err, log2)
  | Ok cgfs =>
  let pkg := setFiles pkg gfs cgfs (omap pgf_ParseErr cgfs) in
  if decide (pkgPath inputs = "unsafe") then
    (Ok (setTypes pkg Unsafe), log2)
  else if decide (length (compiledGoFiles pkg) = 0) then
    (Err ("no parsed files for package " +:+ pkgPath inputs), log2)
  else
    match ctx_Err env with
    | Some err => (Err err, log2)
    | None =>
        let pkg := setTypeErrors pkg (check_Files env inputs (compiledGoFiles pkg)) in
        let log3 := log2 ++ [EvCheckFiles (id inputs)] in
        match ctx_Err env with
        | Some err => (Err err, log3)
        | None => (Ok pkg, log3)
        end
    end
  end
  end.

(** One turn of the loop over [pkg.parseErrors]: the set [unparseable] and
    the package as they are after the turn. *)
Definition parseErrorStep (env : Env) (st : gset URI * syntaxPackage) (e : ErrorList)
    : gset URI * syntaxPackage :=
  match parseErrorDiagnostics env st.2 e with
  | Err _ => st
  | Ok diags =>
      (st.1 ∪ list_to_set (d_URI <$> diags),
       setDiagnostics st.2 (diagnostics st.2 ++ diags))
  end.

(** One turn of the loop over the expanded type errors. *)
Definition typeErrorStep (env : Env) (inputs : typeCheckInputs) (unparseable : gset URI)
    (pkg : syntaxPackage) (e : extendedError) : syntaxPackage :=
  match typeErrorDiagnostics env (moduleMode inputs) (linkTarget inputs) pkg e with
  | Err _ => pkg
  | Ok diags =>
      let pkg := setTypeErrors pkg (typeErrors pkg ++ [primary e]) in
      setDiagnostics pkg
        (diagnostics pkg ++ filter (λ diag, d_URI diag ∉ unparseable) diags)
  end.

(** The part of [typeCheckImpl] that follows the call of [doTypeCheck]. *)
Definition reportErrors (env : Env) (inputs : typeCheckInputs) (pkg : syntaxPackage)
    : syntaxPackage :=
  let '(unparseable, pkg) := foldl (parseErrorStep env) (∅, pkg) (parseErrors pkg) in
  if hasFixedFiles pkg then pkg
  else
    let unexpanded := typeErrors pkg in
    let pkg := setTypeErrors pkg [] in
    foldl (typeErrorStep env inputs unparseable) pkg
      (expandErrors unexpanded (relatedInformation inputs)).

Definition typeCheckImpl (env : Env) (inputs : typeCheckInputs)
    : result syntaxPackage * list Event :=
  match doTypeCheck env inputs with
  | (Err err, log) => (Err err, log)
  | (Ok pkg, log) => (Ok (reportErrors env inputs pkg), log)
  end.

(** The diagnostics that the calls of [parseErrorDiagnostics] in the first
    loop return, and those that the calls of [typeErrorDiagnostics] in the
    second loop return, each call seeing the package as the loop has left
    it so far.  They serve to state what [reportErrors] keeps. *)
Fixpoint parseDiagnosticsComputed (env : Env) (pkg : syntaxPackage)
    (errs : list ErrorList) : list Diagnostic :=
  match errs with
  | [] => []
  | e :: errs =>
      match parseErrorDiagnostics env pkg e with
      | Err _ => parseDiagnosticsComputed env pkg errs
      | Ok diags =>
          diags ++ parseDiagnosticsComputed env
                     (setDiagnostics pkg (diagnostics pkg ++ diags)) errs
      end
  end.

Fixpoint typeDiagnosticsComputed (env : Env) (inputs : typeCheckInputs)
    (unparseable : gset URI) (pkg : syntaxPackage) (es : list extendedError)
    : list Diagnostic :=
  match es with
  | [] => []
  | e :: es =>
      match typeErrorDiagnostics env (moduleMode inputs) (linkTarget inputs) pkg e with
      | Err _ => typeDiagnosticsComputed env inputs unparseable pkg es
      | Ok diags =>
          diags ++ typeDiagnosticsComputed env inputs unparseable
                     (typeErrorStep env inputs unparseable pkg e) es
      end
  end.

(** A package [p] with two compiled files.  The parser repaired the
    syntax of [a.go], which has a syntax error; [b.go] parses cleanly.  The
    checker reports one error, at position 150, which lies in [b.go]. *)
Definition aGo : FileHandle :=
  {| fh_URI := "file:///p/a.go"; fh_Hash := "ha"; fh_Content := "package p; func f() { x. }" |}.
Definition bGo : FileHandle :=
  {| fh_URI := "file:///p/b.go"; fh_Hash := "hb"; fh_Content := "package p; var v int = true" |}.

Definition repairedInputs : typeCheckInputs :=
  {| id := "p"; pkgPath := "p"; name := "p";
     Handles.goFiles := [aGo; bGo]; Handles.compiledGoFiles := [aGo; bGo];
     sizes := {| WordSize := 8; MaxAlign := 8 |};
     deps := ∅; depsByImpPath := ∅; goVersion := "1.18";
     relatedInformation := true; linkTarget := "pkg.go.dev"; moduleMode := true |}.

Definition parseOne (fh : FileHandle) : ParsedGoFile :=
  if decide (fh_URI fh = "file:///p/a.go") then
    {| pgf_URI := fh_URI fh; pgf_Src := "package p; func f() { x._ }"; pgf_Fixed := true;
       pgf_ParseErr := Some {| el_filename := fh_URI fh; el_msgs := ["expected selector or type assertion"] |} |}
  else
    {| pgf_URI := fh_URI fh; pgf_Src := fh_Content fh; pgf_Fixed := false;
       pgf_ParseErr := None |}.

Definition boolAsInt : Error :=
  {| Pos := 150; Msg := "cannot use true (untyped bool constant) as int value";
     Soft := false; go116code := 0; go116start := 150; go116end := 154 |}.

Definition repairedEnv : Env :=
  {| parseFiles := λ fhs, Ok (parseOne <$> fhs);
     check_Files := λ _ _, [boolAsInt];
     parseErrorDiagnostics := λ _ e,
       Ok [ {| d_URI := el_filename e; d_Source := "syntax";
               d_Message := default "" (head (el_msgs e)) |} ];
     typeErrorDiagnostics := λ _ _ _ e,
       Ok [ {| d_URI := if decide (Pos (primary e) < 100)%Z
                        then "file:///p/a.go" else "file:///p/b.go";
               d_Source := "compiler"; d_Message := Msg (primary e) |} ];
     ctx_Err := None |}.

End TypeCheck.

(** ** [resolveImportGraph]: the dependencies kept in the shared import graph *)

Module ImportGraph.
Import Handles.

(** [metadataGraph] *)
Record metadataGraph := {
  metadata : gmap PackageID Metadata;
  ids : gmap URI (list PackageID)
}.

(** The part of a snapshot that [resolveImportGraph] reads: the result of
    [awaitLoaded], the metadata graph, the URIs of the overlays, the
    outcome of [buildPackageHandle] for each ID, and the error of the
    background context ([None] while it is live). *)
Record Snapshot := {
  awaitLoaded : option error;
  meta : metadataGraph;
  overlays : list URI;
  buildPackageHandle : PackageID → result packageHandle;
  ctx_Err : option error
}.

(** The first loop: the packages that contain an overlay. *)
Definition openPackagesOf (s : Snapshot) : gmap PackageID bool :=
  foldl (λ openPackages uri,
           foldl (λ openPackages id, <[id := true]> openPackages)
                 openPackages (default [] (ids (meta s) !! uri)))
        ∅ (overlays s).

(** [openPackages[id]] *)
Definition isOpen (openPackages : gmap PackageID bool) (id : PackageID) : bool :=
  default false (openPackages !! id).

(** The body of the inner loop that fills [deps]; an [Err] is the error
    that [resolveImportGraph] returns. *)
Definition addDep (s : Snapshot) (st : result (gmap PackageID Hash)) (depID : PackageID)
    : result (gmap PackageID Hash) :=
  match st with
  | Err err => Err err
  | Ok deps =>
      match deps !! depID with
      | Some _ => Ok deps
      | None =>
          match buildPackageHandle s depID with
          | Err err =>
              match ctx_Err s with
              | Some _ => Err err
              | None => Ok deps
              end
          | Ok ph => Ok (<[depID := ph_key ph]> deps)
          end
      end
  end.

(** The body of the outer loop; [None] when [meta.metadata[id]] is nil,
    where the source dereferences it. *)
Definition addDepsOf (rt : Runtime) (s : Snapshot)
    (st : option (result (gmap PackageID Hash))) (id : PackageID)
    : option (result (gmap PackageID Hash)) :=
  match st with
  | None => None
  | Some (Err err) => Some (Err err)
  | Some (Ok deps) =>
      m ← metadata (meta s) !! id;
      Some (foldl (addDep s) (Ok deps) (rangeValues rt (DepsByPkgPath m)))
  end.

(** The loop [for _, dep := range m.DepsByPkgPath] in [isVolatile], given
    the function to call on each dependency: it stops at the first
    volatile one. *)
Fixpoint anyVolatile
    (isVolatile : PackageID → gmap PackageID bool → option (bool * gmap PackageID bool))
    (depIDs : list PackageID) (volatileDeps : gmap PackageID bool)
    : option (bool * gmap PackageID bool) :=
  match depIDs with
  | [] => Some (false, volatileDeps)
  | dep :: rest =>
      match isVolatile dep volatileDeps with
      | None => None
      | Some (true, volatileDeps) => Some (true, volatileDeps)
      | Some (false, volatileDeps) => anyVolatile isVolatile rest volatileDeps
      end
  end.

(** The closure [isVolatile], with the map [volatileDeps] it updates passed
    in and out.  [fuel] bounds the depth of the recursion; the result is
    [None] when it runs out. *)
Fixpoint isVolatile (rt : Runtime) (s : Snapshot) (openPackages : gmap PackageID bool)
    (fuel : nat) (id : PackageID) (volatileDeps : gmap PackageID bool)
    : option (bool * gmap PackageID bool) :=
  match fuel with
  | 0 => None
  | S fuel =>
      match volatileDeps !! id with
      | Some v => Some (v, volatileDeps)
      | None =>
          if isOpen openPackages id then Some (true, <[id := true]> volatileDeps)
          else
            match metadata (meta s) !! id with
            | None => Some (false, <[id := false]> volatileDeps)
            | Some m =>
                r ← anyVolatile (isVolatile rt s openPackages fuel)
                       (rangeValues rt (DepsByPkgPath m)) volatileDeps;
                Some (r.1, <[id := r.1]> r.2)
            end
      end
  end.

(** [for dep := range deps { isVolatile(dep) }] *)
Fixpoint markVolatile (rt : Runtime) (s : Snapshot) (openPackages : gmap PackageID bool)
    (fuel : nat) (depIDs : list PackageID) (volatileDeps : gmap PackageID bool)
    : option (gmap PackageID bool) :=
  match depIDs with
  | [] => Some volatileDeps
  | dep :: rest =>
      r ← isVolatile rt s openPackages fuel dep volatileDeps;
      markVolatile rt s openPackages fuel rest r.2
  end.

(** [for id, volatile := range volatileDeps { if volatile { delete(deps, id) } }] *)
Definition eraseVolatile (rt : Runtime) (deps : gmap PackageID Hash)
    (volatileDeps : gmap PackageID bool) : gmap PackageID Hash :=
  foldl (λ deps id, if default false (volatileDeps !! id) then delete id deps else deps)
        deps (rangeKeys rt volatileDeps).

(** [resolveImportGraph] up to the point where [deps] is final, before it
    is compared with the previous import graph. *)
Definition importGraphDeps (rt : Runtime) (fuel : nat) (s : Snapshot)
    : option (result (gmap PackageID Hash)) :=
  match awaitLoaded s with
  | Some err => Some (Err err)
  | None =>
      let openPackages := openPackagesOf s in
      match foldl (addDepsOf rt s) (Some (Ok ∅)) (rangeKeys rt openPackages) with
      | None => None
      | Some (Err err) => Some (Err err)
      | Some (Ok deps) =>
          volatileDeps ← markVolatile rt s openPackages fuel (rangeKeys rt deps) ∅;
          Some (Ok (eraseVolatile rt deps volatileDeps))
      end
  end.

(** [dep] is a direct dependency of [id] in the metadata graph. *)
Definition depEdge (s : Snapshot) (id dep : PackageID) : Prop :=
  ∃ m path, metadata (meta s) !! id = Some m ∧ DepsByPkgPath m !! path = Some dep.

(** A package is open when it contains an overlay. *)
Definition OpenPackage (s : Snapshot) (id : PackageID) : Prop :=
  ∃ uri pkgs, uri ∈ overlays s ∧ ids (meta s) !! uri = Some pkgs ∧ id ∈ pkgs.

(** A package is volatile when it is open or reaches an open package
    through dependency edges. *)
Definition Volatile (s : Snapshot) (id : PackageID) : Prop :=
  ∃ id', rtc (depEdge s) id id' ∧ OpenPackage s id'.

(** Every entry of the map [volatileDeps] is right. *)
Definition MemoRight (s : Snapshot) (volatileDeps : gmap PackageID bool) : Prop :=
  ∀ id v, volatileDeps !! id = Some v → (v = true ↔ Volatile s id).

(** Every package listed for a file has metadata, as in a metadata graph
    whose [ids] index was computed from its [metadata]. *)
Definition IndexedHaveMetadata (g : metadataGraph) : Prop :=
  ∀ uri pkgs id, ids g !! uri = Some pkgs → id ∈ pkgs → is_Some (metadata g !! id).

(** The package [a] imports [b], which imports [c]; [a] and [b] have an
    overlay each. *)
Definition packageMeta (ptr : nat) (path : string) (imports : list string) : Metadata :=
  {| m_ptr := ptr; ID := path; PkgPath := path; Name := path;
     GoFiles := ["file:///" +:+ path +:+ ".go"];
     CompiledGoFiles := ["file:///" +:+ path +:+ ".go"];
     TypesSizes := {| WordSize := 8; MaxAlign := 8 |};
     DepsByImpPath := list_to_map ((λ i, (i, i)) <$> imports);
     DepsByPkgPath := list_to_map ((λ i, (i, i)) <$> imports);
     Module := None |}.

Definition handleOf (m : Metadata) : packageHandle :=
  {| ph_ptr := m_ptr m; ph_m := m;
     ph_inputs := KeyHasher.inputsOf (DepsByImpPath m);
     ph_key := "key of " +:+ ID m |}.

Definition abcGraph : metadataGraph :=
  {| metadata := {[ "a" := packageMeta 1 "a" ["b"];
                    "b" := packageMeta 2 "b" ["c"];
                    "c" := packageMeta 3 "c" [] ]};
     ids := {[ "file:///a.go" := ["a"]; "file:///b.go" := ["b"]; "file:///c.go" := ["c"] ]} |}.

Definition abcSnapshot : Snapshot :=
  {| awaitLoaded := None;
     meta := abcGraph;
     overlays := ["file:///a.go"; "file:///b.go"];
     buildPackageHandle := λ id,
       match metadata abcGraph !! id with
       | Some m => Ok (handleOf m)
       | None => Err ("no metadata for " +:+ id)
       end;
     ctx_Err := None |}.

(** The height of a package in [abcGraph]. *)
Definition abcRank (id : PackageID) : nat :=
  if decide (id = "a") then 2 else if decide (id = "b") then 1 else 0.

End ImportGraph.

(** ** [buildPackageHandle] and [typeCheckInputs]: the package handle store *)

Module HandleStore.
Import Handles.

(** The part of a snapshot that [buildPackageHandle] works on: the
    metadata, the map [s.packages] of the handles built so far, and the
    address that the next [&packageHandle{...}] gets. *)
Record snapshot := {
  metadata : gmap PackageID Metadata;
  packages : gmap PackageID packageHandle;
  nextPtr : nat
}.

Definition setPackages (s : snapshot) (pkgs : gmap PackageID packageHandle) : snapshot :=
  {| metadata := metadata s; packages := pkgs; nextPtr := nextPtr s |}.

Definition allocate (s : snapshot) : snapshot :=
  {| metadata := metadata s; packages := packages s; nextPtr := S (nextPtr s) |}.

(** What stays fixed while handles are built: the context (cancelled with
    [Some] error, or live), the file source, the options of the view, and
    the printing and hashing functions and map orders that
    [computePackageKey] depends on. *)
Record Env := {
  ctx_Err : option error;
  ReadFile : URI → result FileHandle;
  RelatedInformationSupported : bool;
  LinkTarget : string;
  s_moduleMode : bool;
  keyEnv : KeyHasher.Env;
  rt : Runtime
}.

(** The first critical section of [buildPackageHandle]: both reads under
    [s.mu]. *)
Definition lookupSection (s : snapshot) (id : PackageID)
    : option packageHandle * option Metadata :=
  (packages s !! id, metadata s !! id).

(** The second critical section: the checks and the insertion under
    [s.mu].  Metadata and handles are compared by address. *)
Definition installSection (s : snapshot) (id : PackageID) (ph : packageHandle)
    : result packageHandle * snapshot :=
  if decide (m_ptr <$> metadata s !! ID (ph_m ph) ≠ Some (m_ptr (ph_m ph))) then
    (Err ("stale metadata for " +:+ ID (ph_m ph)), s)
  else
    match packages s !! id with
    | Some prevPH =>
        if decide (m_ptr (ph_m prevPH) ≠ m_ptr (ph_m ph)) then
          (Err ("existing package handle does not match for " +:+ ID (ph_m ph)), s)
        else (Ok prevPH, s)
    | None => (Ok ph, setPackages s (<[id := ph]> (packages s)))
    end.

Fixpoint readFiles (readFile : URI → result FileHandle) (uris : list URI)
    : result (list FileHandle) :=
  match uris with
  | [] => Ok []
  | uri :: rest =>
      match readFile uri with
      | Err err => Err err
      | Ok fh =>
          match readFiles readFile rest with
          | Err err => Err err
          | Ok fhs => Ok (fh :: fhs)
          end
      end
  end.

(** The loop of [typeCheckInputs] over [m.DepsByPkgPath], given the
    function that builds the handle of a dependency in a snapshot.  [None]
    when a call of that function does not return. *)
Fixpoint depHandles
    (build : PackageID → snapshot → option (result packageHandle * snapshot))
    (ctxErr : option error) (depIDs : list PackageID)
    (deps : gmap PackageID packageHandle) (s : snapshot)
    : option (result (gmap PackageID packageHandle) * snapshot) :=
  match depIDs with
  | [] => Some (Ok deps, s)
  | depID :: rest =>
      match build depID s with
      | None => None
      | Some (Err err, s) =>
          match ctxErr with
          | Some cancelled => Some (Err cancelled, s)
          | None => depHandles build ctxErr rest deps s
          end
      | Some (Ok depHandle, s) =>
          depHandles build ctxErr rest (<[depID := depHandle]> deps) s
      end
  end.

Definition typeCheckInputs (env : Env)
    (build : PackageID → snapshot → option (result packageHandle * snapshot))
    (m : Metadata) (s : snapshot) : option (result typeCheckInputs * snapshot) :=
  match depHandles build (ctx_Err env) (rangeValues (rt env) (DepsByPkgPath m)) ∅ s with
  | None => None
  | Some (Err err, s) => Some (Err err, s)
  | Some (Ok deps, s) =>
      match readFiles (ReadFile env) (GoFiles m) with
      | Err err => Some (Err err, s)
      | Ok goFiles =>
      match readFiles (ReadFile env) (CompiledGoFiles m) with
      | Err err => Some (Err err, s)
      | Ok compiledGoFiles =>
          let goVersion :=
            match Module m with
            | Some module => mod_GoVersion module
            | None => ""
            end in
          Some (Ok {| id := ID m; pkgPath := PkgPath m; name := Name m;
                      goFiles := goFiles; compiledGoFiles := compiledGoFiles;
                      sizes := TypesSizes m;
                      deps := deps; depsByImpPath := DepsByImpPath m;
                      goVersion := goVersion;
                      relatedInformation := RelatedInformationSupported env;
                      linkTarget := LinkTarget env;
                      moduleMode := s_moduleMode env |}, s)
      end
      end
  end.

(** [buildPackageHandle], run by one goroutine alone.  [fuel] bounds the
    depth of the recursion through [typeCheckInputs]. *)
Fixpoint buildPackageHandle (env : Env) (fuel : nat) (id : PackageID) (s : snapshot)
    : option (result packageHandle * snapshot) :=
  match fuel with
  | 0 => None
  | S fuel =>
      match lookupSection s id with
      | (_, None) => Some (Err ("no metadata for " +:+ id), s)
      | (Some entry, Some _) => Some (Ok entry, s)
      | (None, Some m) =>
          match typeCheckInputs env (buildPackageHandle env fuel) m s with
          | None => None
          | Some (Err err, s) => Some (Err err, s)
          | Some (Ok inputs, s) =>
              phKey ← KeyHasher.computePackageKey (keyEnv env)
                        (rangeKeys (rt env) (depsByImpPath inputs))
                        (rangeKeys (rt env) (deps inputs)) inputs;
              let ph := {| ph_ptr := nextPtr s; ph_m := m;
                           ph_inputs := inputs; ph_key := phKey |} in
              Some (installSection (allocate s) id ph)
          end
      end
  end.

(** *** Concurrent calls

    Calls of [buildPackageHandle] by several goroutines interleave at the
    boundaries of the two critical sections.  A call is about to enter the
    first section, or is between the sections with the metadata it read,
    or has returned. *)
Inductive callState :=
| Called (id : PackageID)
| Building (id : PackageID) (m : Metadata)
| Returned (id : PackageID) (r : result packageHandle).

(** One atomic step of some call: a new call is made; call [i] runs its
    first critical section; call [i], between the sections, fails with an
    error of [typeCheckInputs]; or call [i] has built its inputs and key
    and runs its second critical section. *)
Inductive action :=
| ActCall (id : PackageID)
| ActLookup (i : nat)
| ActFail (i : nat) (err : error)
| ActInstall (i : nat) (inputs : Handles.typeCheckInputs) (key : Hash).

Definition step (a : action) (st : snapshot * list callState)
    : option (snapshot * list callState) :=
  let '(s, calls) := st in
  match a with
  | ActCall id => Some (s, calls ++ [Called id])
  | ActLookup i =>
      match calls !! i with
      | Some (Called id) =>
          let next :=
            match lookupSection s id with
            | (_, None) => Returned id (Err ("no metadata for " +:+ id))
            | (Some entry, Some _) => Returned id (Ok entry)
            | (None, Some m) => Building id m
            end in
          Some (s, <[i := next]> calls)
      | _ => None
      end
  | ActFail i err =>
      match calls !! i with
      | Some (Building id m) => Some (s, <[i := Returned id (Err err)]> calls)
      | _ => None
      end
  | ActInstall i inputs key =>
      match calls !! i with
      | Some (Building id m) =>
          let ph := {| ph_ptr := nextPtr s; ph_m := m; ph_inputs := inputs; ph_key := key |} in
          let '(r, s) := installSection (allocate s) id ph in
          Some (s, <[i := Returned id r]> calls)
      | _ => None
      end
  end.

(** A schedule is a list of steps; [run] is [None] when a step of the
    schedule is not enabled. *)
Fixpoint run (schedule : list action) (st : snapshot * list callState)
    : option (snapshot * list callState) :=
  match schedule with
  | [] => Some st
  | a :: rest => st ← step a st; run rest st
  end.

Definition isCalled (c : callState) : Prop :=
  match c with Called _ => True | _ => False end.

(** The snapshot [s'] has the metadata of [s] and all its handles. *)
Definition Grows (s s' : snapshot) : Prop :=
  metadata s' = metadata s
  ∧ ∀ id h, packages s !! id = Some h → packages s' !! id = Some h.

(** Every handle that a call has returned for an ID is the handle stored
    for that ID. *)
Definition ReturnsStored (st : snapshot * list callState) : Prop :=
  ∀ i id h, st.2 !! i = Some (Returned id (Ok h)) → packages st.1 !! id = Some h.

(** Two goroutines ask for the handle of [a] in a snapshot that has none;
    both miss in the first critical section and both build a handle; the
    one of call 0 is installed first. *)
Definition aMeta : Metadata :=
  {| m_ptr := 1; ID := "a"; PkgPath := "a"; Name := "a";
     GoFiles := ["file:///a.go"]; CompiledGoFiles := ["file:///a.go"];
     TypesSizes := {| WordSize := 8; MaxAlign := 8 |};
     DepsByImpPath := ∅; DepsByPkgPath := ∅; Module := None |}.

Definition raceStart : snapshot * list callState :=
  ({| metadata := {[ "a" := aMeta ]}; packages := ∅; nextPtr := 10 |},
   [Called "a"; Called "a"]).

Definition raceSchedule : list action :=
  [ ActLookup 0; ActLookup 1;
    ActInstall 0 (KeyHasher.inputsOf ∅) "k";
    ActInstall 1 (KeyHasher.inputsOf ∅) "k" ].

Definition firstHandle : packageHandle :=
  {| ph_ptr := 10; ph_m := aMeta; ph_inputs := KeyHasher.inputsOf ∅; ph_key := "k" |}.

Definition raceEnd : snapshot * list callState :=
  ({| metadata := {[ "a" := aMeta ]}; packages := {[ "a" := firstHandle ]}; nextPtr := 12 |},
   [Returned "a" (Ok firstHandle); Returned "a" (Ok firstHandle)]).



End HandleStore.

(** ** The type-check batch: [getImportPackage], [handleSyntaxPackage], [TypeCheck] *)

Module Batch.
Import Handles.

Abbreviation TypesPackage := TypeCheck.TypesPackage (only parsing).
Abbreviation Unsafe := TypeCheck.Unsafe (only parsing).

(** [*Package]: the metadata and the syntax package, at an address. *)
Record Package := {
  p_ptr : nat;
  p_m : Metadata;
  p_pkg : TypeCheck.syntaxPackage
}.

(** [pkgOrErr]; [None] is nil. *)
Record pkgOrErr := {
  pkg : option TypesPackage;
  err : option error
}.

Definition returnPkg (p : TypesPackage) : pkgOrErr := {| pkg := Some p; err := None |}.
Definition returnErr (e : error) : pkgOrErr := {| pkg := None; err := Some e |}.
Definition returnNil : pkgOrErr := {| pkg := None; err := None |}.

(** The calls that a batch makes to its collaborators. *)
Inductive Event :=
| EvBuildHandle (id : PackageID)
| EvCacheGet (key : Hash)
| EvParseFiles (id : PackageID)
| EvCheckFiles (id : PackageID)
| EvImportShallow (id : PackageID)
| EvCheckPackage (id : PackageID)
| EvPost (i : nat) (id : PackageID).

(** [importGraph], without the file set. *)
Record importGraph := {
  ig_deps : gmap PackageID Hash;
  ig_imports : gmap PackageID pkgOrErr
}.

(** The collaborators of a batch.  The context is cancelled ([Some] of
    its error) or live during the run.  When a [select] finds both of its
    channels ready, [selectDone] tells whether it takes the case of
    [ctx.Done()].  [buildPackageHandle] is the snapshot's; [checkPackage]
    is given the handle and the import futures that the importer of the
    checker reads; [exportDataImports] and [checkerImports] list the
    package paths and import paths that the decoder of export data and
    the checker ask their callbacks for, in order. *)
Record Env := {
  ctx_Err : option error;
  selectDone : PackageID → bool;
  buildPackageHandle : PackageID → result packageHandle;
  filecache_Get : Hash → result (option string);
  parseFiles : list FileHandle → result (list ParsedGoFile);
  checkPackage : packageHandle → gmap PackageID (option pkgOrErr) → result Package;
  checkerImports : packageHandle → list ImportPath;
  checkForImport : packageHandle → list (ImportPath * pkgOrErr) → TypesPackage;
  exportDataImports : string → list PackagePath;
  IImportShallow : Metadata → string → list (PackagePath * option TypesPackage) → result TypesPackage;
  IsValidImport : PackagePath → PackagePath → bool;
  rt : Runtime
}.

Section Client.
(** The state that the [post] callback of the caller works on. *)
Context {C : Type}.

(** [typeCheckBatch].  A future in one of the two maps is [None] until the
    goroutine that made it has stored its value and closed its channel.
    [log] and [client] are not fields of the source: the first records the
    calls made, the second is the state that [post] updates. *)
Record typeCheckBatch := {
  syntaxIndex : gmap PackageID nat;
  pre : option (nat → packageHandle → bool);
  post : nat → Package → C → option C;
  meta : gmap PackageID Metadata;
  syntaxPackages : gmap PackageID (option pkgOrErr);
  importPackages : gmap PackageID (option pkgOrErr);
  log : list Event;
  client : C
}.

Definition setSyntaxPackages (b : typeCheckBatch) (m : gmap PackageID (option pkgOrErr)) :=
  {| syntaxIndex := syntaxIndex b; pre := pre b; post := post b; meta := meta b;
     syntaxPackages := m; importPackages := importPackages b;
     log := log b; client := client b |}.

Definition setImportPackages (b : typeCheckBatch) (m : gmap PackageID (option pkgOrErr)) :=
  {| syntaxIndex := syntaxIndex b; pre := pre b; post := post b; meta := meta b;
     syntaxPackages := syntaxPackages b; importPackages := m;
     log := log b; client := client b |}.

Definition record (b : typeCheckBatch) (ev : Event) :=
  {| syntaxIndex := syntaxIndex b; pre := pre b; post := post b; meta := meta b;
     syntaxPackages := syntaxPackages b; importPackages := importPackages b;
     log := log b ++ [ev]; client := client b |}.

Definition setClient (b : typeCheckBatch) (c : C) :=
  {| syntaxIndex := syntaxIndex b; pre := pre b; post := post b; meta := meta b;
     syntaxPackages := syntaxPackages b; importPackages := importPackages b;
     log := log b; client := c |}.

(** A call that returns a value and leaves the batch in a new state, or
    does not return ([None]): it is out of fuel, it waits for a future
    that only its own caller could complete, or it dereferences nil. *)
Abbreviation call A := (option (A * typeCheckBatch)) (only parsing).

(** The [select] of [getImportPackage] on a future [f] that is in the map
    already. *)
Definition awaitFuture (env : Env) (id : PackageID) (f : option pkgOrErr)
    : option pkgOrErr :=
  match ctx_Err env, f with
  | Some cancelled, Some v => Some (if selectDone env id then returnErr cancelled else v)
  | Some cancelled, None => Some (returnErr cancelled)
  | None, Some v => Some v
  | None, None => None
  end.

(** [missingPkgError]; [%q] puts the path between double quotes. *)
Definition quoted (s : string) : string :=
  String (Ascii.ascii_of_nat 34) (s +:+ String (Ascii.ascii_of_nat 34) "").

Definition missingPkgError (pkgPath : string) (moduleMode : bool) : error :=
  if moduleMode then "no required module provides package " +:+ quoted pkgPath
  else "cannot find package " +:+ quoted pkgPath +:+ " in GOROOT or GOPATH".

(** The importer that [typesConfig] gives to the checker, with the
    function it calls for the dependency it has found. *)
Definition importerFunc (env : Env) (inputs : typeCheckInputs)
    (getImportPackage : PackageID → typeCheckBatch → call pkgOrErr)
    (path : string) (b : typeCheckBatch) : call pkgOrErr :=
  match depsByImpPath inputs !! path with
  | None => Some (returnErr ("missing metadata for import of " +:+ quoted path), b)
  | Some id =>
      match deps inputs !! id with
      | None => Some (returnErr (missingPkgError path (moduleMode inputs)), b)
      | Some depPH =>
          if IsValidImport env (pkgPath inputs) (PkgPath (ph_m depPH))
          then getImportPackage id b
          else Some (returnErr ("invalid use of internal package " +:+ quoted path), b)
      end
  end.

(** The calls of a callback on a list of requests, one after the other. *)
Fixpoint callEach {K} (f : K → typeCheckBatch → call pkgOrErr)
    (requests : list K) (b : typeCheckBatch) : call (list (K * pkgOrErr)) :=
  match requests with
  | [] => Some ([], b)
  | k :: rest =>
      match f k b with
      | None => None
      | Some (r, b) =>
          match callEach f rest b with
          | None => None
          | Some (rs, b) => Some ((k, r) :: rs, b)
          end
      end
  end.

(** [awaitPredecessors]: the error that [g.Wait()] returns is the first
    one. *)
Definition awaitPredecessors (env : Env)
    (getImportPackage : PackageID → typeCheckBatch → call pkgOrErr)
    (m : Metadata) (b : typeCheckBatch) : call (option error) :=
  match callEach getImportPackage (rangeValues (rt env) (DepsByPkgPath m)) b with
  | None => None
  | Some (rs, b) => Some (head (omap (λ r, err r.2) rs), b)
  end.

(** [populateDeps] in [importMap]; [None] when it indexes the metadata
    with an ID that has none. *)
Fixpoint populateDeps (fuel : nat) (env : Env) (metadata : gmap PackageID Metadata)
    (parent : Metadata) (impMap : gmap string PackageID) : option (gmap string PackageID) :=
  match fuel with
  | 0 => None
  | S fuel =>
      foldl (λ acc id,
               impMap ← acc;
               m ← metadata !! id;
               match impMap !! PkgPath m with
               | Some _ => Some impMap
               | None => populateDeps fuel env metadata m (<[PkgPath m := ID m]> impMap)
               end)
            (Some impMap) (rangeValues (rt env) (DepsByPkgPath parent))
  end.

Definition importMap (fuel : nat) (env : Env) (b : typeCheckBatch) (id : PackageID)
    : option (gmap string PackageID) :=
  m ← meta b !! id;
  populateDeps fuel env (meta b) m ∅.

(** [importPackage]: the callback [getPackage] answers for the package
    itself without a call, and for any other path calls
    [getImportPackage] with the ID that [impMap] has for it (the empty ID
    when it has none). *)
Definition importPackage (fuel : nat) (env : Env)
    (getImportPackage : PackageID → typeCheckBatch → call pkgOrErr)
    (m : Metadata) (data : string) (b : typeCheckBatch) : call pkgOrErr :=
  impMap ← importMap fuel env b (ID m);
  match ctx_Err env with
  | Some cancelled => Some (returnErr cancelled, b)
  | None =>
      let b := record b (EvImportShallow (ID m)) in
      let others := filter (λ path, path ≠ PkgPath m) (exportDataImports env data) in
      match callEach (λ path, getImportPackage (default "" (impMap !! path))) others b with
      | None => None
      | Some (rs, b) =>
          let found := (λ r : string * pkgOrErr,
                          (r.1, match err r.2 with None => pkg r.2 | Some _ => None end)) <$> rs in
          match IImportShallow env m data found with
          | Err e => Some (returnErr ("import failed for " +:+ quoted (ID m) +:+ ": " +:+ e), b)
          | Ok imported => Some (returnPkg imported, b)
          end
      end
  end.

(** [checkPackageForImport] *)
Definition checkPackageForImport (env : Env)
    (getImportPackage : PackageID → typeCheckBatch → call pkgOrErr)
    (ph : packageHandle) (b : typeCheckBatch) : call pkgOrErr :=
  let b := record b (EvParseFiles (ID (ph_m ph))) in
  match parseFiles env (compiledGoFiles (ph_inputs ph)) with
  | Err e => Some (returnErr e, b)
  | Ok pgfs =>
      match ctx_Err env with
      | Some cancelled => Some (returnErr cancelled, b)
      | None =>
          let b := record b (EvCheckFiles (ID (ph_m ph))) in
          match callEach (importerFunc env (ph_inputs ph) getImportPackage)
                         (checkerImports env ph) b with
          | None => None
          | Some (rs, b) =>
              match ctx_Err env with
              | Some cancelled => Some (returnErr cancelled, b)
              | None => Some (returnPkg (checkForImport env ph rs), b)
              end
          end
      end
  end.

(** The end of [getImportPackage], from the test for [unsafe] on. *)
Definition importFromHandle (env : Env) (fuel : nat)
    (getImportPackage : PackageID → typeCheckBatch → call pkgOrErr)
    (id : PackageID) (b : typeCheckBatch) : call pkgOrErr :=
  if decide (id = "unsafe") then Some (returnPkg Unsafe, b)
  else
    let b := record b (EvBuildHandle id) in
    match buildPackageHandle env id with
    | Err e => Some (returnErr e, b)
    | Ok ph =>
        let b := record b (EvCacheGet (ph_key ph)) in
        match filecache_Get env (ph_key ph) with
        | Ok None => checkPackageForImport env getImportPackage ph b
        | Err e =>
            Some (returnErr ("failed to read cache data for "
                             +:+ ID (ph_m ph) +:+ ": " +:+ e), b)
        | Ok (Some data) => importPackage fuel env getImportPackage (ph_m ph) data b
        end
    end.

(** The body of [getImportPackage], with the functions it calls for the
    packages it needs.  The deferred function stores the result in the
    future when the body returns. *)
Definition getImportPackageBody (env : Env) (fuel : nat)
    (getImportPackage : PackageID → typeCheckBatch → call pkgOrErr)
    (handleSyntaxPackage : nat → PackageID → typeCheckBatch → call pkgOrErr)
    (id : PackageID) (b : typeCheckBatch) : call pkgOrErr :=
  match importPackages b !! id with
  | Some f => v ← awaitFuture env id f; Some (v, b)
  | None =>
      let b := setImportPackages b (<[id := None]> (importPackages b)) in
      let returned : call pkgOrErr :=
        match syntaxIndex b !! id with
        | Some index =>
            match handleSyntaxPackage index id b with
            | None => None
            | Some (r, b) =>
                match err r, pkg r with
                | Some e, _ => Some (returnErr e, b)
                | None, Some p => Some (returnPkg p, b)
                | None, None => importFromHandle env fuel getImportPackage id b
                end
            end
        | None => importFromHandle env fuel getImportPackage id b
        end in
      match returned with
      | None => None
      | Some (v, b) => Some (v, setImportPackages b (<[id := Some v]> (importPackages b)))
      end
  end.

(** The end of [handleSyntaxPackage], once the CPU token is acquired. *)
Definition checkAndPost (env : Env) (i : nat) (id : PackageID) (ph : packageHandle)
    (b : typeCheckBatch) : call pkgOrErr :=
  let b := record b (EvCheckPackage id) in
  match checkPackage env ph (importPackages b) with
  | Err e => Some (returnErr e, b)
  | Ok syntaxPkg =>
      c ← post b i syntaxPkg (client b);
      Some (returnPkg (TypeCheck.types (p_pkg syntaxPkg)),
            record (setClient b c) (EvPost i id))
  end.

(** The body of [handleSyntaxPackage]. *)
Definition handleSyntaxPackageBody (env : Env)
    (getImportPackage : PackageID → typeCheckBatch → call pkgOrErr)
    (i : nat) (id : PackageID) (b : typeCheckBatch) : call pkgOrErr :=
  match syntaxPackages b !! id with
  | Some f => v ← f; Some (v, b)
  | None =>
      let b := setSyntaxPackages b (<[id := None]> (syntaxPackages b)) in
      let returned : call pkgOrErr :=
        let b := record b (EvBuildHandle id) in
        match buildPackageHandle env id with
        | Err e => Some (returnErr e, b)
        | Ok ph =>
            if match pre b with Some pre => negb (pre i ph) | None => false end
            then Some (returnNil, b)
            else
              match awaitPredecessors env getImportPackage (ph_m ph) b with
              | None => None
              | Some (awaitErr, b) =>
                  match awaitErr, ctx_Err env with
                  | Some _, Some cancelled => Some (returnErr cancelled, b)
                  | _, Some cancelled =>
                      if selectDone env id then Some (returnErr cancelled, b)
                      else checkAndPost env i id ph b
                  | _, None => checkAndPost env i id ph b
                  end
              end
        end in
      match returned with
      | None => None
      | Some (v, b) => Some (v, setSyntaxPackages b (<[id := Some v]> (syntaxPackages b)))
      end
  end.

(** [getImportPackage] and [handleSyntaxPackage].  [fuel] bounds the depth
    of the calls. *)
Fixpoint getImportPackage (env : Env) (fuel : nat) (id : PackageID) (b : typeCheckBatch)
    {struct fuel} : call pkgOrErr :=
  match fuel with
  | 0 => None
  | S fuel =>
      getImportPackageBody env fuel (getImportPackage env fuel)
        (handleSyntaxPackage env fuel) id b
  end
with handleSyntaxPackage (env : Env) (fuel : nat) (i : nat) (id : PackageID)
    (b : typeCheckBatch) {struct fuel} : call pkgOrErr :=
  match fuel with
  | 0 => None
  | S fuel => handleSyntaxPackageBody env (getImportPackage env fuel) i id b
  end.

(** The goroutines that [forEachPackageInternal] starts, run one after the
    other in the order they are started; the error is the first one. *)
Fixpoint goEach {K} (f : K → typeCheckBatch → call pkgOrErr)
    (requests : list K) (b : typeCheckBatch) : call (option error) :=
  match requests with
  | [] => Some (None, b)
  | k :: rest =>
      match f k b with
      | None => None
      | Some (r, b) =>
          match goEach f rest b with
          | None => None
          | Some (e, b) =>
              Some (match err r with Some e1 => Some e1 | None => e end, b)
          end
      end
  end.

Definition forEachPackageInternal (env : Env) (fuel : nat)
    (metadata : gmap PackageID Metadata) (graph : option importGraph)
    (importIDs syntaxIDs : list PackageID)
    (pre : option (nat → packageHandle → bool)) (post : nat → Package → C → option C)
    (c : C) : call (option error) :=
  let b :=
    {| syntaxIndex := foldl (λ index r, <[r.2 := r.1]> index) ∅ (imap pair syntaxIDs);
       pre := pre; post := post; meta := metadata;
       syntaxPackages := ∅;
       importPackages :=
         match graph with
         | Some g => Some <$> ig_imports g
         | None => ∅
         end;
       log := []; client := c |} in
  match goEach (getImportPackage env fuel) importIDs b with
  | None => None
  | Some (e1, b) =>
      match goEach (λ r, handleSyntaxPackage env fuel r.1 r.2) (imap pair syntaxIDs) b with
      | None => None
      | Some (e2, b) => Some (match e1 with Some e => Some e | None => e2 end, b)
      end
  end.

(** The state in which [handleSyntaxPackage] awaits the predecessors of
    the package [id]: its future is in the map, and the handle is built. *)
Definition awaiting (b : typeCheckBatch) (id : PackageID) : typeCheckBatch :=
  record (setSyntaxPackages b (<[id := None]> (syntaxPackages b))) (EvBuildHandle id).

Definition prePasses (b : typeCheckBatch) (i : nat) (ph : packageHandle) : Prop :=
  match pre b with
  | Some pre => pre i ph = true
  | None => True
  end.

(** What [typeCheckInputs] does for a package [m] one of whose
    dependencies, [depID], has no handle: with a cancelled context it
    returns the error of the context; with a live context it returns, an
    error it returns is an error of reading a file, and inputs it returns
    have no handle for [depID], so that the importer of the checker
    answers every import path that resolves to [depID] with the error for
    a missing package. *)
Definition inputsWithoutFailedDep (senv : HandleStore.Env) (env : Env)
    (build : PackageID → HandleStore.snapshot
             → option (result packageHandle * HandleStore.snapshot))
    (m : Metadata) (s : HandleStore.snapshot) (depID : PackageID) : Prop :=
  match HandleStore.ctx_Err senv with
  | Some cancelled =>
      ∃ s', HandleStore.typeCheckInputs senv build m s = Some (Err cancelled, s')
  | None =>
      ∃ r s', HandleStore.typeCheckInputs senv build m s = Some (r, s')
        ∧ (∀ e, r = Err e →
             HandleStore.readFiles (HandleStore.ReadFile senv) (GoFiles m) = Err e
             ∨ HandleStore.readFiles (HandleStore.ReadFile senv) (CompiledGoFiles m) = Err e)
        ∧ (∀ inputs, r = Ok inputs →
             deps inputs !! depID = None
             ∧ ∀ path get (b : typeCheckBatch),
                 depsByImpPath inputs !! path = Some depID →
                 importerFunc env inputs get path b
                 = Some (returnErr (missingPkgError path (moduleMode inputs)), b))
  end.

(** What [handleSyntaxPackage] does for a package [id] with handle [ph]
    when awaiting its predecessors has left the batch in state [b1] and
    has returned an error: with a cancelled context it returns the error
    of the context; with a live context it goes on to check the package,
    and if the check and [post] succeed it returns the types of the
    package. *)
Definition checkedDespiteFailedDep (env : Env) (fuel : nat) (b b1 : typeCheckBatch)
    (i : nat) (id : PackageID) (ph : packageHandle) : Prop :=
  match ctx_Err env with
  | Some cancelled =>
      ∃ b', handleSyntaxPackage env (S fuel) i id b = Some (returnErr cancelled, b')
  | None =>
      ∀ syntaxPkg c,
        checkPackage env ph (importPackages b1) = Ok syntaxPkg →
        post b1 i syntaxPkg (client b1) = Some c →
        ∃ b', handleSyntaxPackage env (S fuel) i id b
              = Some (returnPkg (TypeCheck.types (p_pkg syntaxPkg)), b')
          ∧ client b' = c
          ∧ syntaxPackages b' !! id
            = Some (Some (returnPkg (TypeCheck.types (p_pkg syntaxPkg))))
  end.

(** *** Slots filled by [post]

    [before c c'] says that the client state [c'] comes after [c], and
    [Filled c i] that the slot of the request [i] is filled in [c]. *)
Record PostFills (before : C → C → Prop) (Filled : C → nat → Prop)
    (post : nat → Package → C → option C) : Prop := {
  before_refl : ∀ c, before c c;
  before_trans : ∀ c1 c2 c3, before c1 c2 → before c2 c3 → before c1 c3;
  post_before : ∀ i pkg c c', post i pkg c = Some c' → before c c';
  post_fills : ∀ i pkg c c', post i pkg c = Some c' → Filled c' i;
  filled_before : ∀ i c c', before c c' → Filled c i → Filled c' i
}.

(** The batch has no [pre] function, and its [post] fills slots. *)
Definition Ready (before : C → C → Prop) (Filled : C → nat → Prop)
    (b : typeCheckBatch) : Prop :=
  pre b = None ∧ PostFills before Filled (post b).

(** Every syntax future completed without error belongs to a request
    whose slot is filled. *)
Definition Posted (Filled : C → nat → Prop) (b : typeCheckBatch) : Prop :=
  ∀ id v, syntaxPackages b !! id = Some (Some v) → err v = None →
    ∃ i, syntaxIndex b !! id = Some i ∧ Filled (client b) i.

(** [b'] is a later state of the batch [b]. *)
Definition Later (before : C → C → Prop) (Filled : C → nat → Prop)
    (b b' : typeCheckBatch) : Prop :=
  syntaxIndex b' = syntaxIndex b ∧ pre b' = pre b ∧ post b' = post b
  ∧ before (client b) (client b')
  ∧ (Posted Filled b → Posted Filled b').

(** A callback keeps the batch going: from a ready batch it leads to a
    later state. *)
Definition Keeps (before : C → C → Prop) (Filled : C → nat → Prop) {K}
    (f : K → typeCheckBatch → call pkgOrErr) : Prop :=
  ∀ k b r b', Ready before Filled b → f k b = Some (r, b') → Later before Filled b b'.

(** What a call of [handleSyntaxPackage] for the request [i] achieves: a
    later state and, when it returns no error, a future of the package
    that completed without error. *)
Definition Completes (before : C → C → Prop) (Filled : C → nat → Prop)
    (handle : nat → PackageID → typeCheckBatch → call pkgOrErr) : Prop :=
  ∀ i id b r b', Ready before Filled b → syntaxIndex b !! id = Some i →
    handle i id b = Some (r, b') →
    Later before Filled b b'
    ∧ (err r = None → ∃ v, syntaxPackages b' !! id = Some (Some v) ∧ err v = None).

End Client.
Arguments typeCheckBatch : clear implicits.

(** [TypeCheck].  The active packages of the snapshot are a state of type
    [A] with the two methods [getActivePackage] and
    [memoizeActivePackage], which are declared outside the files modelled
    here; [importGraphOf] is what [getImportGraph] returns. *)
Record Snapshot (A : Type) := {
  getActivePackage : A → PackageID → option Package;
  memoizeActivePackage : PackageID → Package → A → option Package * A;
  s_meta : gmap PackageID Metadata;
  importGraphOf : option importGraph
}.
Arguments getActivePackage {A} _ _ _.
Arguments memoizeActivePackage {A} _ _ _ _.
Arguments s_meta {A} _.
Arguments importGraphOf {A} _.

(** The first loop of [TypeCheck]: the slice [pkgs] with the active
    packages in place, [needIDs] and [indexes]. *)
Fixpoint activePackages {A} (s : Snapshot A) (active : A) (i : nat) (ids : list PackageID)
    : list (option Package) * list PackageID * list nat :=
  match ids with
  | [] => ([], [], [])
  | id :: rest =>
      let '(pkgs, needIDs, indexes) := activePackages s active (S i) rest in
      match getActivePackage s active id with
      | Some pkg => (Some pkg :: pkgs, needIDs, indexes)
      | None => (None :: pkgs, id :: needIDs, i :: indexes)
      end
  end.

(** The closure [post] of [TypeCheck]; [None] when [indexes[i]] is out of
    range. *)
Definition postTypeCheck {A} (s : Snapshot A) (indexes : list nat) (i : nat) (pkg : Package)
    (c : list (option Package) * A) : option (list (option Package) * A) :=
  let '(alt, active) := memoizeActivePackage s (ID (p_m pkg)) pkg c.2 in
  let pkg :=
    match alt with
    | Some alt => if decide (p_ptr alt ≠ p_ptr pkg) then alt else pkg
    | None => pkg
    end in
  index ← indexes !! i;
  if decide (index < length c.1) then Some (<[index := Some pkg]> c.1, active) else None.

(** [forEachPackage] *)
Definition forEachPackage {A C} (env : Env) (fuel : nat) (s : Snapshot A)
    (ids : list PackageID) (pre : option (nat → packageHandle → bool))
    (post : nat → Package → C → option C) (c : C) : option (option error * C) :=
  match ids with
  | [] => Some (None, c)
  | _ =>
      match forEachPackageInternal env fuel (s_meta s) (importGraphOf s) [] ids pre post c with
      | None => None
      | Some (e, b) => Some (e, client b)
      end
  end.

Definition TypeCheck {A} (env : Env) (fuel : nat) (s : Snapshot A) (active : A)
    (ids : list PackageID) : option (list (option Package) * option error * A) :=
  let '(pkgs, needIDs, indexes) := activePackages s active 0 ids in
  match forEachPackage env fuel s needIDs None (postTypeCheck s indexes) (pkgs, active) with
  | None => None
  | Some (e, (pkgs, active)) => Some (pkgs, e, active)
  end.

(** The entry [pos] of the slice is a package. *)
Definition slotFilled (pkgs : list (option Package)) (pos : nat) : Prop :=
  ∃ pkg, pkgs !! pos = Some (Some pkg).

(** [TypeCheck]'s slice keeps its length and its packages. *)
Definition sliceBefore {A} (c c' : list (option Package) * A) : Prop :=
  length c'.1 = length c.1 ∧ ∀ pos, slotFilled c.1 pos → slotFilled c'.1 pos.

(** The entry of the request [j], which is [indexes[j]], is a package. *)
Definition requestFilled {A} (indexes : list nat) (c : list (option Package) * A)
    (j : nat) : Prop :=
  ∃ pos, indexes !! j = Some pos ∧ slotFilled c.1 pos.

(** *** A small workspace to run the batch on

    The packages [a], [b] and [c] of [ImportGraph.abcGraph], and a package
    [p] that imports a package [gone] for which there is no metadata.  The
    export-data cache is empty, every file parses, the checker reports no
    error, and every package that is checked becomes an active package. *)
Definition workspace : gmap PackageID Metadata :=
  <[ "p" := ImportGraph.packageMeta 4 "p" ["gone"] ]>
    (<[ "unsafe" := ImportGraph.packageMeta 5 "unsafe" [] ]>
       (ImportGraph.metadata ImportGraph.abcGraph)).

Definition workspaceStore (cancelled : option error) : HandleStore.Env :=
  {| HandleStore.ctx_Err := cancelled;
     HandleStore.ReadFile := λ uri,
       Ok {| fh_URI := uri; fh_Hash := "hash of " +:+ uri; fh_Content := "" |};
     HandleStore.RelatedInformationSupported := true;
     HandleStore.LinkTarget := "pkg.go.dev";
     HandleStore.s_moduleMode := true;
     HandleStore.keyEnv := KeyHasher.plainEnv;
     HandleStore.rt := fixedRuntime |}.

Definition workspaceStart : HandleStore.snapshot :=
  {| HandleStore.metadata := workspace; HandleStore.packages := ∅;
     HandleStore.nextPtr := 100 |}.

(** The handle that [buildPackageHandle] returns in a snapshot of the
    workspace that holds no handle yet. *)
Definition workspaceHandle (cancelled : option error) (id : PackageID)
    : result packageHandle :=
  match HandleStore.buildPackageHandle (workspaceStore cancelled) 5 id workspaceStart with
  | Some (r, _) => r
  | None => Err ("no handle for " +:+ id)
  end.

Definition checkedPackage (ph : packageHandle) : Package :=
  {| p_ptr := ph_ptr ph; p_m := ph_m ph;
     p_pkg :=
       {| TypeCheck.pkg_id := ID (ph_m ph);
          TypeCheck.types :=
            if decide (PkgPath (ph_m ph) = "unsafe") then Unsafe
            else TypeCheck.NewPackage (PkgPath (ph_m ph)) (Name (ph_m ph));
          TypeCheck.goFiles := []; TypeCheck.compiledGoFiles := [];
          TypeCheck.parseErrors := []; TypeCheck.typeErrors := [];
          TypeCheck.diagnostics := []; TypeCheck.hasFixedFiles := false |} |}.

Definition workspaceEnv (cancelled : option error) : Env :=
  {| ctx_Err := cancelled;
     selectDone := λ _, true;
     buildPackageHandle := workspaceHandle cancelled;
     filecache_Get := λ _, Ok None;
     parseFiles := λ fhs,
       Ok ((λ fh, {| pgf_URI := fh_URI fh; pgf_Src := fh_Content fh;
                     pgf_Fixed := false; pgf_ParseErr := None |}) <$> fhs);
     checkPackage := λ ph _, Ok (checkedPackage ph);
     checkerImports := λ ph, elements (dom (depsByImpPath (ph_inputs ph)));
     checkForImport := λ ph _,
       TypeCheck.NewPackage (PkgPath (ph_m ph)) (Name (ph_m ph));
     exportDataImports := λ _, [];
     IImportShallow := λ m _ _, Ok (TypeCheck.NewPackage (PkgPath m) (Name m));
     IsValidImport := λ _ _, true;
     rt := fixedRuntime |}.

Definition workspaceSnapshot : Snapshot (gmap PackageID Package) :=
  {| getActivePackage := λ active id, active !! id;
     memoizeActivePackage := λ id pkg active,
       match active !! id with
       | Some alt => (Some alt, active)
       | None => (Some pkg, <[id := pkg]> active)
       end;
     s_meta := workspace;
     importGraphOf := None |}.

Definition packageOf (id : PackageID) : option Package :=
  match workspaceHandle None id with
  | Ok ph => Some (checkedPackage ph)
  | Err _ => None
  end.

(** The height of a package in the workspace. *)
Definition workspaceRank (id : PackageID) : nat :=
  if decide (id = "a") then 2
  else if decide (id = "b") then 1
  else if decide (id = "p") then 1
  else 0.

(** The handle of [p]. *)
Definition pHandle : packageHandle :=
  match workspaceHandle None "p" with
  | Ok ph => ph
  | Err _ => KeyHasher.leafHandle 0 "p" ""
  end.

(** Inputs of a type check of the package [unsafe]. *)
Definition unsafeInputs : typeCheckInputs :=
  {| id := "unsafe"; pkgPath := "unsafe"; name := "unsafe";
     goFiles := []; compiledGoFiles := [];
     sizes := {| WordSize := 8; MaxAlign := 8 |};
     deps := ∅; depsByImpPath := ∅; goVersion := "";
     relatedInformation := true; linkTarget := ""; moduleMode := true |}.

(** A batch that has been asked for the syntax of the packages in
    [syntaxIDs] and has done nothing yet. *)
Definition freshBatch (syntaxIDs : list PackageID) : typeCheckBatch (list (option Package)) :=
  {| syntaxIndex := foldl (λ index r, <[r.2 := r.1]> index) ∅ (imap pair syntaxIDs);
     pre := None;
     post := λ i pkg pkgs, Some (<[i := Some pkg]> pkgs);
     meta := workspace;
     syntaxPackages := ∅; importPackages := ∅;
     log := []; client := replicate (length syntaxIDs) None |}.

(** The batch asked for [p], after it has awaited the one dependency of
    [p], which has no metadata. *)
Definition awaitedGone : typeCheckBatch (list (option Package)) :=
  setImportPackages
    (record (record (setSyntaxPackages (freshBatch ["p"]) {[ "p" := None ]})
               (EvBuildHandle "p"))
            (EvBuildHandle "gone"))
    {[ "gone" := Some (returnErr "no metadata for gone") ]}.

(** The handle of [a] in the workspace, and the snapshot in which it was
    built and stored. *)
Definition aHandle : packageHandle :=
  match workspaceHandle None "a" with
  | Ok ph => ph
  | Err _ => KeyHasher.leafHandle 0 "a" ""
  end.

Definition workspaceWithA : HandleStore.snapshot :=
  match HandleStore.buildPackageHandle (workspaceStore None) 5 "a" workspaceStart with
  | Some (_, s) => s
  | None => workspaceStart
  end.

(** *** What a batch does in the course of a call *)

Section Progress.
Context {C : Type}.

(** The packages for which [post] was called, in the order of the calls. *)
Definition posted (evs : list Event) : list PackageID :=
  omap (λ ev, match ev with EvPost _ id => Some id | _ => None end) evs.

(** A result other than [(nil, nil)]. *)
Definition evaluated (v : pkgOrErr) : Prop := pkg v ≠ None ∨ err v ≠ None.

(** Every import future that is completed holds a package or an error. *)
Definition ImportsEvaluated (b : typeCheckBatch C) : Prop :=
  ∀ id v, importPackages b !! id = Some (Some v) → evaluated v.

(** Every entry of [syntaxIndex] is an index at which the package was
    requested; [Valid i id] says that [id] is requested at index [i]. *)
Definition IndexValid (Valid : nat → PackageID → Prop) (b : typeCheckBatch C) : Prop :=
  ∀ id i, syntaxIndex b !! id = Some i → Valid i id.

(** A map of futures [m'] that comes after [m]: every future of [m] is in
    [m'] as it was, completed or not, and a future that is new in [m'] is
    completed, with a value of which [P] holds. *)
Definition futuresGrow (P : pkgOrErr → Prop) (m m' : gmap PackageID (option pkgOrErr))
    : Prop :=
  (∀ id f, m !! id = Some f → m' !! id = Some f)
  ∧ (∀ id, m !! id = None → m' !! id = None ∨ ∃ v, m' !! id = Some (Some v) ∧ P v).

(** [b'] is a state that the batch gets to from [b] by calls that have
    returned: the futures of both maps grow, and the calls of [post]
    made in between are for packages that had no syntax future in [b]
    and have a completed one in [b'], one call for each of them, with a
    valid index. *)
Definition Progress (Valid : nat → PackageID → Prop) (b b' : typeCheckBatch C) : Prop :=
  syntaxIndex b' = syntaxIndex b ∧ pre b' = pre b ∧ post b' = post b ∧ meta b' = meta b
  ∧ futuresGrow evaluated (importPackages b) (importPackages b')
  ∧ futuresGrow (λ _, True) (syntaxPackages b) (syntaxPackages b')
  ∧ ∃ evs, log b' = log b ++ evs
      ∧ NoDup (posted evs)
      ∧ (∀ id, id ∈ posted evs →
           syntaxPackages b !! id = None ∧ ∃ v, syntaxPackages b' !! id = Some (Some v))
      ∧ (∀ i id, EvPost i id ∈ evs → Valid i id).

(** A function that the batch calls for an import: from a batch with a
    valid index it leads to a later state, and it returns a package or an
    error if the completed import futures hold one. *)
Definition Imports (Valid : nat → PackageID → Prop)
    (get : PackageID → typeCheckBatch C → option (pkgOrErr * typeCheckBatch C)) : Prop :=
  ∀ id b r b', IndexValid Valid b → get id b = Some (r, b') →
    Progress Valid b b' ∧ (ImportsEvaluated b → evaluated r).

(** A function that the batch calls for a requested package. *)
Definition Checks (Valid : nat → PackageID → Prop)
    (handle : nat → PackageID → typeCheckBatch C → option (pkgOrErr * typeCheckBatch C))
    : Prop :=
  ∀ i id b r b', IndexValid Valid b → Valid i id → handle i id b = Some (r, b') →
    Progress Valid b b'.

End Progress.

(** The package [x] imports the package [y] directly, by the metadata. *)
Definition importsDirectly (metadata : gmap PackageID Metadata) (x y : PackageID) : Prop :=
  ∃ m path, metadata !! x = Some m ∧ DepsByPkgPath m !! path = Some y.

(** Every entry of an import map for the package [root] is the package
    path and the ID of the metadata of a package that [root] imports,
    directly or not. *)
Definition importMapSound (metadata : gmap PackageID Metadata) (root : PackageID)
    (impMap : gmap string PackageID) : Prop :=
  ∀ path dep, impMap !! path = Some dep →
    ∃ depID m, metadata !! depID = Some m ∧ PkgPath m = path ∧ ID m = dep
               ∧ tc (importsDirectly metadata) root depID.

(** The active packages of the workspace after [a] was checked. *)
Definition activeA : gmap PackageID Package := {[ "a" := checkedPackage aHandle ]}.

End Batch.

(** ** [resolveImportGraph]: reusing or rebuilding the shared import graph *)

Module SharedImportGraph.
Import Handles Batch.

(** [for k, v := range m] *)
Definition rangePairs {V} (rt : Runtime) (m : gmap string V) : list (string * V) :=
  omap (λ k, (λ v, (k, v)) <$> m !! k) (rangeKeys rt m).

(** [lastImportGraph.deps[id]] compared with [key]; the graph is not nil
    where the source evaluates this. *)
Definition sameKey (lastImportGraph : option importGraph) (r : PackageID * Hash) : bool :=
  match lastImportGraph with
  | Some last =>
      match ig_deps last !! r.1 with
      | Some prevKey => bool_decide (prevKey = r.2)
      | None => false
      end
  | None => false
  end.

(** The loop over [deps] that lists its IDs and finds out whether the
    last import graph has the same dependencies; the result is
    [unchanged] and [ids]. *)
Definition compareDeps (rt : Runtime) (deps : gmap PackageID Hash)
    (lastImportGraph : option importGraph) : bool * list PackageID :=
  let unchanged :=
    match lastImportGraph with
    | Some last => bool_decide (size deps = size (ig_deps last))
    | None => false
    end in
  foldl (λ (st : bool * list PackageID) (r : PackageID * Hash),
           (if st.1 then sameKey lastImportGraph r else false, st.2 ++ [r.1]))
        (unchanged, []) (rangePairs rt deps).

(** One turn of the loop that copies the values of the import futures of
    the batch into the new graph.  The value of a future that is not
    completed is the zero value; [None] is the panic for an import that
    is not evaluated. *)
Definition copyImport (acc : option (gmap PackageID pkgOrErr))
    (r : PackageID * option pkgOrErr) : option (gmap PackageID pkgOrErr) :=
  imports ← acc;
  let v := default returnNil r.2 in
  match pkg v, err v with
  | None, None => None
  | _, _ => Some (<[r.1 := v]> imports)
  end.

Definition collectImports (rt : Runtime) (futures : gmap PackageID (option pkgOrErr))
    : option (gmap PackageID pkgOrErr) :=
  foldl copyImport (Some ∅) (rangePairs rt futures).

(** [resolveImportGraph].  [s] is the part of the snapshot that the
    computation of [deps] reads, [env] holds the collaborators of the
    batch that imports the packages of [deps]; the batch is given no
    [pre] and a nil [post], which cannot be called. *)
Definition resolveImportGraph (env : Env) (fuel : nat) (s : ImportGraph.Snapshot)
    (lastImportGraph : option importGraph) : option (result importGraph) :=
  match ImportGraph.importGraphDeps (rt env) fuel s with
  | None => None
  | Some (Err err) => Some (Err err)
  | Some (Ok deps) =>
      let '(unchanged, ids) := compareDeps (rt env) deps lastImportGraph in
      if unchanged then Ok <$> lastImportGraph
      else
        match forEachPackageInternal env fuel
                (ImportGraph.metadata (ImportGraph.meta s)) None ids [] None
                (λ _ _ (_ : unit), None) tt with
        | None => None
        | Some (Some err, b) => Some (Err err)
        | Some (None, b) =>
            imports ← collectImports (rt env) (importPackages b);
            Some (Ok {| ig_deps := deps; ig_imports := imports |})
        end
  end.

(** The workspace with the file of [a] open. *)
Definition workspaceOpen : ImportGraph.Snapshot :=
  {| ImportGraph.awaitLoaded := None;
     ImportGraph.meta :=
       {| ImportGraph.metadata := workspace;
          ImportGraph.ids := ImportGraph.ids ImportGraph.abcGraph |};
     ImportGraph.overlays := ["file:///a.go"];
     ImportGraph.buildPackageHandle := workspaceHandle None;
     ImportGraph.ctx_Err := None |}.

(** An import graph with the one dependency [c]. *)
Definition graphOfC : importGraph :=
  {| ig_deps := {[ "c" := "key of c" ]};
     ig_imports := {[ "c" := returnPkg (TypeCheck.NewPackage "c" "c") ]} |}.

End SharedImportGraph.

(** ** [source.Analyze] and [source.FileDiagnostics]: the diagnostics of a file *)

Module SourceDiagnostics.
Import Handles.

Abbreviation Diagnostic := TypeCheck.Diagnostic (only parsing).
Abbreviation d_URI := TypeCheck.d_URI (only parsing).

(** The collaborators of [Analyze] and [FileDiagnostics]: the context,
    the three maps of analyzers of the options (an analyzer is known by
    its name), the methods of the snapshot, and the order of map
    iteration. *)
Record Env := {
  ctx_Err : option error;
  DefaultAnalyzers : gmap string string;
  StaticcheckAnalyzers : gmap string string;
  ConvenienceAnalyzers : gmap string string;
  snapshot_Analyze : PackageID → list string → result (list Diagnostic);
  GetVersionedFile : URI → result FileHandle;
  GetTypedFile : FileHandle → result PackageID;
  DiagnosePackage : PackageID → result (gmap URI (list Diagnostic));
  rt : Runtime
}.

(** [reports[diag.URI] = append(reports[diag.URI], diag)] *)
Definition report (reports : gmap URI (list Diagnostic)) (diag : Diagnostic)
    : gmap URI (list Diagnostic) :=
  <[d_URI diag := default [] (reports !! d_URI diag) ++ [diag]]> reports.

(** The analyzers that [Analyze] collects from the categories. *)
Definition analyzersOf (env : Env) (includeConvenience : bool) : list string :=
  let categories :=
    [DefaultAnalyzers env; StaticcheckAnalyzers env]
    ++ (if includeConvenience then [ConvenienceAnalyzers env] else []) in
  foldl (λ analyzers cat, analyzers ++ rangeValues (rt env) cat) [] categories.

Definition Analyze (env : Env) (pkgID : PackageID) (includeConvenience : bool)
    : result (gmap URI (list Diagnostic)) :=
  match ctx_Err env with
  | Some cancelled => Err cancelled
  | None =>
      match snapshot_Analyze env pkgID (analyzersOf env includeConvenience) with
      | Err err => Err err
      | Ok analysisDiagnostics => Ok (foldl report ∅ analysisDiagnostics)
      end
  end.

(** [FileDiagnostics]; the result is the identity of the file and its
    diagnostics.  Indexing a map of slices with an absent key gives nil. *)
Definition FileDiagnostics (env : Env) (uri : URI) : result (FileIdentity * list Diagnostic) :=
  match GetVersionedFile env uri with
  | Err err => Err err
  | Ok fh =>
      match GetTypedFile env fh with
      | Err err => Err err
      | Ok pkgID =>
          match DiagnosePackage env pkgID with
          | Err err => Err err
          | Ok diagnostics =>
              match Analyze env pkgID false with
              | Err err => Err err
              | Ok analysisDiags =>
                  Ok (fileIdentity fh,
                      default [] (diagnostics !! fh_URI fh)
                      ++ default [] (analysisDiags !! fh_URI fh))
              end
          end
      end
  end.

End SourceDiagnostics.

(** ** [parseLinkname]: the package path and name of a linkname directive *)

Module Linkname.

(** A comment of a file: the offset of its position and its text. *)
Record Comment := {
  c_Offset : Z;
  c_Text : string
}.







(** The collaborators of [parseLinkname]: the comments of the parsed file
    ([None] when parsing fails), the offset of the position ([None] when
    it cannot be computed), and [strings.Fields]. *)
Record Env := {
  ParseGo : option (list (list Comment));
  PositionOffset : option Z;
  Fields : string → list string
}.


(** A file with the one comment [//go:linkname f pkg/path.g] at offset
    10, a position at offset 30, and [strings.Fields] for this
    directive. *)
Definition sampleEnv : Env :=
  {| ParseGo := Some [[ {| c_Offset := 10; c_Text := "//go:linkname f pkg/path.g" |} ]];
     PositionOffset := Some 30%Z;
     Fields := λ _, ["//go:linkname"; "f"; "pkg/path.g"] |}.

End Linkname.

(** ** The orderings of the persistent maps of the cache *)

Module PersistentMaps.
Import Handles.

(** [a < b] on strings: the bytes are compared one by one. *)
Definition stringLess (a b : string) : bool := String.ltb a b.

(** [packageKey]; [source.ParseMode] is an [int]. *)
Record packageKey := {
  pk_mode : Z;
  pk_id : PackageID
}.

(** The ordering that [newPackagesMap] gives to its map. *)
Definition packageKeyLess (left right : packageKey) : bool :=
  if decide (pk_mode left ≠ pk_mode right) then bool_decide (pk_mode left < pk_mode right)%Z
  else stringLess (pk_id left) (pk_id right).

(** [parseKey] *)
Record parseKey := {
  key_file : FileIdentity;
  key_mode : Z
}.

(** [parseKeyLess], with the method [Hash.Less], which is declared
    outside the files modelled here. *)
Definition parseKeyLess (Hash_Less : Hash → Hash → bool) (a b : parseKey) : bool :=
  if decide (key_mode a ≠ key_mode b) then bool_decide (key_mode a < key_mode b)%Z
  else if decide (fi_Hash (key_file a) ≠ fi_Hash (key_file b))
       then Hash_Less (fi_Hash (key_file a)) (fi_Hash (key_file b))
       else stringLess (fi_URI (key_file a)) (fi_URI (key_file b)).

(** A strict total order: nothing is less than itself, the ordering is
    transitive, and of two different values one is less than the
    other. *)
Definition StrictTotal {A} (less : A → A → bool) : Prop :=
  (∀ a, less a a = false)
  ∧ (∀ a b c, less a b = true → less b c = true → less a c = true)
  ∧ (∀ a b, a = b ∨ less a b = true ∨ less b a = true).

End PersistentMaps.

(** ** [depsErrors]: diagnostics for the errors of the dependencies *)

Module DepsErrors.
Import Handles.

(** [packagesinternal.PackageError] *)
Record PackageError := {
  ImportStack : list string;
  pe_Pos : string;
  pe_Err : string
}.

(** [ast.ImportSpec]: the literal of the import path, if there is one,
    and the position of the declaration. *)
Record ImportSpec := {
  imp_Path : option string;
  imp_Pos : Z
}.

(** [protocol.Range] *)
Record Range := {
  rng_Start : Z;
  rng_End : Z
}.

(** [source.SuggestedFix], known by its title. *)
Abbreviation SuggestedFix := string (only parsing).

(** [source.Diagnostic], with the fields that [depsErrors] sets. *)
Record Diagnostic := {
  d_URI : URI;
  d_Range : Range;
  d_Severity : Z;
  d_Source : string;
  d_Message : string;
  d_SuggestedFixes : list SuggestedFix
}.

(** [protocol.SeverityError] and [source.TypeError] *)
Definition SeverityError : Z := 1.
Definition TypeError : string := "compiler".

(** [source.ParsedModule]: the URI of the go.mod file and its content. *)
Record ParsedModule := {
  pm_URI : URI;
  pm_File : string
}.

(** [module.Version] *)
Record Version := {
  v_Path : string;
  v_Version : string
}.

(** The [modfile.Line] that [findModuleReference] finds: the offsets of
    its start and of its end. *)
Record Reference := {
  ref_Start : Z;
  ref_End : Z
}.

(** The functions that [depsErrors] calls, each with the context and the
    file source it is given. *)
Record Env := {
  parseGoURI : URI → result ParsedGoFile;
  Imports : ParsedGoFile → list (list ImportSpec);
  NodeRange : ParsedGoFile → ImportSpec → result Range;
  goGetQuickFixes : bool → URI → string → result (list SuggestedFix);
  nearestModFile : URI → result URI;
  parseModURI : URI → result ParsedModule;
  findModuleReference : ParsedModule → Version → option Reference;
  OffsetRange : ParsedModule → Z → Z → result Range
}.

(** [strings.Trim(s, cutset)] for a cutset of one character. *)
Fixpoint trimLeft (c : Ascii.ascii) (s : string) : string :=
  match s with
  | String x rest => if decide (x = c) then trimLeft c rest else s
  | EmptyString => EmptyString
  end.

Definition trim (c : Ascii.ascii) (s : string) : string :=
  String.rev (trimLeft c (String.rev (trimLeft c s))).

Definition quote : Ascii.ascii := Ascii.ascii_of_nat 34.

(** The first loop keeps an error if its import stack is not empty and
    the direct importer, the last package of the stack, is no workspace
    package. *)
Definition relevant (workspacePackages : gmap PackageID PackagePath)
    (depsError : PackageError) : bool :=
  match last (ImportStack depsError) with
  | None => false
  | Some directImporter => bool_decide (workspacePackages !! directImporter = None)
  end.

(** [fileImport] *)
Record fileImport := {
  cgf : ParsedGoFile;
  imp : ImportSpec
}.

(** [allImports[path] = append(allImports[path], fileImport{pgf, imp})] *)
Definition indexImport (pgf : ParsedGoFile) (allImports : gmap string (list fileImport))
    (i : ImportSpec) : gmap string (list fileImport) :=
  match imp_Path i with
  | None => allImports
  | Some value =>
      let path := trim quote value in
      <[path := default [] (allImports !! path) ++ [{| cgf := pgf; imp := i |}]]> allImports
  end.

(** The loop over [m.CompiledGoFiles] that builds the index of the
    imports. *)
Fixpoint indexImports (env : Env) (uris : list URI)
    (allImports : gmap string (list fileImport)) : result (gmap string (list fileImport)) :=
  match uris with
  | [] => Ok allImports
  | uri :: rest =>
      match parseGoURI env uri with
      | Err err => Err err
      | Ok pgf =>
          indexImports env rest
            (foldl (λ acc group, foldl (indexImport pgf) acc group) allImports
               (Imports env pgf))
      end
  end.

Definition message (item : string) (depErr : PackageError) : string :=
  "error while importing " +:+ item +:+ ": " +:+ pe_Err depErr.

(** The loop over [allImports[item]]. *)
Fixpoint importDiagnostics (env : Env) (moduleMode : bool) (item : string)
    (depErr : PackageError) (imps : list fileImport) (errors : list Diagnostic)
    : result (list Diagnostic) :=
  match imps with
  | [] => Ok errors
  | i :: rest =>
      match NodeRange env (cgf i) (imp i) with
      | Err err => Err err
      | Ok rng =>
          match goGetQuickFixes env moduleMode (pgf_URI (cgf i)) item with
          | Err err => Err err
          | Ok fixes =>
              importDiagnostics env moduleMode item depErr rest
                (errors ++ [{| d_URI := pgf_URI (cgf i);
                               d_Range := rng;
                               d_Severity := SeverityError;
                               d_Source := TypeError;
                               d_Message := message item depErr;
                               d_SuggestedFixes := fixes |}])
          end
      end
  end.

(** [for i := len(depErr.ImportStack) - 1; i >= 0; i--] of the second
    pass; [items] is what is left of the stack, from its end. *)
Fixpoint stackDiagnostics (env : Env) (workspacePackages : gmap PackageID PackagePath)
    (allImports : gmap string (list fileImport)) (moduleMode : bool)
    (depErr : PackageError) (items : list string) (errors : list Diagnostic)
    : result (list Diagnostic) :=
  match items with
  | [] => Ok errors
  | item :: rest =>
      match workspacePackages !! item with
      | Some _ => Ok errors
      | None =>
          match importDiagnostics env moduleMode item depErr
                  (default [] (allImports !! item)) errors with
          | Err err => Err err
          | Ok errors =>
              stackDiagnostics env workspacePackages allImports moduleMode depErr rest errors
          end
      end
  end.

(** The same loop of the third pass: it stops at the first package whose
    module is referred to in the go.mod file. *)
Fixpoint moduleDiagnostic (env : Env) (meta : gmap PackageID Metadata) (pm : ParsedModule)
    (depErr : PackageError) (items : list string) (errors : list Diagnostic)
    : result (list Diagnostic) :=
  match items with
  | [] => Ok errors
  | item :: rest =>
      match meta !! item ≫= Module with
      | None => moduleDiagnostic env meta pm depErr rest errors
      | Some module =>
          let modVer := {| v_Path := mod_Path module; v_Version := mod_Version module |} in
          match findModuleReference env pm modVer with
          | None => moduleDiagnostic env meta pm depErr rest errors
          | Some reference =>
              match OffsetRange env pm (ref_Start reference) (ref_End reference) with
              | Err err => Err err
              | Ok rng =>
                  match goGetQuickFixes env true (pm_URI pm) item with
                  | Err err => Err err
                  | Ok fixes =>
                      Ok (errors ++ [{| d_URI := pm_URI pm;
                                        d_Range := rng;
                                        d_Severity := SeverityError;
                                        d_Source := TypeError;
                                        d_Message := message item depErr;
                                        d_SuggestedFixes := fixes |}])
                  end
              end
          end
      end
  end.

(** [for _, depErr := range relevantErrors] with a body that may
    return an error. *)
Fixpoint forEachError (body : PackageError → list Diagnostic → result (list Diagnostic))
    (relevantErrors : list PackageError) (errors : list Diagnostic)
    : result (list Diagnostic) :=
  match relevantErrors with
  | [] => Ok errors
  | depErr :: rest =>
      match body depErr errors with
      | Err err => Err err
      | Ok errors => forEachError body rest errors
      end
  end.

(** [depsErrors].  [DepsErrors] is the field [m.DepsErrors], which the
    record [Metadata] does not hold; [meta] is [meta.metadata]. *)
Definition depsErrors (env : Env) (m : Metadata) (DepsErrors : list PackageError)
    (meta : gmap PackageID Metadata) (workspacePackages : gmap PackageID PackagePath)
    : result (list Diagnostic) :=
  let relevantErrors := filter (λ depsError, relevant workspacePackages depsError = true) DepsErrors in
  match relevantErrors, CompiledGoFiles m with
  | [], _ => Ok []
  | _, [] => Ok []
  | _, first :: _ =>
      match indexImports env (CompiledGoFiles m) ∅ with
      | Err err => Err err
      | Ok allImports =>
          match forEachError
                  (λ depErr,
                     stackDiagnostics env workspacePackages allImports
                       (bool_decide (is_Some (Module m))) depErr
                       (reverse (ImportStack depErr)))
                  relevantErrors [] with
          | Err err => Err err
          | Ok errors =>
              match nearestModFile env first with
              | Err err => Err err
              | Ok modFile =>
                  match parseModURI env modFile with
                  | Err err => Err err
                  | Ok pm =>
                      forEachError
                        (λ depErr,
                           moduleDiagnostic env meta pm depErr (reverse (ImportStack depErr)))
                        relevantErrors errors
                  end
              end
          end
      end
  end.

(** What a diagnostic on an import declaration says: the declaration
    [i] of the compiled file [uri] imports [item], and no package from
    [item] to the end of the import stack of [depErr] is a workspace
    package. *)
Definition OnImport (env : Env) (m : Metadata)
    (workspacePackages : gmap PackageID PackagePath)
    (depErr : PackageError) (item : string) (d : Diagnostic) : Prop :=
  (∃ before after,
     ImportStack depErr = before ++ item :: after
     ∧ Forall (λ p, workspacePackages !! p = None) (item :: after))
  ∧ ∃ uri pgf group i value,
      uri ∈ CompiledGoFiles m
      ∧ parseGoURI env uri = Ok pgf
      ∧ group ∈ Imports env pgf
      ∧ i ∈ group
      ∧ imp_Path i = Some value
      ∧ trim quote value = item
      ∧ d_URI d = pgf_URI pgf
      ∧ NodeRange env pgf i = Ok (d_Range d)
      ∧ goGetQuickFixes env (bool_decide (is_Some (Module m))) (pgf_URI pgf) item
        = Ok (d_SuggestedFixes d).

(** What a diagnostic on the go.mod file says: the go.mod file nearest to
    the first compiled file refers to the module of [item], and to the
    module of no package after [item] in the import stack of [depErr]. *)
Definition OnModule (env : Env) (m : Metadata) (meta : gmap PackageID Metadata)
    (depErr : PackageError) (item : string) (d : Diagnostic) : Prop :=
  ∃ first modFile pm module reference before after,
    head (CompiledGoFiles m) = Some first
    ∧ nearestModFile env first = Ok modFile
    ∧ parseModURI env modFile = Ok pm
    ∧ ImportStack depErr = before ++ item :: after
    ∧ meta !! item ≫= Module = Some module
    ∧ findModuleReference env pm
        {| v_Path := mod_Path module; v_Version := mod_Version module |} = Some reference
    ∧ Forall (λ p, ∀ module',
                meta !! p ≫= Module = Some module' →
                findModuleReference env pm
                  {| v_Path := mod_Path module'; v_Version := mod_Version module' |} = None)
        after
    ∧ d_URI d = pm_URI pm
    ∧ OffsetRange env pm (ref_Start reference) (ref_End reference) = Ok (d_Range d)
    ∧ goGetQuickFixes env true (pm_URI pm) item = Ok (d_SuggestedFixes d).

(** A diagnostic of [depsErrors] for the package [item] of the import
    stack of [depErr]. *)
Definition Reports (depErr : PackageError) (item : string) (d : Diagnostic) : Prop :=
  d_Severity d = SeverityError
  ∧ d_Source d = TypeError
  ∧ d_Message d = message item depErr.

(** What the index of the imports holds under a path. *)
Definition Indexed (env : Env) (uris : list URI) (item : string) (fi : fileImport) : Prop :=
  ∃ uri group value,
    uri ∈ uris
    ∧ parseGoURI env uri = Ok (cgf fi)
    ∧ group ∈ Imports env (cgf fi)
    ∧ imp fi ∈ group
    ∧ imp_Path (imp fi) = Some value
    ∧ trim quote value = item.

Definition AllIndexed (env : Env) (uris : list URI)
    (allImports : gmap string (list fileImport)) : Prop :=
  ∀ item l, allImports !! item = Some l → Forall (Indexed env uris item) l.

(** The diagnostic [d] is the one that the second pass makes for the
    import [fi] of [item]. *)
Definition ForImport (env : Env) (moduleMode : bool) (depErr : PackageError)
    (item : string) (fi : fileImport) (d : Diagnostic) : Prop :=
  Reports depErr item d
  ∧ d_URI d = pgf_URI (cgf fi)
  ∧ NodeRange env (cgf fi) (imp fi) = Ok (d_Range d)
  ∧ goGetQuickFixes env moduleMode (pgf_URI (cgf fi)) item = Ok (d_SuggestedFixes d).

(** What the second pass adds for one error: for every package of the
    stack that it reaches, the diagnostics of the imports of the package,
    in order. *)
Definition ForStack (env : Env) (workspacePackages : gmap PackageID PackagePath)
    (allImports : gmap string (list fileImport)) (moduleMode : bool)
    (depErr : PackageError) (items : list string) (new : list Diagnostic) : Prop :=
  ∃ reached news,
    reached `prefix_of` items
    ∧ Forall (λ p, workspacePackages !! p = None) reached
    ∧ (reached = items ∨ ∃ p, reached ++ [p] `prefix_of` items ∧ is_Some (workspacePackages !! p))
    ∧ new = concat news
    ∧ Forall2 (λ item new',
                 Forall2 (ForImport env moduleMode depErr item)
                   (default [] (allImports !! item)) new')
        reached news.

(** The line of the go.mod file that refers to the module of a
    package. *)
Definition referenceOf (env : Env) (meta : gmap PackageID Metadata) (pm : ParsedModule)
    (item : string) : option Reference :=
  match meta !! item ≫= Module with
  | Some module =>
      findModuleReference env pm
        {| v_Path := mod_Path module; v_Version := mod_Version module |}
  | None => None
  end.

(** The diagnostic [d] is the one that the third pass makes for
    [item]. *)
Definition ForReference (env : Env) (meta : gmap PackageID Metadata) (pm : ParsedModule)
    (depErr : PackageError) (item : string) (d : Diagnostic) : Prop :=
  ∃ reference,
    referenceOf env meta pm item = Some reference
    ∧ Reports depErr item d
    ∧ d_URI d = pm_URI pm
    ∧ OffsetRange env pm (ref_Start reference) (ref_End reference) = Ok (d_Range d)
    ∧ goGetQuickFixes env true (pm_URI pm) item = Ok (d_SuggestedFixes d).

(** What the third pass adds for one error: nothing, if the go.mod file
    refers to the module of no package of the stack, and else one
    diagnostic for the first such package. *)
Definition ForModule (env : Env) (meta : gmap PackageID Metadata) (pm : ParsedModule)
    (depErr : PackageError) (items : list string) (new : list Diagnostic) : Prop :=
  (new = [] ∧ Forall (λ p, referenceOf env meta pm p = None) items)
  ∨ ∃ skipped item rest d,
      new = [d]
      ∧ items = skipped ++ item :: rest
      ∧ Forall (λ p, referenceOf env meta pm p = None) skipped
      ∧ ForReference env meta pm depErr item d.

(** A sample: the package [p], outside the workspace, imports [gone],
    which cannot be found; the workspace package [w] imports [p]. *)
Definition sampleImport : ImportSpec :=
  {| imp_Path := Some (Batch.quoted "p"); imp_Pos := 20 |}.

Definition sampleEnv : Env :=
  {| parseGoURI := λ uri, Ok {| pgf_URI := uri; pgf_Src := ""; pgf_Fixed := false;
                                 pgf_ParseErr := None |};
     Imports := λ pgf, [[sampleImport]];
     NodeRange := λ pgf i, Ok {| rng_Start := imp_Pos i; rng_End := imp_Pos i + 3 |};
     goGetQuickFixes := λ moduleMode uri item, Ok [];
     nearestModFile := λ uri, Ok "file:///w/go.mod";
     parseModURI := λ uri, Ok {| pm_URI := uri; pm_File := "" |};
     findModuleReference := λ pm v,
       if decide (v_Path v = "example.com/p") then Some {| ref_Start := 30; ref_End := 50 |}
       else None;
     OffsetRange := λ pm s e, Ok {| rng_Start := s; rng_End := e |} |}.

Definition sampleMetadata : Metadata := ImportGraph.packageMeta 1 "w" ["p"].

Definition sampleGraph : gmap PackageID Metadata :=
  {[ "p" := {| m_ptr := 2; ID := "p"; PkgPath := "p"; Name := "p";
               GoFiles := ["file:///p.go"]; CompiledGoFiles := ["file:///p.go"];
               TypesSizes := {| WordSize := 8; MaxAlign := 8 |};
               DepsByImpPath := ∅; DepsByPkgPath := ∅;
               Module := Some {| mod_Path := "example.com/p"; mod_Version := "v1.0.0";
                                 mod_GoVersion := "1.20" |} |} ]}.

Definition sampleError : PackageError :=
  {| ImportStack := ["w"; "p"]; pe_Pos := ""; pe_Err := "cannot find package gone" |}.

Definition sampleWorkspace : gmap PackageID PackagePath := {[ "w" := "w" ]}.

End DepsErrors.

(** * Properties *)

(** ** [pkg.File] *)

Section PkgFileFacts.
Import PkgFile.

Lemma searchFiles_head_filter files uri :
  searchFiles files uri = head (filter (λ f, pgf_URI f = uri) files).
Proof.
  induction files as [|f rest IH]; [done|].
  cbn [searchFiles]. rewrite filter_cons.
  destruct (decide (pgf_URI f = uri)); [done|apply IH].
Qed.

Lemma searchFiles_None files uri :
  searchFiles files uri = None ↔ uri ∉ pgf_URI <$> files.
Proof.
  induction files as [|f rest IH]; cbn [searchFiles fmap list_fmap].
  - split; [intros _; apply not_elem_of_nil|done].
  - rewrite not_elem_of_cons.
    destruct (decide (pgf_URI f = uri)) as [Heq|Hne].
    + split; [done|]. intros [Hneq _]. by destruct Hneq.
    + rewrite IH. split; [intros ?; split; [congruence|done]|by intros [_ ?]].
Qed.

Lemma searchFiles_Some files uri f :
  searchFiles files uri = Some f → f ∈ files ∧ pgf_URI f = uri.
Proof.
  induction files as [|g rest IH]; cbn [searchFiles]; [done|].
  destruct (decide (pgf_URI g = uri)) as [Heq|Hne].
  - intros [= <-]. split; [apply list_elem_of_here|done].
  - intros [Hin Huri]%IH. split; [by apply list_elem_of_further|done].
Qed.

Lemma searchFiles_app files1 files2 uri :
  searchFiles (files1 ++ files2) uri =
    match searchFiles files1 uri with
    | Some f => Some f
    | None => searchFiles files2 uri
    end.
Proof.
  induction files1 as [|f rest IH]; [done|].
  cbn [searchFiles app]. by destruct (decide (pgf_URI f = uri)).
Qed.

(** C10. [File] searches the compiled files and then the extra files and
    returns the first parsed file whose URI matches; a URI that occurs among
    the compiled files is always answered with a compiled file; the result
    is an error exactly when the URI occurs in neither list, and a
    successful result is a file of the package with the requested URI. *)
Theorem File_compiled_then_extra (p : pkg) (uri : URI) :
  File p uri =
    match head (filter (λ f, pgf_URI f = uri) (compiledGoFiles p ++ goFiles p)) with
    | Some f => Ok f
    | None => Err ("no parsed file for " +:+ uri +:+ " in " +:+ m_ID p)
    end
  ∧ ((uri ∈ pgf_URI <$> compiledGoFiles p) ↔
       (∃ cgf, File p uri = Ok cgf ∧ cgf ∈ compiledGoFiles p ∧
               searchFiles (compiledGoFiles p) uri = Some cgf))
  ∧ ((∃ e, File p uri = Err e) ↔
       (uri ∉ pgf_URI <$> compiledGoFiles p) ∧ (uri ∉ pgf_URI <$> goFiles p))
  ∧ (∀ f, File p uri = Ok f →
       pgf_URI f = uri ∧ (f ∈ compiledGoFiles p ∨ f ∈ goFiles p)).
Proof.
  rewrite <- searchFiles_head_filter, searchFiles_app. unfold File.
  rewrite <- (searchFiles_None (compiledGoFiles p)), <- (searchFiles_None (goFiles p)).
  pose proof (searchFiles_Some (compiledGoFiles p) uri) as Hcs.
  pose proof (searchFiles_Some (goFiles p) uri) as Hgs.
  assert (uri ∈ pgf_URI <$> compiledGoFiles p ↔ searchFiles (compiledGoFiles p) uri ≠ None) as ->.
  { rewrite searchFiles_None. split; [tauto|]. apply dec_stable. }
  destruct (searchFiles (compiledGoFiles p) uri) as [cgf|].
  - destruct (Hcs cgf eq_refl) as [Hin Huri]. split_and!; [done|..].
    + split; [intros _; by exists cgf|done].
    + split; [by intros [e ?]|by intros [? _]].
    + intros f [= <-]. auto.
  - destruct (searchFiles (goFiles p) uri) as [gf|].
    + destruct (Hgs gf eq_refl) as [Hin Huri]. split_and!; [done|..].
      * split; [done|]. by intros (cgf & _ & _ & ?).
      * split; [by intros [e ?]|by intros [_ ?]].
      * intros f [= <-]. auto.
    + split_and!; [done|..].
      * split; [done|]. by intros (cgf & _ & _ & ?).
      * split; [done|eauto].
      * by intros f.
Qed.

End PkgFileFacts.

(** ** [expandErrors] *)

Section ErrorExpansionFacts.
Import ErrorExpansion.






(** The same run, evaluated: two errors come out, the first at position 1
    with the second location as its secondary, the second at position 2
    with message [redeclared (see details)] and the first as secondary. *)
Example expandErrors_redeclared :
  expandErrors [redeclared; prevHere] true =
    [ {| primary := redeclared;
         secondaries := [setMsg prevHere "prev here"] |};
      {| primary := setMsg prevHere "redeclared (see details)";
         secondaries := [redeclared; setMsg prevHere "prev here (this error)"] |} ].
Proof. reflexivity. Qed.

Example expandErrors_redeclared_no_related_information :
  expandErrors [redeclared; prevHere] false =
    [ {| primary := redeclared;
         secondaries := [setMsg prevHere "prev here"] |};
      {| primary := setMsg prevHere "redeclared (this error: prev here)";
         secondaries := [redeclared; setMsg prevHere "prev here (this error)"] |} ].
Proof. reflexivity. Qed.

End ErrorExpansionFacts.

(** ** [computePackageKey] *)

Section KeyHasherFacts.
Import Handles KeyHasher.

Lemma sortStrings_Permutation (l l' : list string) :
  l ≡ₚ l' → sortStrings l = sortStrings l'.
Proof.
  intros Hperm. unfold sortStrings.
  apply (Sorted_unique String.le); [apply Sorted_merge_sort, _..|].
  by rewrite !merge_sort_Permutation.
Qed.

Lemma sortStrings_rangeOrder {V} (m : gmap string V) (order order' : list string) :
  rangeOrder m order → rangeOrder m order' → sortStrings order = sortStrings order'.
Proof.
  unfold rangeOrder. intros H1 H2. apply sortStrings_Permutation. by rewrite H1, H2.
Qed.

Lemma depLines_is_Some env inputs (order : list string) :
  rangeOrder (deps inputs) order →
  is_Some (mapM (depLine env inputs) (sortStrings order)).
Proof.
  intros Horder. apply mapM_is_Some, Forall_forall. intros depID Hin.
  unfold sortStrings in Hin. rewrite merge_sort_Permutation, Horder in Hin.
  apply elem_of_elements, elem_of_dom in Hin as [dep Hdep].
  unfold compose, depLine. rewrite Hdep. by eexists.
Qed.

(** C2. Whatever orders the two [range] loops of [computePackageKey] visit
    the import map and the dependency map in, the key is computed and is
    the same: two runs on the same inputs with any two iteration orders of
    each map return the same hash, and they write the same bytes to the
    hasher. *)
Theorem computePackageKey_iteration_order (env : Env) (inputs : typeCheckInputs)
    (importOrder importOrder' depOrder depOrder' : list string) :
  rangeOrder (depsByImpPath inputs) importOrder →
  rangeOrder (depsByImpPath inputs) importOrder' →
  rangeOrder (deps inputs) depOrder →
  rangeOrder (deps inputs) depOrder' →
  computePackageKey env importOrder depOrder inputs
    = computePackageKey env importOrder' depOrder' inputs
  ∧ packageKeyStream env importOrder depOrder inputs
    = packageKeyStream env importOrder' depOrder' inputs
  ∧ is_Some (computePackageKey env importOrder depOrder inputs).
Proof.
  intros Hi Hi' Hd Hd'. unfold computePackageKey, packageKeyStream.
  rewrite (sortStrings_rangeOrder _ _ _ Hi Hi'), (sortStrings_rangeOrder _ _ _ Hd Hd').
  split_and!; [done..|].
  destruct (depLines_is_Some env inputs depOrder' Hd') as [lines ->].
  simpl. by eexists.
Qed.

(** One import map with two entries, one dependency map with two handles,
    each visited in both orders. *)
Lemma computePackageKey_iteration_order_witness :
  computePackageKey plainEnv ["fmt"; "os"] ["fmt"; "os"] withTwoDeps
    = computePackageKey plainEnv ["os"; "fmt"] ["os"; "fmt"] withTwoDeps
  ∧ packageKeyStream plainEnv ["fmt"; "os"] ["fmt"; "os"] withTwoDeps
    = packageKeyStream plainEnv ["os"; "fmt"] ["os"; "fmt"] withTwoDeps
  ∧ is_Some (computePackageKey plainEnv ["fmt"; "os"] ["fmt"; "os"] withTwoDeps).
Proof.
  apply (computePackageKey_iteration_order plainEnv withTwoDeps);
    unfold rangeOrder; vm_compute elements; by (reflexivity || apply perm_swap).
Defined.

(** C1. The bytes written to the hasher do not determine the inputs.  The
    inputs [twoImports] and [oneImport] differ in their import maps, and
    [computePackageKey] writes the same bytes for both, because the text of
    an import-map entry ends without a delimiter; so both get the same
    key. *)
Theorem packageKeyStream_not_injective (env : Env) :
  twoImports ≠ oneImport
  ∧ rangeOrder (depsByImpPath twoImports) ["b"; "a"]
  ∧ rangeOrder (depsByImpPath oneImport) ["a"]
  ∧ rangeOrder (deps twoImports) [] ∧ rangeOrder (deps oneImport) []
  ∧ is_Some (packageKeyStream env ["b"; "a"] [] twoImports)
  ∧ packageKeyStream env ["b"; "a"] [] twoImports
    = packageKeyStream env ["a"] [] oneImport
  ∧ computePackageKey env ["b"; "a"] [] twoImports
    = computePackageKey env ["a"] [] oneImport.
Proof.
  split_and!.
  - intros Heq. apply (f_equal (λ i, depsByImpPath i !! "b")) in Heq.
    vm_compute in Heq. discriminate.
  - unfold rangeOrder. vm_compute elements. apply perm_swap.
  - unfold rangeOrder. vm_compute elements. reflexivity.
  - unfold rangeOrder. vm_compute elements. reflexivity.
  - unfold rangeOrder. vm_compute elements. reflexivity.
  - vm_compute. by eexists.
  - vm_compute. reflexivity.
  - vm_compute. reflexivity.
Qed.

End KeyHasherFacts.

(** ** [doTypeCheck] and [typeCheckImpl] *)

Section TypeCheckFacts.
Import Handles ErrorExpansion TypeCheck.

(** [doTypeCheck] never sets [hasFixedFiles]: the package it returns has
    the flag as the struct literal left it. *)
Lemma doTypeCheck_hasFixedFiles env inputs pkg log :
  doTypeCheck env inputs = (Ok pkg, log) → hasFixedFiles pkg = false.
Proof.
  unfold doTypeCheck.
  repeat (case_match; simplify_eq/=); by intros [= <- _].
Qed.

Lemma parseErrorLoop_spec env errs U pkg :
  ∃ pkg', foldl (parseErrorStep env) (U, pkg) errs
          = (U ∪ list_to_set (d_URI <$> parseDiagnosticsComputed env pkg errs), pkg')
    ∧ diagnostics pkg' = diagnostics pkg ++ parseDiagnosticsComputed env pkg errs
    ∧ hasFixedFiles pkg' = hasFixedFiles pkg
    ∧ typeErrors pkg' = typeErrors pkg
    ∧ types pkg' = types pkg.
Proof.
  revert U pkg. induction errs as [|e errs IH]; intros U pkg; simpl.
  - exists pkg. rewrite app_nil_r. split_and!; [|done..].
    simpl. by rewrite (right_id_L ∅ (∪)).
  - unfold parseErrorStep at 2. simpl.
    destruct (parseErrorDiagnostics env pkg e) as [diags|err]; [|apply IH].
    destruct (IH (U ∪ list_to_set (d_URI <$> diags))
                 (setDiagnostics pkg (diagnostics pkg ++ diags)))
      as (pkg' & -> & Hd & Hf & Ht & Hty).
    exists pkg'. rewrite Hd. simpl. rewrite <- app_assoc.
    split_and!; [f_equal|done..].
    by rewrite fmap_app, list_to_set_app_L, (assoc_L (∪)).
Qed.

Lemma typeErrorLoop_spec env inputs U es pkg :
  diagnostics (foldl (typeErrorStep env inputs U) pkg es)
  = diagnostics pkg
    ++ filter (λ d, d_URI d ∉ U) (typeDiagnosticsComputed env inputs U pkg es).
Proof.
  revert pkg. induction es as [|e es IH]; intros pkg; simpl.
  - by rewrite app_nil_r.
  - rewrite IH.
    destruct (typeErrorDiagnostics env (moduleMode inputs) (linkTarget inputs) pkg e)
      as [diags|err] eqn:Hdiags; unfold typeErrorStep; rewrite !Hdiags; [|done].
    simpl. by rewrite filter_app, <- app_assoc.
Qed.

(** What [reportErrors] appends to the diagnostics of a package: the
    diagnostics of its parse errors; then, unless [hasFixedFiles] is set,
    those diagnostics of the expanded type errors whose URI is not the URI
    of a parse-error diagnostic. *)
Lemma reportErrors_diagnostics env inputs pkg :
  let parseDiags := parseDiagnosticsComputed env pkg (parseErrors pkg) in
  let unparseable : gset URI := list_to_set (d_URI <$> parseDiags) in
  ∃ pkg1,
    diagnostics pkg1 = diagnostics pkg ++ parseDiags
    ∧ diagnostics (reportErrors env inputs pkg) =
        diagnostics pkg ++ parseDiags ++
        (if hasFixedFiles pkg then []
         else filter (λ d, d_URI d ∉ d_URI <$> parseDiags)
                (typeDiagnosticsComputed env inputs unparseable (setTypeErrors pkg1 [])
                   (expandErrors (typeErrors pkg) (relatedInformation inputs)))).
Proof.
  intros parseDiags unparseable. unfold reportErrors.
  destruct (parseErrorLoop_spec env (parseErrors pkg) ∅ pkg)
    as (pkg1 & -> & Hd & Hf & Ht & _).
  exists pkg1. split; [done|]. rewrite Hf.
  destruct (hasFixedFiles pkg).
  - by rewrite Hd, app_nil_r.
  - rewrite typeErrorLoop_spec. simpl. rewrite Hd, Ht, <- app_assoc.
    fold parseDiags. rewrite (left_id_L ∅ (∪)). fold unparseable.
    do 2 f_equal. apply list_filter_iff. intros d. unfold unparseable.
    by rewrite elem_of_list_to_set.
Qed.

Lemma typeErrorLoop_preserved env inputs U es pkg :
  hasFixedFiles (foldl (typeErrorStep env inputs U) pkg es) = hasFixedFiles pkg
  ∧ types (foldl (typeErrorStep env inputs U) pkg es) = types pkg.
Proof.
  revert pkg. induction es as [|e es IH]; intros pkg; simpl; [done|].
  destruct (IH (typeErrorStep env inputs U pkg e)) as [-> ->].
  unfold typeErrorStep. by case_match.
Qed.

Lemma reportErrors_preserved env inputs pkg :
  hasFixedFiles (reportErrors env inputs pkg) = hasFixedFiles pkg
  ∧ types (reportErrors env inputs pkg) = types pkg.
Proof.
  unfold reportErrors.
  destruct (parseErrorLoop_spec env (parseErrors pkg) ∅ pkg)
    as (pkg1 & -> & _ & Hf & _ & Hty).
  destruct (hasFixedFiles pkg1) eqn:Hfixed; [by rewrite <- Hf|].
  destruct (typeErrorLoop_preserved env inputs
              (∅ ∪ list_to_set (d_URI <$> parseDiagnosticsComputed env pkg (parseErrors pkg)))
              (expandErrors (typeErrors pkg1) (relatedInformation inputs))
              (setTypeErrors pkg1 [])) as [-> ->].
  simpl. by rewrite <- Hf, Hfixed.
Qed.

(** No run of [typeCheckImpl] returns a package with [hasFixedFiles] set,
    whatever the parser did to the files. *)
Lemma typeCheckImpl_hasFixedFiles env inputs pkg log :
  typeCheckImpl env inputs = (Ok pkg, log) → hasFixedFiles pkg = false.
Proof.
  unfold typeCheckImpl. destruct (doTypeCheck env inputs) as [[pkg0|err] log0] eqn:Hdo;
    [|done].
  intros [= <- _]. destruct (reportErrors_preserved env inputs pkg0) as [-> _].
  by eapply doTypeCheck_hasFixedFiles.
Qed.

Example typeCheckImpl_repaired_run :
  typeCheckImpl repairedEnv repairedInputs =
    (Ok {| pkg_id := "p"; types := NewPackage "p" "p";
           goFiles := parseOne <$> [aGo; bGo];
           compiledGoFiles := parseOne <$> [aGo; bGo];
           parseErrors := [ {| el_filename := "file:///p/a.go";
                               el_msgs := ["expected selector or type assertion"] |} ];
           typeErrors := [boolAsInt];
           diagnostics :=
             [ {| d_URI := "file:///p/a.go"; d_Source := "syntax";
                  d_Message := "expected selector or type assertion" |};
               {| d_URI := "file:///p/b.go"; d_Source := "compiler";
                  d_Message := "cannot use true (untyped bool constant) as int value" |} ];
           hasFixedFiles := false |},
     [ EvParseFiles ["file:///p/a.go"; "file:///p/b.go"];
       EvParseFiles ["file:///p/a.go"; "file:///p/b.go"];
       EvCheckFiles "p" ]).
Proof. vm_compute. reflexivity. Qed.

Lemma reportErrors_no_type_errors env inputs pkg :
  typeErrors pkg = [] → typeErrors (reportErrors env inputs pkg) = [].
Proof.
  intros Hnil. unfold reportErrors.
  destruct (parseErrorLoop_spec env (parseErrors pkg) ∅ pkg)
    as (pkg1 & -> & _ & _ & Ht & _).
  destruct (hasFixedFiles pkg1); [congruence|].
  rewrite Ht, Hnil. by simp expandErrors.
Qed.

(** A full type check of a package whose path is [unsafe] never runs the
    checker; it fails only if a file cannot be parsed, and otherwise
    returns a package whose types are [types.Unsafe] and that has no type
    error. *)
Lemma typeCheckImpl_unsafe env inputs :
  pkgPath inputs = "unsafe" →
  (∀ id, EvCheckFiles id ∉ (typeCheckImpl env inputs).2)
  ∧ match (typeCheckImpl env inputs).1 with
    | Ok pkg => types pkg = Unsafe ∧ typeErrors pkg = []
    | Err e => parseFiles env (Handles.goFiles inputs) = Err e
               ∨ parseFiles env (Handles.compiledGoFiles inputs) = Err e
    end.
Proof.
  intros Hunsafe. unfold typeCheckImpl, doTypeCheck.
  destruct (parseFiles env (Handles.goFiles inputs)) as [gfs|e1]; simpl.
  2:{ split; [|by left]. intros id [?|[]%elem_of_nil]%elem_of_cons; done. }
  destruct (parseFiles env (Handles.compiledGoFiles inputs)) as [cgfs|e2]; simpl.
  2:{ split; [|by right].
      intros id [?|[?|[]%elem_of_nil]%elem_of_cons]%elem_of_cons; done. }
  rewrite decide_True by done. simpl. split.
  - intros id [?|[?|[]%elem_of_nil]%elem_of_cons]%elem_of_cons; done.
  - split.
    + by destruct (reportErrors_preserved env inputs
                     (setTypes (setFiles
                        {| pkg_id := id inputs;
                           types := NewPackage (pkgPath inputs) (name inputs);
                           goFiles := []; compiledGoFiles := []; parseErrors := [];
                           typeErrors := []; diagnostics := []; hasFixedFiles := false |}
                        gfs cgfs (omap pgf_ParseErr cgfs)) Unsafe)) as [_ ->].
    + by apply reportErrors_no_type_errors.
Qed.

(** C5. A run in which the parser repaired a file and the type errors are
    reported all the same.  The compiled file [a.go] of [repairedInputs] is
    parsed with [Fixed] set; [typeCheckImpl] returns a package whose
    [hasFixedFiles] is false and whose diagnostics hold, after the
    diagnostic of the syntax error in [a.go], the diagnostic of the type
    error in [b.go]. *)
Theorem typeCheckImpl_repaired_file_reports_type_error :
  ∃ pkg log,
    typeCheckImpl repairedEnv repairedInputs = (Ok pkg, log)
    ∧ Exists (λ f, pgf_Fixed f = true) (compiledGoFiles pkg)
    ∧ hasFixedFiles pkg = false
    ∧ diagnostics pkg =
        [ {| d_URI := "file:///p/a.go"; d_Source := "syntax";
             d_Message := "expected selector or type assertion" |};
          {| d_URI := "file:///p/b.go"; d_Source := "compiler";
             d_Message := "cannot use true (untyped bool constant) as int value" |} ].
Proof.
  eexists _, _. split; [apply typeCheckImpl_repaired_run|].
  split_and!; [|done..]. apply Exists_cons_hd. reflexivity.
Qed.

End TypeCheckFacts.

(** ** [resolveImportGraph] *)

Section ImportGraphFacts.
Import Handles ImportGraph.

Section Graph.
Context (rt : Runtime) (s : Snapshot) (Hrange : RangeValid rt).

Lemma elem_of_rangeKeys {V} (m : gmap string V) k :
  k ∈ rangeKeys rt m ↔ is_Some (m !! k).
Proof. rewrite (Hrange V m). by rewrite elem_of_elements, elem_of_dom. Qed.

Lemma elem_of_rangeValues {V} (m : gmap string V) v :
  v ∈ rangeValues rt m ↔ ∃ k, m !! k = Some v.
Proof.
  unfold rangeValues. rewrite list_elem_of_omap. split.
  - intros (k & _ & Hk). eauto.
  - intros (k & Hk). exists k. split; [|done]. apply elem_of_rangeKeys. eauto.
Qed.

Lemma openPackages_insert_true (pkgs : list PackageID) (acc : gmap PackageID bool) id :
  foldl (λ openPackages id, <[id := true]> openPackages) acc pkgs !! id = Some true
  ↔ acc !! id = Some true ∨ id ∈ pkgs.
Proof.
  revert acc. induction pkgs as [|p pkgs IH]; intros acc; simpl.
  - rewrite elem_of_nil. tauto.
  - rewrite IH, elem_of_cons, lookup_insert_Some. destruct (decide (p = id)); naive_solver.
Qed.

Lemma openPackagesOf_lookup id :
  openPackagesOf s !! id = Some true ↔ OpenPackage s id.
Proof.
  unfold openPackagesOf, OpenPackage.
  assert (∀ uris (acc : gmap PackageID bool),
    foldl (λ openPackages uri,
             foldl (λ openPackages id, <[id := true]> openPackages)
                   openPackages (default [] (ids (meta s) !! uri))) acc uris !! id = Some true
    ↔ acc !! id = Some true
      ∨ ∃ uri pkgs, uri ∈ uris ∧ ids (meta s) !! uri = Some pkgs ∧ id ∈ pkgs) as Hfold.
  { induction uris as [|uri uris IH]; intros acc; simpl.
    - split; [auto|]. intros [?|(uri & pkgs & []%elem_of_nil & _)]; done.
    - rewrite IH, openPackages_insert_true. split.
      + intros [[?|Hin]|(uri' & pkgs & Hin & Hl & Hid)]; [by left|..].
        * destruct (ids (meta s) !! uri) as [pkgs|] eqn:Hl; simpl in Hin.
          -- right. exists uri, pkgs. rewrite elem_of_cons. auto.
          -- by apply elem_of_nil in Hin.
        * right. exists uri', pkgs. rewrite elem_of_cons. auto.
      + intros [?|(uri' & pkgs & [->|Hin]%elem_of_cons & Hl & Hid)]; [by left; left|..].
        * left; right. by rewrite Hl.
        * right. eauto. }
  rewrite Hfold, lookup_empty. naive_solver.
Qed.

Lemma openPackagesOf_true id v : openPackagesOf s !! id = Some v → v = true.
Proof.
  unfold openPackagesOf.
  assert (∀ pkgs (acc : gmap PackageID bool),
    (∀ k w, acc !! k = Some w → w = true) →
    ∀ k w, foldl (λ openPackages id, <[id := true]> openPackages) acc pkgs !! k = Some w
           → w = true) as Hin.
  { induction pkgs as [|p pkgs IH]; intros acc Hacc; simpl; [done|].
    apply IH. intros k w [[_ <-]|[_ ?]]%lookup_insert_Some; eauto. }
  assert (∀ uris (acc : gmap PackageID bool),
    (∀ k w, acc !! k = Some w → w = true) →
    ∀ k w, foldl (λ openPackages uri,
             foldl (λ openPackages id, <[id := true]> openPackages)
                   openPackages (default [] (ids (meta s) !! uri))) acc uris !! k = Some w
           → w = true) as Hout.
  { induction uris as [|uri uris IH]; intros acc Hacc; simpl; [done|].
    apply IH. by apply Hin. }
  apply Hout. intros k w. by rewrite lookup_empty.
Qed.

Lemma isOpen_OpenPackage id :
  isOpen (openPackagesOf s) id = true ↔ OpenPackage s id.
Proof.
  rewrite <- openPackagesOf_lookup. unfold isOpen.
  destruct (openPackagesOf s !! id) as [v|] eqn:Hl; simpl; [|done].
  split; [by intros ->|by intros [= ->]].
Qed.

Lemma Volatile_unfold id :
  Volatile s id ↔ OpenPackage s id ∨ ∃ dep, depEdge s id dep ∧ Volatile s dep.
Proof.
  unfold Volatile. split.
  - intros (id' & Hrtc & Hopen). destruct Hrtc as [|id dep id' Hedge Hrtc]; [by left|].
    right. exists dep. split; [done|]. by exists id'.
  - intros [Hopen|(dep & Hedge & id' & Hrtc & Hopen)].
    + by exists id.
    + exists id'. split; [by eapply rtc_l|done].
Qed.

Lemma MemoRight_insert memo id v :
  MemoRight s memo → (v = true ↔ Volatile s id) → MemoRight s (<[id := v]> memo).
Proof.
  intros Hmemo Hv id' v' [[<- <-]|[_ Hl]]%lookup_insert_Some; [done|]. by apply Hmemo.
Qed.

Lemma anyVolatile_sound f depIDs :
  (∀ dep memo v memo', MemoRight s memo → f dep memo = Some (v, memo') →
     MemoRight s memo' ∧ memo' !! dep = Some v ∧ memo ⊆ memo') →
  ∀ memo v memo', MemoRight s memo → anyVolatile f depIDs memo = Some (v, memo') →
    MemoRight s memo' ∧ memo ⊆ memo'
    ∧ (v = true ↔ ∃ dep, dep ∈ depIDs ∧ Volatile s dep).
Proof.
  intros Hf. induction depIDs as [|dep rest IH]; intros memo v memo' Hmemo; simpl.
  - intros [= <- <-]. split_and!; [done..|].
    split; [done|]. intros (dep & []%elem_of_nil & _).
  - destruct (f dep memo) as [[[] memo1]|] eqn:Hdep; [| |done].
    + intros [= <- <-]. destruct (Hf _ _ _ _ Hmemo Hdep) as (Hmemo1 & Hl & Hsub).
      split_and!; [done..|]. split; [|done]. intros _. exists dep.
      split; [apply list_elem_of_here|]. by apply (Hmemo1 dep true).
    + intros Hrest. destruct (Hf _ _ _ _ Hmemo Hdep) as (Hmemo1 & Hl & Hsub).
      destruct (IH _ _ _ Hmemo1 Hrest) as (Hmemo' & Hsub' & Hv).
      split_and!; [done|by etrans|]. rewrite Hv. split.
      * intros (d & Hin & Hvol). exists d. split; [by apply list_elem_of_further|done].
      * intros (d & [Heq|Hin]%elem_of_cons & Hvol); [subst d|eauto].
        apply (Hmemo1 dep false) in Hvol; done.
Qed.

Lemma isVolatile_sound fuel id memo v memo' :
  MemoRight s memo →
  isVolatile rt s (openPackagesOf s) fuel id memo = Some (v, memo') →
  MemoRight s memo' ∧ memo' !! id = Some v ∧ memo ⊆ memo'.
Proof.
  revert id memo v memo'. induction fuel as [|fuel IH]; intros id memo v memo' Hmemo;
    simpl; [done|].
  destruct (memo !! id) as [w|] eqn:Hl.
  { by intros [= <- <-]. }
  destruct (isOpen (openPackagesOf s) id) eqn:Hopen.
  { intros [= <- <-]. split_and!.
    - apply MemoRight_insert; [done|]. split; [|done]. intros _.
      apply Volatile_unfold. left. by apply isOpen_OpenPackage.
    - apply lookup_insert_eq.
    - by apply insert_subseteq. }
  assert (¬ OpenPackage s id) as Hnotopen.
  { rewrite <- isOpen_OpenPackage. by rewrite Hopen. }
  destruct (metadata (meta s) !! id) as [m|] eqn:Hm.
  - destruct (anyVolatile _ _ memo) as [[w memo1]|] eqn:Hany; [|done].
    simpl. intros [= <- <-].
    destruct (anyVolatile_sound _ _ IH _ _ _ Hmemo Hany) as (Hmemo1 & Hsub & Hw).
    assert (w = true ↔ Volatile s id) as Hright.
    { rewrite Hw, Volatile_unfold. split.
      - intros (dep & (path & Hpath)%elem_of_rangeValues & Hvol).
        right. exists dep. split; [by exists m, path|done].
      - intros [?|(dep & (m' & path & Hm' & Hpath) & Hvol)]; [done|].
        assert (m' = m) as -> by congruence.
        exists dep. split; [|done]. apply elem_of_rangeValues. eauto. }
    split_and!.
    + by apply MemoRight_insert.
    + apply lookup_insert_eq.
    + etrans; [done|].
      destruct (memo1 !! id) as [x|] eqn:Hx; [|by apply insert_subseteq].
      assert (x = w) as ->.
      { apply Hmemo1 in Hx. destruct x, w; naive_solver. }
      by rewrite insert_id.
  - intros [= <- <-]. split_and!.
    + apply MemoRight_insert; [done|]. split; [done|].
      intros [?|(dep & (m & path & Hm' & _) & _)]%Volatile_unfold; [done|congruence].
    + apply lookup_insert_eq.
    + by apply insert_subseteq.
Qed.

Lemma markVolatile_sound fuel depIDs memo memo' :
  MemoRight s memo →
  markVolatile rt s (openPackagesOf s) fuel depIDs memo = Some memo' →
  MemoRight s memo' ∧ memo ⊆ memo' ∧ ∀ dep, dep ∈ depIDs → is_Some (memo' !! dep).
Proof.
  revert memo. induction depIDs as [|dep rest IH]; intros memo Hmemo; simpl.
  - intros [= <-]. split_and!; [done..|]. by intros dep []%elem_of_nil.
  - destruct (isVolatile _ _ _ fuel dep memo) as [[v memo1]|] eqn:Hdep; [|done].
    simpl. intros Hrest.
    destruct (isVolatile_sound _ _ _ _ _ Hmemo Hdep) as (Hmemo1 & Hl & Hsub).
    destruct (IH _ Hmemo1 Hrest) as (Hmemo' & Hsub' & Hall).
    split_and!; [done|by etrans|].
    intros d [->|Hin]%elem_of_cons; [|by apply Hall].
    exists v. by eapply lookup_weaken.
Qed.

Lemma eraseVolatile_lookup (deps : gmap PackageID Hash) (memo : gmap PackageID bool) id :
  eraseVolatile rt deps memo !! id
  = if default false (memo !! id) then None else deps !! id.
Proof.
  unfold eraseVolatile.
  assert (∀ (l : list PackageID) (deps : gmap PackageID Hash),
    foldl (λ deps id, if default false (memo !! id) then delete id deps else deps) deps l
      !! id
    = if bool_decide (id ∈ l) && default false (memo !! id) then None else deps !! id)
    as Hfold.
  { clear deps. induction l as [|k l IH]; intros deps; simpl; [done|].
    rewrite IH. destruct (decide (k = id)) as [->|Hne].
    - rewrite (bool_decide_eq_true_2 (id ∈ id :: l)) by apply list_elem_of_here.
      simpl. destruct (default false (memo !! id)); simpl.
      + rewrite lookup_delete_eq. by case_match.
      + by rewrite andb_false_r.
    - assert (bool_decide (id ∈ k :: l) = bool_decide (id ∈ l)) as ->.
      { apply bool_decide_ext. rewrite elem_of_cons. naive_solver. }
      destruct (bool_decide (id ∈ l) && default false (memo !! id)); [done|].
      destruct (default false (memo !! k)); [|done]. by rewrite lookup_delete_ne. }
  rewrite Hfold. destruct (memo !! id) as [v|] eqn:Hl; simpl; [|by rewrite andb_false_r].
  rewrite bool_decide_eq_true_2; [done|]. apply elem_of_rangeKeys. eauto.
Qed.

(** Whenever [importGraphDeps] returns a map, none of its keys is volatile. *)
Lemma importGraphDeps_sound fuel deps id :
  importGraphDeps rt fuel s = Some (Ok deps) →
  id ∈ dom deps → ¬ Volatile s id.
Proof.
  unfold importGraphDeps. destruct (awaitLoaded s); [done|].
  destruct (foldl _ _ _) as [[deps0|err]|]; [|done..].
  destruct (markVolatile _ _ _ _ _ _) as [memo|] eqn:Hmark; [|done].
  simpl. intros [= <-] [key Hkey]%elem_of_dom.
  rewrite eraseVolatile_lookup in Hkey.
  destruct (markVolatile_sound _ _ _ _ ltac:(by intros ?? ?%lookup_empty_Some) Hmark)
    as (Hmemo & _ & Hall).
  destruct (Hall id) as [v Hv].
  { apply elem_of_rangeKeys. destruct (default false (memo !! id)); [done|eauto]. }
  rewrite Hv in Hkey. simpl in Hkey. destruct v; [done|].
  intros Hvol. by apply (Hmemo id false) in Hvol.
Qed.

Section Termination.
Context (rank : PackageID → nat).
Context (Hrank : ∀ id dep, depEdge s id dep → rank dep < rank id).
Context (Hindexed : IndexedHaveMetadata (meta s)).

Lemma anyVolatile_total f depIDs memo :
  (∀ dep memo, dep ∈ depIDs → is_Some (f dep memo)) →
  is_Some (anyVolatile f depIDs memo).
Proof.
  revert memo. induction depIDs as [|dep rest IH]; intros memo Hf; simpl; [by eexists|].
  destruct (Hf dep memo) as [[[] memo1] ->]; [apply list_elem_of_here|by eexists|].
  apply IH. intros d memo' Hin. apply Hf. by apply list_elem_of_further.
Qed.

Lemma isVolatile_total fuel id memo :
  rank id < fuel → is_Some (isVolatile rt s (openPackagesOf s) fuel id memo).
Proof.
  revert id memo. induction fuel as [|fuel IH]; intros id memo Hlt; simpl; [lia|].
  destruct (memo !! id); [by eexists|].
  destruct (isOpen (openPackagesOf s) id); [by eexists|].
  destruct (metadata (meta s) !! id) as [m|] eqn:Hm; [|by eexists].
  destruct (anyVolatile_total (isVolatile rt s (openPackagesOf s) fuel)
              (rangeValues rt (DepsByPkgPath m)) memo) as [r ->]; [|by eexists].
  intros dep memo' (path & Hpath)%elem_of_rangeValues. apply IH.
  assert (rank dep < rank id) by (apply Hrank; by exists m, path). lia.
Qed.

Lemma markVolatile_total fuel depIDs memo :
  (∀ id, rank id < fuel) →
  is_Some (markVolatile rt s (openPackagesOf s) fuel depIDs memo).
Proof.
  intros Hfuel. revert memo. induction depIDs as [|dep rest IH]; intros memo; simpl;
    [by eexists|].
  destruct (isVolatile_total fuel dep memo (Hfuel dep)) as [r ->]. apply IH.
Qed.

Lemma addDepsOf_total (l : list PackageID) st :
  is_Some st →
  (∀ id, id ∈ l → is_Some (metadata (meta s) !! id)) →
  is_Some (foldl (addDepsOf rt s) st l).
Proof.
  revert st. induction l as [|id l IH]; intros st Hst Hl; simpl; [done|].
  apply IH; [|intros k Hk; apply Hl; by apply list_elem_of_further].
  destruct Hst as [[deps|err] ->]; simpl; [|by eexists].
  destruct (Hl id) as [m ->]; [apply list_elem_of_here|]. by eexists.
Qed.

Lemma importGraphDeps_total fuel :
  (∀ id, rank id < fuel) → is_Some (importGraphDeps rt fuel s).
Proof.
  intros Hfuel. unfold importGraphDeps. destruct (awaitLoaded s); [by eexists|].
  destruct (addDepsOf_total (rangeKeys rt (openPackagesOf s)) (Some (Ok ∅)))
    as [[deps|err] ->]; [by eexists| |..|by eexists].
  - intros id [v Hv]%elem_of_rangeKeys.
    assert (v = true) as -> by by eapply openPackagesOf_true.
    apply openPackagesOf_lookup in Hv as (uri & pkgs & _ & Hl & Hin). by eapply Hindexed.
  - destruct (markVolatile_total fuel (rangeKeys rt deps) ∅ Hfuel) as [memo ->].
    by eexists.
Qed.

End Termination.
End Graph.

(** C6. On a metadata graph without import cycles, [resolveImportGraph]
    computes its map [deps] (with enough fuel for the depth of the graph
    the computation ends), and no key of the final map is volatile: every
    [id] left in [deps] is not open, and no package reachable from [id]
    through [DepsByPkgPath] edges is open. *)
Theorem importGraphDeps_no_volatile (rt : Runtime) (s : Snapshot)
    (rank : PackageID → nat) (fuel : nat) :
  RangeValid rt →
  IndexedHaveMetadata (meta s) →
  (∀ id dep, depEdge s id dep → rank dep < rank id) →
  (∀ id, rank id < fuel) →
  ∃ r, importGraphDeps rt fuel s = Some r
    ∧ ∀ deps, r = Ok deps →
        ∀ id, id ∈ dom deps →
          ¬ OpenPackage s id
          ∧ ∀ id', rtc (depEdge s) id id' → ¬ OpenPackage s id'.
Proof.
  intros Hrange Hindexed Hrank Hfuel.
  destruct (importGraphDeps_total rt s Hrange rank Hrank Hindexed fuel Hfuel) as [r Hr].
  exists r. split; [done|]. intros deps -> id Hid.
  pose proof (importGraphDeps_sound rt s Hrange fuel deps id Hr Hid) as Hnot.
  split.
  - intros Hopen. apply Hnot. by exists id.
  - intros id' Hreach Hopen. apply Hnot. by exists id'.
Qed.

Lemma IndexedHaveMetadata_check (g : metadataGraph) :
  map_Forall (λ _ pkgs, Forall (λ id, is_Some (metadata g !! id)) pkgs) (ids g) →
  IndexedHaveMetadata g.
Proof.
  intros Hall uri pkgs id Hl Hin. apply Hall in Hl.
  by eapply Forall_forall in Hl.
Qed.

Lemma depEdge_rank_check (s : Snapshot) (rank : PackageID → nat) :
  map_Forall (λ id m, map_Forall (λ _ dep, rank dep < rank id) (DepsByPkgPath m))
             (metadata (meta s)) →
  ∀ id dep, depEdge s id dep → rank dep < rank id.
Proof.
  intros Hall id dep (m & path & Hm & Hpath). by eapply Hall.
Qed.

Lemma importGraphDeps_no_volatile_witness :
  ∃ r, importGraphDeps fixedRuntime 3 abcSnapshot = Some r
    ∧ ∀ deps, r = Ok deps →
        ∀ id, id ∈ dom deps →
          ¬ OpenPackage abcSnapshot id
          ∧ ∀ id', rtc (depEdge abcSnapshot) id id' → ¬ OpenPackage abcSnapshot id'.
Proof.
  apply (importGraphDeps_no_volatile fixedRuntime abcSnapshot abcRank 3).
  - intros V m. unfold rangeOrder. simpl. reflexivity.
  - apply IndexedHaveMetadata_check. eapply bool_decide_unpack. vm_compute. exact I.
  - apply depEdge_rank_check. eapply bool_decide_unpack. vm_compute. exact I.
  - intros id. unfold abcRank. repeat case_decide; lia.
Defined.

Example importGraphDeps_abc :
  importGraphDeps fixedRuntime 3 abcSnapshot = Some (Ok {[ "c" := "key of c" ]}).
Proof. vm_compute. reflexivity. Qed.

End ImportGraphFacts.

(** ** [buildPackageHandle] *)

Section HandleStoreFacts.
Import Handles HandleStore.

Lemma installSection_spec s id ph r s' :
  installSection s id ph = (r, s') →
  metadata s' = metadata s
  ∧ (∀ k h, packages s !! k = Some h → packages s' !! k = Some h)
  ∧ (∀ h, r = Ok h → packages s' !! id = Some h).
Proof.
  unfold installSection. case_decide; [by intros [= <- <-]|].
  destruct (packages s !! id) as [prevPH|] eqn:Hprev.
  - case_decide; intros [= <- <-]; [done|]. split_and!; [done..|]. by intros h [= <-].
  - intros [= <- <-]. simpl. split_and!; [done|..].
    + intros k h Hk. rewrite lookup_insert_ne; [done|]. intros ->. congruence.
    + intros h [= <-]. apply lookup_insert_eq.
Qed.

Lemma step_stored a st st' :
  step a st = Some st' →
  ReturnsStored st →
  ReturnsStored st'
  ∧ metadata st'.1 = metadata st.1
  ∧ (∀ k h, packages st.1 !! k = Some h → packages st'.1 !! k = Some h).
Proof.
  destruct st as [s calls]. unfold ReturnsStored. simpl.
  destruct a as [id|i|i err|i inputs key]; simpl.
  - intros [= <-] Hinv. simpl. split_and!; [|done..].
    intros i id' h [Hi|[_ Hi]]%lookup_app_Some; [by eapply Hinv|].
    by destruct (i - length calls) as [|[]].
  - destruct (calls !! i) as [[id| |]|] eqn:Hi; try done.
    intros [= <-] Hinv. simpl. split_and!; [|done..].
    intros j id' h. destruct (decide (i = j)) as [<-|Hne].
    + rewrite list_lookup_insert_eq by by eapply lookup_lt_Some.
      unfold lookupSection. intros Hret.
      destruct (packages s !! id) as [entry|] eqn:He,
               (metadata s !! id) as [m|] eqn:Hm; inversion Hret; by subst.
    + rewrite list_lookup_insert_ne by done. apply Hinv.
  - destruct (calls !! i) as [[|id m|]|] eqn:Hi; try done.
    intros [= <-] Hinv. simpl. split_and!; [|done..].
    intros j id' h. destruct (decide (i = j)) as [<-|Hne].
    + rewrite list_lookup_insert_eq by by eapply lookup_lt_Some. done.
    + rewrite list_lookup_insert_ne by done. apply Hinv.
  - destruct (calls !! i) as [[|id m|]|] eqn:Hi; try done.
    destruct (installSection _ _ _) as [r s1] eqn:Hinstall.
    intros [= <-] Hinv. simpl.
    apply installSection_spec in Hinstall as (Hmeta & Hmono & Hret).
    split_and!; [|done..].
    intros j id' h. destruct (decide (i = j)) as [<-|Hne].
    + rewrite list_lookup_insert_eq by by eapply lookup_lt_Some.
      intros [= <- ->]. by apply Hret.
    + rewrite list_lookup_insert_ne by done. intros Hj. eapply Hmono, Hinv, Hj.
Qed.

Lemma run_stored schedule st st' :
  run schedule st = Some st' →
  ReturnsStored st →
  ReturnsStored st'
  ∧ metadata st'.1 = metadata st.1
  ∧ (∀ k h, packages st.1 !! k = Some h → packages st'.1 !! k = Some h).
Proof.
  revert st. induction schedule as [|a rest IH]; intros st; simpl.
  - by intros [= <-].
  - destruct (step a st) as [st1|] eqn:Hstep; [|done]. simpl. intros Hrun Hinv.
    destruct (step_stored _ _ _ Hstep Hinv) as (Hinv1 & Hmeta1 & Hmono1).
    destruct (IH _ Hrun Hinv1) as (Hinv' & Hmeta' & Hmono').
    split_and!; [done|congruence|eauto].
Qed.

(** C7. Within one snapshot whose metadata does not change, take any
    number of calls of [buildPackageHandle], none of which has returned
    yet, and let them run in any interleaving of their critical sections.
    Then the metadata is still the same, no handle stored at the start has
    been replaced, and any two calls that have returned a handle for the
    same ID have returned the same handle, which is the one stored for
    that ID. *)
Theorem buildPackageHandle_one_handle_per_ID
    (s0 s : snapshot) (calls0 calls : list callState) (schedule : list action) :
  Forall isCalled calls0 →
  run schedule (s0, calls0) = Some (s, calls) →
  metadata s = metadata s0
  ∧ (∀ id h, packages s0 !! id = Some h → packages s !! id = Some h)
  ∧ ∀ i j id h1 h2,
      calls !! i = Some (Returned id (Ok h1)) →
      calls !! j = Some (Returned id (Ok h2)) →
      h1 = h2 ∧ packages s !! id = Some h1.
Proof.
  intros Hcalled Hrun.
  destruct (run_stored _ _ _ Hrun) as (Hinv & Hmeta & Hmono).
  { intros i id h Hi. simpl in Hi.
    eapply Forall_lookup_1 in Hcalled; [|done]. done. }
  split_and!; [done..|]. intros i j id h1 h2 Hi Hj.
  pose proof (Hinv i id h1 Hi) as H1. pose proof (Hinv j id h2 Hj) as H2.
  simpl in *. split; [congruence|done].
Qed.

Lemma buildPackageHandle_one_handle_per_ID_witness :
  metadata raceEnd.1 = metadata raceStart.1
  ∧ (∀ id h, packages raceStart.1 !! id = Some h → packages raceEnd.1 !! id = Some h)
  ∧ ∀ i j id h1 h2,
      raceEnd.2 !! i = Some (Returned id (Ok h1)) →
      raceEnd.2 !! j = Some (Returned id (Ok h2)) →
      h1 = h2 ∧ packages raceEnd.1 !! id = Some h1.
Proof.
  apply (buildPackageHandle_one_handle_per_ID raceStart.1 raceEnd.1
           raceStart.2 raceEnd.2 raceSchedule).
  - repeat constructor.
  - vm_compute. reflexivity.
Defined.

Lemma Grows_refl s : Grows s s.
Proof. by split. Qed.

Lemma Grows_trans s1 s2 s3 : Grows s1 s2 → Grows s2 s3 → Grows s1 s3.
Proof. intros [Hm1 Hp1] [Hm2 Hp2]. split; [congruence|eauto]. Qed.

Lemma depHandles_grows build ctxErr depIDs deps s r s' :
  (∀ d s1 r1 s2, build d s1 = Some (r1, s2) → Grows s1 s2) →
  depHandles build ctxErr depIDs deps s = Some (r, s') → Grows s s'.
Proof.
  intros Hbuild. revert deps s. induction depIDs as [|d rest IH]; intros deps s; simpl.
  - intros [= _ <-]. apply Grows_refl.
  - destruct (build d s) as [[[depHandle|err] s1]|] eqn:Hd; [| |done].
    + intros Hrest. eapply Grows_trans; [by eapply Hbuild|by eapply IH].
    + destruct ctxErr.
      * intros [= _ <-]. by eapply Hbuild.
      * intros Hrest. eapply Grows_trans; [by eapply Hbuild|by eapply IH].
Qed.

(** One goroutine alone: [buildPackageHandle] keeps the metadata and the
    handles that are stored, and a handle it returns is the one stored
    for the ID. *)
Lemma buildPackageHandle_stored env fuel id s r s' :
  buildPackageHandle env fuel id s = Some (r, s') →
  Grows s s' ∧ ∀ h, r = Ok h → packages s' !! id = Some h.
Proof.
  revert id s r s'. induction fuel as [|fuel IH]; intros id s r s'; simpl; [done|].
  unfold lookupSection. destruct (metadata s !! id) as [m|] eqn:Hm.
  2:{ destruct (packages s !! id); intros [= <- <-]; (split; [apply Grows_refl|done]). }
  destruct (packages s !! id) as [entry|] eqn:Hentry.
  { intros [= <- <-]. split; [apply Grows_refl|]. by intros h [= <-]. }
  unfold typeCheckInputs.
  destruct (depHandles _ _ _ _ s) as [[[deps'|err] s1]|] eqn:Hdeps; [| |done].
  2:{ intros [= <- <-]. split; [|done].
      eapply depHandles_grows; [|done]. intros d s2 r2 s3 Hd. by eapply IH. }
  assert (Grows s s1) as Hgrows.
  { eapply depHandles_grows; [|done]. intros d s2 r2 s3 Hd. by eapply IH. }
  destruct (readFiles (ReadFile env) (GoFiles m)) as [gfs|e1];
    [|intros [= <- <-]; by split].
  destruct (readFiles (ReadFile env) (CompiledGoFiles m)) as [cgfs|e2];
    [|intros [= <- <-]; by split].
  destruct (KeyHasher.computePackageKey _ _ _ _) as [phKey|]; [|done]. simpl.
  intros [= Hinstall]. apply installSection_spec in Hinstall as (Hmeta & Hmono & Hret).
  split; [|done]. eapply Grows_trans; [done|]. by split.
Qed.

(** A second call for the same ID returns the handle of the first. *)
Lemma buildPackageHandle_again env fuel fuel' id s h s' :
  buildPackageHandle env fuel id s = Some (Ok h, s') →
  buildPackageHandle env (S fuel') id s' = Some (Ok h, s').
Proof.
  intros Hfirst.
  destruct (buildPackageHandle_stored _ _ _ _ _ _ Hfirst) as ([Hmeta _] & Hstored).
  assert (is_Some (metadata s !! id)) as [m Hm].
  { destruct fuel as [|fuel]; [done|]. simpl in Hfirst. unfold lookupSection in Hfirst.
    destruct (metadata s !! id); [by eexists|]. by destruct (packages s !! id). }
  simpl. unfold lookupSection. by rewrite (Hstored h eq_refl), Hmeta, Hm.
Qed.

(** The loop over the dependencies, with a live context: it goes through
    all of them and returns a map, and it leaves out every dependency
    whose handle cannot be built. *)
Lemma depHandles_live (I : snapshot → Prop) build depIDs deps s :
  I s →
  (∀ d s1, d ∈ depIDs → I s1 → ∃ r s2, build d s1 = Some (r, s2) ∧ I s2) →
  ∃ deps' s', depHandles build None depIDs deps s = Some (Ok deps', s') ∧ I s'
    ∧ ∀ depID, (∀ s1 r s2, I s1 → build depID s1 = Some (r, s2) → is_ok r = false) →
        deps' !! depID = deps !! depID.
Proof.
  intros Hs Hbuild. revert deps s Hs.
  induction depIDs as [|d rest IH]; intros deps s Hs; simpl.
  - by exists deps, s.
  - destruct (Hbuild d s (list_elem_of_here _ _) Hs) as (r & s1 & Hd & Hs1). rewrite Hd.
    assert (∀ d s1, d ∈ rest → I s1 → ∃ r s2, build d s1 = Some (r, s2) ∧ I s2) as Hrest'.
    { intros d' s' Hin. apply Hbuild. by apply list_elem_of_further. }
    destruct r as [depHandle|err].
    + destruct (IH Hrest' (<[d := depHandle]> deps) s1 Hs1)
        as (deps' & s' & -> & Hs' & Hrest).
      exists deps', s'. split_and!; [done..|]. intros depID Hfails.
      rewrite (Hrest depID Hfails). apply lookup_insert_ne. intros ->.
      by apply (Hfails _ _ _ Hs) in Hd.
    + by apply IH.
Qed.

(** The same loop with a cancelled context: the first dependency whose
    handle cannot be built ends it with the error of the context. *)
Lemma depHandles_cancelled (I : snapshot → Prop) build cancelled depIDs deps s depID :
  I s →
  (∀ d s1, d ∈ depIDs → I s1 → ∃ r s2, build d s1 = Some (r, s2) ∧ I s2) →
  depID ∈ depIDs →
  (∀ s1 r s2, I s1 → build depID s1 = Some (r, s2) → is_ok r = false) →
  ∃ s', depHandles build (Some cancelled) depIDs deps s = Some (Err cancelled, s').
Proof.
  intros Hs Hbuild Hin Hfails. revert deps s Hs.
  induction depIDs as [|d rest IH]; intros deps s Hs; simpl.
  - by apply elem_of_nil in Hin.
  - destruct (Hbuild d s (list_elem_of_here _ _) Hs) as (r & s1 & Hd & Hs1). rewrite Hd.
    destruct r as [depHandle|err]; [|by eexists].
    apply elem_of_cons in Hin as [->|Hin].
    + by apply (Hfails _ _ _ Hs) in Hd.
    + apply IH; [|done..]. intros d' s' Hin'. apply Hbuild. by apply list_elem_of_further.
Qed.

(** [typeCheckInputs] when a dependency [depID] of the package has no
    handle: with a cancelled context the result is the error of the
    context; with a live context the call returns, it can only fail by
    failing to read a file, and the inputs it returns have no handle for
    [depID]. *)
Lemma typeCheckInputs_failed_dep (I : snapshot → Prop) env build m s depID path :
  RangeValid (rt env) →
  I s →
  (∀ d s1, (∃ q, DepsByPkgPath m !! q = Some d) → I s1 →
     ∃ r s2, build d s1 = Some (r, s2) ∧ I s2) →
  DepsByPkgPath m !! path = Some depID →
  (∀ s1 r s2, I s1 → build depID s1 = Some (r, s2) → is_ok r = false) →
  match ctx_Err env with
  | Some cancelled => ∃ s', typeCheckInputs env build m s = Some (Err cancelled, s')
  | None =>
      ∃ r s', typeCheckInputs env build m s = Some (r, s')
        ∧ (∀ e, r = Err e →
             readFiles (ReadFile env) (GoFiles m) = Err e
             ∨ readFiles (ReadFile env) (CompiledGoFiles m) = Err e)
        ∧ (∀ inputs, r = Ok inputs →
             deps inputs !! depID = None
             ∧ depsByImpPath inputs = DepsByImpPath m
             ∧ moduleMode inputs = s_moduleMode env)
  end.
Proof.
  intros Hrange Hs Hbuild Hpath Hfails. unfold typeCheckInputs.
  assert (depID ∈ rangeValues (rt env) (DepsByPkgPath m)) as Hin.
  { apply elem_of_rangeValues; eauto. }
  assert (∀ d s1, d ∈ rangeValues (rt env) (DepsByPkgPath m) → I s1 →
            ∃ r s2, build d s1 = Some (r, s2) ∧ I s2) as Hbuild'.
  { intros d s1 Hd%elem_of_rangeValues; [|done]. by apply Hbuild. }
  clear Hbuild. rename Hbuild' into Hbuild.
  destruct (ctx_Err env) as [cancelled|].
  - destruct (depHandles_cancelled I build cancelled _ ∅ s depID Hs Hbuild Hin Hfails)
      as (s' & ->). by eexists.
  - destruct (depHandles_live I build (rangeValues (rt env) (DepsByPkgPath m)) ∅ s Hs Hbuild)
      as (deps' & s' & -> & _ & Hdeps).
    destruct (readFiles (ReadFile env) (GoFiles m)) as [gfs|e1] eqn:Hgo.
    2:{ eexists _, _. split_and!; [done|intros e [= <-]; by left|done]. }
    destruct (readFiles (ReadFile env) (CompiledGoFiles m)) as [cgfs|e2] eqn:Hcompiled.
    2:{ eexists _, _. split_and!; [done|intros e [= <-]; by right|done]. }
    eexists _, _. split_and!; [done|done|]. intros inputs [= <-]. simpl.
    split_and!; [|done..]. by rewrite (Hdeps depID Hfails).
Qed.

Lemma depHandles_returns (I : snapshot → Prop) build ctxErr depIDs deps s :
  I s →
  (∀ d s1, d ∈ depIDs → I s1 → ∃ r s2, build d s1 = Some (r, s2) ∧ I s2) →
  ∃ r s', depHandles build ctxErr depIDs deps s = Some (r, s') ∧ I s'.
Proof.
  intros Hs Hbuild. revert deps s Hs.
  induction depIDs as [|d rest IH]; intros deps s Hs; simpl; [by eexists _, _|].
  destruct (Hbuild d s (list_elem_of_here _ _) Hs) as (r & s1 & -> & Hs1).
  assert (∀ d s1, d ∈ rest → I s1 → ∃ r s2, build d s1 = Some (r, s2) ∧ I s2) as Hrest.
  { intros d' s' Hin. apply Hbuild. by apply list_elem_of_further. }
  destruct r as [depHandle|err]; [by apply IH|].
  destruct ctxErr; [by eexists _, _|by apply IH].
Qed.

(** On metadata without import cycles, [buildPackageHandle] returns, and
    it leaves the metadata as it is. *)
Lemma buildPackageHandle_returns env (rank : PackageID → nat)
    (M : gmap PackageID Metadata) fuel id s :
  RangeValid (rt env) →
  (∀ id m path dep, M !! id = Some m → DepsByPkgPath m !! path = Some dep →
     rank dep < rank id) →
  metadata s = M →
  rank id < fuel →
  ∃ r s', buildPackageHandle env fuel id s = Some (r, s') ∧ metadata s' = M.
Proof.
  intros Hrange Hrank. revert id s.
  induction fuel as [|fuel IH]; intros id s HM Hlt; [lia|].
  simpl. unfold lookupSection. destruct (metadata s !! id) as [m|] eqn:Hm.
  2:{ destruct (packages s !! id); by eexists _, _. }
  destruct (packages s !! id) as [entry|]; [by eexists _, _|].
  unfold typeCheckInputs.
  assert (∀ d s1, d ∈ rangeValues (rt env) (DepsByPkgPath m) → metadata s1 = M →
            ∃ r s2, buildPackageHandle env fuel d s1 = Some (r, s2) ∧ metadata s2 = M)
    as Hdeps.
  { intros d s1 (q & Hq)%elem_of_rangeValues HM1; [|done]. apply IH; [done|].
    assert (rank d < rank id) by (eapply Hrank; [by rewrite <- HM|done]). lia. }
  destruct (depHandles_returns (λ s, metadata s = M) (buildPackageHandle env fuel)
              (ctx_Err env) (rangeValues (rt env) (DepsByPkgPath m)) ∅ s HM Hdeps)
    as ([deps'|err] & s' & -> & HM'); [|by eexists _, _].
  destruct (readFiles (ReadFile env) (GoFiles m)) as [gfs|e1]; [|by eexists _, _].
  destruct (readFiles (ReadFile env) (CompiledGoFiles m)) as [cgfs|e2]; [|by eexists _, _].
  unfold KeyHasher.computePackageKey, KeyHasher.packageKeyStream.
  match goal with
  | |- context [mapM (KeyHasher.depLine ?kenv ?inputs) (KeyHasher.sortStrings ?order)] =>
      destruct (depLines_is_Some kenv inputs order) as [lines ->]; [apply Hrange|]
  end.
  simpl.
  match goal with
  | |- context [installSection ?s1 ?id1 ?ph1] =>
      destruct (installSection s1 id1 ph1) as [r s2] eqn:Hinstall
  end.
  apply installSection_spec in Hinstall as (Hmeta & _).
  eexists _, _. split; [done|]. by rewrite Hmeta.
Qed.

(** A package without metadata has no handle. *)
Lemma buildPackageHandle_no_metadata env fuel id s r s' :
  metadata s !! id = None →
  buildPackageHandle env fuel id s = Some (r, s') → is_ok r = false.
Proof.
  destruct fuel as [|fuel]; [done|]. simpl. unfold lookupSection. intros ->.
  destruct (packages s !! id); by intros [= <- _].
Qed.

End HandleStoreFacts.

(** ** The type-check batch *)

Section BatchFacts.
Import Handles Batch.

Context {C : Type}.

(** The importer answers an import that resolves to a dependency without
    a handle with the error for a missing package. *)
Lemma importerFunc_missing_dep (env : Env) inputs
    (get : PackageID → typeCheckBatch C → option (pkgOrErr * typeCheckBatch C))
    path depID (b : typeCheckBatch C) :
  depsByImpPath inputs !! path = Some depID →
  deps inputs !! depID = None →
  importerFunc env inputs get path b
  = Some (returnErr (missingPkgError path (moduleMode inputs)), b).
Proof. intros Hpath Hdep. unfold importerFunc. by rewrite Hpath, Hdep. Qed.

Lemma handleSyntaxPackage_await_failure (env : Env) fuel (b b1 : typeCheckBatch C)
    i id ph awaitErr :
  syntaxPackages b !! id = None →
  buildPackageHandle env id = Ok ph →
  prePasses b i ph →
  awaitPredecessors env (getImportPackage env fuel) (ph_m ph) (awaiting b id)
    = Some (Some awaitErr, b1) →
  match ctx_Err env with
  | Some cancelled =>
      ∃ b', handleSyntaxPackage env (S fuel) i id b = Some (returnErr cancelled, b')
  | None =>
      ∀ syntaxPkg c,
        checkPackage env ph (importPackages b1) = Ok syntaxPkg →
        post b1 i syntaxPkg (client b1) = Some c →
        ∃ b', handleSyntaxPackage env (S fuel) i id b
              = Some (returnPkg (TypeCheck.types (p_pkg syntaxPkg)), b')
          ∧ client b' = c
          ∧ syntaxPackages b' !! id
            = Some (Some (returnPkg (TypeCheck.types (p_pkg syntaxPkg))))
  end.
Proof.
  intros Hfresh Hph Hpre Hawait. simpl. unfold handleSyntaxPackageBody.
  rewrite Hfresh, Hph.
  assert ((match pre b with Some pre => negb (pre i ph) | None => false end) = false)
    as Hpre'.
  { unfold prePasses in Hpre. destruct (pre b); [by rewrite Hpre|done]. }
  simpl. rewrite Hpre'. unfold awaiting in Hawait. rewrite Hawait.
  destruct (ctx_Err env) as [cancelled|]; [by eexists|].
  intros syntaxPkg c Hcheck Hpost. unfold checkAndPost. simpl.
  rewrite Hcheck. simpl. rewrite Hpost. simpl.
  eexists. split_and!; [done..|]. simpl. apply lookup_insert_eq.
Qed.

(** [getImportPackage] on the ID [unsafe] in a batch that was not asked
    for the syntax of [unsafe]: the call returns [types.Unsafe] and
    records no call to a collaborator. *)
Lemma getImportPackage_unsafe (env : Env) fuel (b : typeCheckBatch C) :
  syntaxIndex b !! "unsafe" = None →
  importPackages b !! "unsafe" = None
  ∨ (importPackages b !! "unsafe" = Some (Some (returnPkg Unsafe)) ∧ ctx_Err env = None) →
  ∃ b', getImportPackage env (S fuel) "unsafe" b = Some (returnPkg Unsafe, b')
    ∧ log b' = log b
    ∧ client b' = client b
    ∧ importPackages b' !! "unsafe" = Some (Some (returnPkg Unsafe)).
Proof.
  intros Hindex [Hfresh|[Hdone Hlive]]; simpl; unfold getImportPackageBody.
  - rewrite Hfresh. simpl. rewrite Hindex. unfold importFromHandle. simpl.
    eexists. split_and!; [done..|]. simpl. apply lookup_insert_eq.
  - rewrite Hdone. unfold awaitFuture. rewrite Hlive. simpl. by eexists.
Qed.

(** C3. A direct dependency that cannot be built or awaited does not fail
    the package that is checked.  In [typeCheckInputs], a dependency
    [depID] of [m] whose handle cannot be built is left out of the inputs,
    and the importer of the checker then answers the imports of it with
    an error; in [handleSyntaxPackage], an error of [awaitPredecessors] is
    dropped and the package is checked.  When the context is cancelled,
    both return the error of the context instead. *)
Theorem dependency_failure_is_not_fatal
    (I : HandleStore.snapshot → Prop) (senv : HandleStore.Env)
    (build : PackageID → HandleStore.snapshot
             → option (result packageHandle * HandleStore.snapshot))
    (m : Metadata) (s : HandleStore.snapshot) (depID : PackageID) (path : PackagePath)
    (env : Env) (fuel : nat) (b b1 : typeCheckBatch C) (i : nat) (id : PackageID)
    (ph : packageHandle) (awaitErr : error) :
  RangeValid (HandleStore.rt senv) →
  I s →
  (∀ d s1, (∃ q, DepsByPkgPath m !! q = Some d) → I s1 →
     ∃ r s2, build d s1 = Some (r, s2) ∧ I s2) →
  DepsByPkgPath m !! path = Some depID →
  (∀ s1 r s2, I s1 → build depID s1 = Some (r, s2) → is_ok r = false) →
  syntaxPackages b !! id = None →
  buildPackageHandle env id = Ok ph →
  prePasses b i ph →
  awaitPredecessors env (getImportPackage env fuel) (ph_m ph) (awaiting b id)
    = Some (Some awaitErr, b1) →
  inputsWithoutFailedDep (C := C) senv env build m s depID
  ∧ checkedDespiteFailedDep env fuel b b1 i id ph.
Proof.
  intros Hrange Hs Hbuild Hpath Hfails Hfresh Hph Hpre Hawait. split.
  - pose proof (typeCheckInputs_failed_dep I senv build m s depID path
                  Hrange Hs Hbuild Hpath Hfails) as Hinputs.
    unfold inputsWithoutFailedDep. destruct (HandleStore.ctx_Err senv); [done|].
    destruct Hinputs as (r & s' & Hr & Hio & Hok). exists r, s'.
    split_and!; [done..|]. intros inputs Hinputs.
    destruct (Hok inputs Hinputs) as (Hnone & _ & _). split; [done|].
    intros imp get b0 Himp. by apply importerFunc_missing_dep with depID.
  - by eapply handleSyntaxPackage_await_failure.
Qed.

(** *** The slots of the requests *)

Section Slots.
Context (env : Env) (before : C → C → Prop) (Filled : C → nat → Prop).

Local Abbreviation Ready := (Ready before Filled).
Local Abbreviation Later := (Later before Filled).
Local Abbreviation Posted := (Posted Filled).
Local Abbreviation Keeps := (Keeps before Filled).
Local Abbreviation Completes := (Completes before Filled).

Lemma Later_refl (b : typeCheckBatch C) : Ready b → Later b b.
Proof. intros [_ Hpost]. split_and!; [done..|by apply Hpost|done]. Qed.

Lemma Later_trans (b1 b2 b3 : typeCheckBatch C) :
  Ready b1 → Later b1 b2 → Later b2 b3 → Later b1 b3.
Proof.
  intros [_ Hpost] (Hi1 & Hpre1 & Hpost1 & Hb1 & Hp1) (Hi2 & Hpre2 & Hpost2 & Hb2 & Hp2).
  split_and!; [congruence..| |auto]. by eapply (before_trans _ _ _ Hpost).
Qed.

Lemma Later_Ready (b b' : typeCheckBatch C) : Ready b → Later b b' → Ready b'.
Proof. intros [Hpre Hpost] (_ & Hpre' & Hpost' & _). split; congruence. Qed.

Lemma Later_record (b : typeCheckBatch C) ev : Ready b → Later b (record b ev).
Proof. intros [_ Hpost]. split_and!; [done..|by apply Hpost|done]. Qed.

Lemma Later_setImportPackages (b : typeCheckBatch C) m :
  Ready b → Later b (setImportPackages b m).
Proof. intros [_ Hpost]. split_and!; [done..|by apply Hpost|done]. Qed.

Lemma callEach_later {K} (f : K → typeCheckBatch C → option (pkgOrErr * typeCheckBatch C))
    (requests : list K) b rs b' :
  Keeps f → Ready b → callEach f requests b = Some (rs, b') → Later b b'.
Proof.
  intros Hf. revert b rs. induction requests as [|k rest IH]; intros b rs Hready; simpl.
  - intros [= _ <-]. by apply Later_refl.
  - destruct (f k b) as [[r b1]|] eqn:Hk; [|done].
    destruct (callEach f rest b1) as [[rs1 b2]|] eqn:Hrest; [|done].
    intros [= _ <-]. pose proof (Hf _ _ _ _ Hready Hk) as H1.
    eapply Later_trans; [done..|]. eapply IH; [|done]. by eapply Later_Ready.
Qed.

Lemma importerFunc_keeps inputs get :
  Keeps get → Keeps (importerFunc env inputs get).
Proof.
  intros Hget path b r b' Hready. unfold importerFunc.
  destruct (depsByImpPath inputs !! path) as [id|];
    [|intros [= _ <-]; by apply Later_refl].
  destruct (deps inputs !! id) as [depPH|]; [|intros [= _ <-]; by apply Later_refl].
  destruct (IsValidImport env _ _); [|intros [= _ <-]; by apply Later_refl].
  by apply Hget.
Qed.

Lemma checkPackageForImport_later get ph (b : typeCheckBatch C) r b' :
  Keeps get → Ready b →
  checkPackageForImport env get ph b = Some (r, b') → Later b b'.
Proof.
  intros Hget Hready. unfold checkPackageForImport.
  pose proof (Later_record b (EvParseFiles (ID (ph_m ph))) Hready) as H1.
  pose proof (Later_Ready _ _ Hready H1) as Hready1.
  destruct (parseFiles env _); [|by intros [= _ <-]].
  destruct (ctx_Err env); [by intros [= _ <-]|].
  pose proof (Later_record _ (EvCheckFiles (ID (ph_m ph))) Hready1) as H2.
  pose proof (Later_Ready _ _ Hready1 H2) as Hready2.
  destruct (callEach _ _ _) as [[rs b2]|] eqn:Hcalls; [|done].
  intros [= _ <-]. eapply Later_trans; [done..|]. eapply Later_trans; [done..|].
  eapply callEach_later; [|done..]. by apply importerFunc_keeps.
Qed.

Lemma importPackage_later fuel get m data (b : typeCheckBatch C) r b' :
  Keeps get → Ready b →
  importPackage fuel env get m data b = Some (r, b') → Later b b'.
Proof.
  intros Hget Hready. unfold importPackage.
  destruct (importMap fuel env b (ID m)) as [impMap|]; [|done]. simpl.
  destruct (ctx_Err env); [intros [= _ <-]; by apply Later_refl|].
  pose proof (Later_record b (EvImportShallow (ID m)) Hready) as H1.
  pose proof (Later_Ready _ _ Hready H1) as Hready1.
  destruct (callEach _ _ _) as [[rs b2]|] eqn:Hcalls; [|done].
  assert (Later (record b (EvImportShallow (ID m))) b2) as H2.
  { eapply callEach_later; [|done..]. intros path b0 r0 b0' Hr0. apply Hget, Hr0. }
  destruct (IImportShallow env m data _); intros [= _ <-];
    exact (Later_trans _ _ _ Hready H1 H2).
Qed.

Lemma importFromHandle_later fuel get id (b : typeCheckBatch C) r b' :
  Keeps get → Ready b →
  importFromHandle env fuel get id b = Some (r, b') → Later b b'.
Proof.
  intros Hget Hready. unfold importFromHandle.
  case_decide; [intros [= _ <-]; by apply Later_refl|].
  pose proof (Later_record b (EvBuildHandle id) Hready) as H1.
  pose proof (Later_Ready _ _ Hready H1) as Hready1.
  destruct (buildPackageHandle env id) as [ph|e]; [|by intros [= _ <-]].
  pose proof (Later_record _ (EvCacheGet (ph_key ph)) Hready1) as H2.
  pose proof (Later_Ready _ _ Hready1 H2) as Hready2.
  destruct (filecache_Get env (ph_key ph)) as [[data|]|e].
  - intros Himport. eapply Later_trans; [done..|]. eapply Later_trans; [done..|].
    by eapply importPackage_later.
  - intros Hcheck. eapply Later_trans; [done..|]. eapply Later_trans; [done..|].
    by eapply checkPackageForImport_later.
  - intros [= _ <-]. by eapply Later_trans.
Qed.

Lemma getImportPackageBody_keeps fuel get handle :
  Keeps get → Completes handle →
  Keeps (getImportPackageBody env fuel get handle).
Proof.
  intros Hget Hhandle id b r b' Hready. unfold getImportPackageBody.
  destruct (importPackages b !! id) as [f|].
  { destruct (awaitFuture env id f); simpl; [|done]. intros [= _ <-]. by apply Later_refl. }
  pose proof (Later_setImportPackages b (<[id := None]> (importPackages b)) Hready) as H1.
  pose proof (Later_Ready _ _ Hready H1) as Hready1.
  match goal with
  | |- match ?returned with _ => _ end = _ → _ =>
      destruct returned as [[v b2]|] eqn:Hreturned; [|done]
  end.
  intros [= _ <-].
  assert (Later (setImportPackages b (<[id := None]> (importPackages b))) b2) as H2.
  { simpl in Hreturned. destruct (syntaxIndex b !! id) as [index|] eqn:Hindex.
    - destruct (handle index id _) as [[r1 b1]|] eqn:Hcall; [|done].
      destruct (Hhandle _ _ _ _ _ Hready1 Hindex Hcall) as [H3 _].
      destruct (err r1), (pkg r1); try (injection Hreturned as _ <-; done).
      eapply Later_trans; [done..|].
      eapply (importFromHandle_later fuel get id); [done| |done].
      by eapply Later_Ready.
    - exact (importFromHandle_later fuel get id _ _ _ Hget Hready1 Hreturned). }
  pose proof (Later_Ready _ _ Hready1 H2) as Hready2.
  exact (Later_trans _ _ _ Hready H1
           (Later_trans _ _ _ Hready1 H2 (Later_setImportPackages _ _ Hready2))).
Qed.

Lemma Later_inflight (b : typeCheckBatch C) id :
  Ready b → Later b (setSyntaxPackages b (<[id := None]> (syntaxPackages b))).
Proof.
  intros [_ Hpost]. split_and!; [done..|by apply Hpost|].
  intros Hposted id' v. simpl.
  intros [[_ [=]]|[_ Hl]]%lookup_insert_Some. by apply Hposted.
Qed.

Lemma checkAndPost_later i id ph (b : typeCheckBatch C) v b' :
  Ready b →
  checkAndPost env i id ph b = Some (v, b') →
  Later b b' ∧ (err v = None → Filled (client b') i).
Proof.
  intros Hready. pose proof Hready as [_ Hpost]. unfold checkAndPost. simpl.
  destruct (checkPackage env ph (importPackages b)) as [syntaxPkg|e].
  2:{ intros [= <- <-]. split; [by apply Later_record|done]. }
  destruct (post b i syntaxPkg (client b)) as [c|] eqn:Hc; [|done]. simpl.
  intros [= <- <-]. split; [|intros _; by eapply (post_fills _ _ _ Hpost)].
  pose proof (post_before _ _ _ Hpost _ _ _ _ Hc) as Hbefore.
  split_and!; [done..|]. intros Hposted id' v' Hl Herr.
  destruct (Hposted id' v' Hl Herr) as (i' & Hi' & Hfilled).
  exists i'. split; [done|]. by eapply (filled_before _ _ _ Hpost).
Qed.

Lemma awaitPredecessors_later get m (b : typeCheckBatch C) e b' :
  Keeps get → Ready b → awaitPredecessors env get m b = Some (e, b') → Later b b'.
Proof.
  intros Hget Hready. unfold awaitPredecessors.
  destruct (callEach _ _ _) as [[rs b1]|] eqn:Hcalls; [|done].
  intros [= _ <-]. by eapply callEach_later.
Qed.

Lemma handleSyntaxPackageBody_handles get :
  Keeps get → Completes (handleSyntaxPackageBody env get).
Proof.
  intros Hget i id b r b' Hready Hindex. unfold handleSyntaxPackageBody.
  destruct (syntaxPackages b !! id) as [f|] eqn:Hf.
  { destruct f as [v|]; simpl; [|done]. intros [= <- <-].
    split; [by apply Later_refl|]. intros Herr. by exists v. }
  pose proof (Later_inflight b id Hready) as H1.
  pose proof (Later_Ready _ _ Hready H1) as Hready1.
  pose proof (Later_record _ (EvBuildHandle id) Hready1) as H2.
  pose proof (Later_Ready _ _ Hready1 H2) as Hready2.
  pose proof (Later_trans _ _ _ Hready H1 H2) as H12.
  match goal with
  | |- match ?returned with _ => _ end = _ → _ =>
      destruct returned as [[v b2]|] eqn:Hreturned; [|done]
  end.
  intros [= <- <-].
  assert (Later b b2 ∧ (err v = None → Filled (client b2) i)) as [H3 Hfilled].
  { destruct (buildPackageHandle env id) as [ph|e]; [|by injection Hreturned as <- <-].
    assert (pre (record (setSyntaxPackages b (<[id := None]> (syntaxPackages b)))
                        (EvBuildHandle id)) = None) as Hpre by apply Hready2.
    rewrite Hpre in Hreturned.
    destruct (awaitPredecessors _ _ _ _) as [[awaitErr b1]|] eqn:Hawait; [|done].
    pose proof (awaitPredecessors_later _ _ _ _ _ Hget Hready2 Hawait) as H4.
    pose proof (Later_Ready _ _ Hready2 H4) as Hready4.
    pose proof (Later_trans _ _ _ Hready H12 H4) as H124.
    assert (∀ v b2, checkAndPost env i id ph b1 = Some (v, b2) →
              Later b b2 ∧ (err v = None → Filled (client b2) i)) as Hcheck.
    { intros v0 b0 Hc. destruct (checkAndPost_later _ _ _ _ _ _ Hready4 Hc) as [H5 H6].
      split; [|done]. exact (Later_trans _ _ _ Hready H124 H5). }
    destruct awaitErr, (ctx_Err env); try destruct (selectDone env id);
      try (injection Hreturned as <- <-; done); by apply Hcheck. }
  pose proof (Later_Ready _ _ Hready H3) as Hready3.
  pose proof Hready3 as [_ Hpost3].
  split.
  - eapply Later_trans; [done..|].
    split_and!; [done..|by apply Hpost3|].
    intros Hposted id' v'. simpl.
    intros [[<- [= <-]]|[_ Hl]]%lookup_insert_Some Herr;
      [|exact (Hposted id' v' Hl Herr)].
    exists i. split; [|by apply Hfilled].
    destruct H3 as (-> & _). done.
  - intros Herr. exists v. split; [|done]. simpl. apply lookup_insert_eq.
Qed.

Lemma batch_later fuel :
  Keeps (getImportPackage env fuel) ∧ Completes (handleSyntaxPackage env fuel).
Proof.
  induction fuel as [|fuel [IHget IHhandle]].
  - split; [intros ?????|intros ???????]; done.
  - split.
    + by apply getImportPackageBody_keeps.
    + by apply handleSyntaxPackageBody_handles.
Qed.

(** The goroutines of the requested packages lead to a later state of
    the batch; if none of them returns an error, every request has its
    slot filled. *)
Lemma goEach_syntax_filled handle (requests : list (nat * PackageID))
    (b : typeCheckBatch C) e b' :
  Completes handle → Ready b → Posted b →
  (∀ r, r ∈ requests → syntaxIndex b !! r.2 = Some r.1) →
  goEach (λ r, handle r.1 r.2) requests b = Some (e, b') →
  Later b b' ∧ (e = None → ∀ r, r ∈ requests → Filled (client b') r.1).
Proof.
  intros Hhandle. revert b e.
  induction requests as [|[i id] rest IH]; intros b e Hready Hposted Hindex; simpl.
  - intros [= <- <-]. split; [by apply Later_refl|]. by intros _ r []%elem_of_nil.
  - destruct (handle i id b) as [[r1 b1]|] eqn:Hcall; [|done].
    destruct (goEach _ rest b1) as [[e1 b2]|] eqn:Hrest; [|done].
    intros [= He <-].
    pose proof (Hindex (i, id) (list_elem_of_here _ _)) as Hi. simpl in Hi.
    destruct (Hhandle i id b r1 b1 Hready Hi Hcall) as [H1 Hdone].
    pose proof (Later_Ready _ _ Hready H1) as Hready1.
    pose proof H1 as (Hsame & _ & _ & _ & Hkeep).
    pose proof (Hkeep Hposted) as Hposted1.
    destruct (IH b1 e1 Hready1 Hposted1) as (H2 & Hrestfilled); [|done|].
    { intros r Hr. rewrite Hsame. apply Hindex. by apply list_elem_of_further. }
    split; [exact (Later_trans _ _ _ Hready H1 H2)|].
    intros ->. destruct (err r1) as [e0|] eqn:Herr1; [done|]. subst e1.
    intros r [->|Hr]%elem_of_cons; [|by apply Hrestfilled]. simpl.
    destruct (Hdone eq_refl) as (v & Hv & Hverr).
    destruct (Hposted1 id v Hv Hverr) as (i' & Hi' & Hfilled).
    rewrite Hsame, Hi in Hi'. injection Hi' as <-.
    destruct Hready1 as [_ Hpost1]. destruct H2 as (_ & _ & _ & Hbefore & _).
    by eapply (filled_before _ _ _ Hpost1).
Qed.

End Slots.

(** C9 (as amended). In a batch that was not asked for the syntax of
    [unsafe], [getImportPackage] with the ID [unsafe] returns
    [types.Unsafe], whether the call is the first for that ID or, with a
    live context, finds the future of an earlier one; it builds no handle
    and does not consult the export-data cache (it records no call at all),
    and it leaves the future completed with [types.Unsafe].  A full type
    check of a package whose path is [unsafe] does not run the type
    checker; unless a file cannot be parsed, it returns a package whose
    types are [types.Unsafe] and that has no type error. *)
Theorem unsafe_is_the_canonical_package (env : Env) (fuel : nat) (b : typeCheckBatch C)
    (tenv : TypeCheck.Env) (inputs : typeCheckInputs) :
  syntaxIndex b !! "unsafe" = None →
  importPackages b !! "unsafe" = None
  ∨ (importPackages b !! "unsafe" = Some (Some (returnPkg Unsafe)) ∧ ctx_Err env = None) →
  pkgPath inputs = "unsafe" →
  (∃ b', getImportPackage env (S fuel) "unsafe" b = Some (returnPkg Unsafe, b')
     ∧ log b' = log b
     ∧ client b' = client b
     ∧ importPackages b' !! "unsafe" = Some (Some (returnPkg Unsafe)))
  ∧ (∀ id, TypeCheck.EvCheckFiles id ∉ (TypeCheck.typeCheckImpl tenv inputs).2)
  ∧ match (TypeCheck.typeCheckImpl tenv inputs).1 with
    | Ok pkg => TypeCheck.types pkg = Unsafe ∧ TypeCheck.typeErrors pkg = []
    | Err e => TypeCheck.parseFiles tenv (goFiles inputs) = Err e
               ∨ TypeCheck.parseFiles tenv (compiledGoFiles inputs) = Err e
    end.
Proof.
  intros Hindex Hfuture Hunsafe. split.
  - by apply getImportPackage_unsafe.
  - by apply typeCheckImpl_unsafe.
Qed.

End BatchFacts.

(** *** The slice that [TypeCheck] returns *)

Section Slices.
Import Handles Batch.
Context {A : Type} (s : Snapshot A).

Lemma postTypeCheck_fills (indexes : list nat) :
  PostFills sliceBefore (requestFilled indexes) (postTypeCheck s indexes).
Proof.
  assert (∀ i pkg c c', postTypeCheck s indexes i pkg c = Some c' →
            ∃ pos pkg', indexes !! i = Some pos ∧ pos < length c.1
                        ∧ c'.1 = <[pos := Some pkg']> c.1) as Hpost.
  { intros i pkg [pkgs active] c'. unfold postTypeCheck. simpl.
    destruct (memoizeActivePackage s _ pkg active) as [alt active'].
    destruct (indexes !! i) as [pos|]; simpl; [|done].
    case_decide; [|done]. intros [= <-]. by eexists _, _. }
  split.
  - by intros c.
  - intros c1 c2 c3 [Hl1 H1] [Hl2 H2]. split; [congruence|auto].
  - intros i pkg c c' (pos & pkg' & _ & Hlt & Hc')%Hpost.
    unfold sliceBefore, slotFilled. rewrite Hc'. split.
    + by rewrite length_insert.
    + intros pos' [pkg0 Hpkg0]. destruct (decide (pos = pos')) as [<-|Hne].
      * exists pkg'. by apply list_lookup_insert_eq.
      * exists pkg0. by rewrite list_lookup_insert_ne.
  - intros i pkg c c' (pos & pkg' & Hi & Hlt & Hc')%Hpost.
    exists pos. split; [done|]. exists pkg'. rewrite Hc'. by apply list_lookup_insert_eq.
  - intros i c c' [_ Hkeep] (pos & Hi & Hpos). exists pos. auto.
Qed.

Lemma syntaxIndex_lookup (ids : list PackageID) :
  ∀ (index : gmap PackageID nat) k, NoDup ids →
    (∀ j id, ids !! j = Some id →
       foldl (λ index r, <[r.2 := r.1]> index) index (imap (λ i x, (k + i, x)) ids) !! id
       = Some (k + j))
    ∧ (∀ id, id ∉ ids →
         foldl (λ index r, <[r.2 := r.1]> index) index (imap (λ i x, (k + i, x)) ids) !! id
         = index !! id).
Proof.
  induction ids as [|x ids IH]; intros index k Hnodup.
  { split; [by intros j id|done]. }
  apply NoDup_cons in Hnodup as [Hx Hnodup]. simpl.
  assert (imap ((λ i y, (k + i, y)) ∘ S) ids = imap (λ i y, (S k + i, y)) ids) as ->.
  { apply imap_ext. intros i y _. simpl. f_equal. lia. }
  destruct (IH (<[x := k + 0]> index) (S k) Hnodup) as [IHin IHout]. split.
  - intros [|j] id Hid; simpl in Hid.
    + injection Hid as <-. rewrite (IHout x Hx). apply lookup_insert_eq.
    + rewrite (IHin j id Hid). f_equal. lia.
  - intros id [Hne Hid]%not_elem_of_cons. rewrite (IHout id Hid).
    by apply lookup_insert_ne.
Qed.

Lemma activePackages_spec (active : A) (ids : list PackageID) :
  ∀ k pkgs needIDs indexes,
    activePackages s active k ids = (pkgs, needIDs, indexes) →
    length pkgs = length ids
    ∧ length indexes = length needIDs
    ∧ sublist needIDs ids
    ∧ ∀ pos, pos < length ids → slotFilled pkgs pos ∨ ∃ j, indexes !! j = Some (k + pos).
Proof.
  induction ids as [|id rest IH]; intros k pkgs needIDs indexes; simpl.
  { intros [= <- <- <-]. split_and!; [done..|]. intros pos Hpos. simpl in Hpos. lia. }
  destruct (activePackages s active (S k) rest) as [[pkgs0 needIDs0] indexes0] eqn:Hrest.
  destruct (IH _ _ _ _ Hrest) as (Hlen & Hlen' & Hsub & Hslots).
  assert (∀ pos, pos < length rest →
            slotFilled pkgs0 pos ∨ ∃ j, indexes0 !! j = Some (k + S pos)) as Hslots'.
  { intros pos Hpos. destruct (Hslots pos Hpos) as [?|[j Hj]]; [by left|].
    right. exists j. rewrite Hj. f_equal. lia. }
  destruct (getActivePackage s active id) as [pkg|]; intros [= <- <- <-]; simpl.
  - split_and!; [by f_equal|done|by apply sublist_cons|].
    intros [|pos] Hpos; [left; by exists pkg|].
    destruct (Hslots' pos) as [[pkg0 Hpkg0]|[j Hj]]; [lia| |].
    + left. by exists pkg0.
    + right. by exists j.
  - split_and!; [by f_equal|by f_equal|by apply sublist_skip|].
    intros [|pos] Hpos.
    + right. exists 0. simpl. f_equal. lia.
    + destruct (Hslots' pos) as [[pkg0 Hpkg0]|[j Hj]]; [lia| |].
      * left. by exists pkg0.
      * right. by exists (S j).
Qed.

(** [TypeCheck] asked for packages that are all different: the slice it
    returns has one entry for each of them and, when it returns no error,
    none of the entries is nil. *)
Lemma TypeCheck_distinct_ids (env : Env) (fuel : nat) (active : A)
    (ids : list PackageID) pkgs e active' :
  NoDup ids →
  TypeCheck env fuel s active ids = Some (pkgs, e, active') →
  length pkgs = length ids
  ∧ (e = None → ∀ pos, pos < length ids → slotFilled pkgs pos).
Proof.
  intros Hnodup. unfold TypeCheck.
  destruct (activePackages s active 0 ids) as [[pkgs0 needIDs] indexes] eqn:Hactive.
  destruct (activePackages_spec _ _ _ _ _ _ Hactive) as (Hlen & Hlen' & Hsub & Hslots).
  unfold forEachPackage.
  destruct needIDs as [|id0 needIDs0] eqn:Hneed.
  { intros [= <- <- <-]. split; [done|]. intros _ pos Hpos.
    destruct (Hslots pos Hpos) as [?|[j Hj]]; [done|].
    apply length_zero_iff_nil in Hlen'. by rewrite Hlen' in Hj. }
  rewrite <- Hneed in *. clear Hneed id0 needIDs0.
  unfold forEachPackageInternal.
  set (b0 := {| syntaxIndex := _ |}).
  change (goEach (getImportPackage env fuel) [] b0) with (Some (@None error, b0)).
  cbv iota beta.
  destruct (goEach _ (imap pair needIDs) b0) as [[e2 b]|] eqn:Hgo; [|done].
  destruct (client b) as [pkgs1 active1] eqn:Hclient. intros [= <- <- <-].
  pose (before := @sliceBefore A). pose (Filled := @requestFilled A indexes).
  assert (Ready before Filled b0) as Hready.
  { split; [done|]. apply postTypeCheck_fills. }
  assert (Posted Filled b0) as Hposted by (by intros id v).
  assert (∀ r, r ∈ imap pair needIDs → syntaxIndex b0 !! r.2 = Some r.1) as Hindex.
  { intros r (j & id & -> & Hj)%elem_of_lookup_imap. simpl.
    destruct (syntaxIndex_lookup needIDs ∅ 0 (sublist_NoDup _ _ Hnodup Hsub)) as [Hin _].
    by apply Hin. }
  destruct (batch_later env before Filled fuel) as [_ Hhandle].
  destruct (goEach_syntax_filled before Filled
              (handleSyntaxPackage env fuel) _ _ _ _ Hhandle Hready Hposted Hindex Hgo)
    as ((_ & _ & _ & [Hl Hkeep] & _) & Hfilled).
  rewrite Hclient in Hl, Hkeep, Hfilled. simpl in Hl, Hkeep.
  split; [congruence|]. intros ->. specialize (Hfilled eq_refl).
  intros pos Hpos. destruct (Hslots pos Hpos) as [Hpkg|[j Hj]]; [by apply Hkeep|].
  assert (is_Some (needIDs !! j)) as [id Hid].
  { apply lookup_lt_is_Some. rewrite <- Hlen'. by eapply lookup_lt_Some. }
  destruct (Hfilled (j, id)) as (pos' & Hj' & Hpkg).
  { apply elem_of_lookup_imap. by exists j, id. }
  simpl in Hj'. rewrite Hj in Hj'. by injection Hj' as <-.
Qed.

End Slices.

Section BatchRuns.
Import Handles Batch.

Lemma fixedRuntime_valid : RangeValid fixedRuntime.
Proof. intros V m. unfold rangeOrder. simpl. reflexivity. Qed.

Lemma rank_check (M : gmap PackageID Metadata) (rank : PackageID → nat) :
  map_Forall (λ id m, map_Forall (λ _ dep, rank dep < rank id) (DepsByPkgPath m)) M →
  ∀ id m path dep, M !! id = Some m → DepsByPkgPath m !! path = Some dep →
    rank dep < rank id.
Proof. intros Hall id m path dep Hm Hpath. by eapply Hall. Qed.

Lemma dependency_failure_is_not_fatal_witness :
  inputsWithoutFailedDep (C := list (option Package))
    (workspaceStore None) (workspaceEnv None)
    (HandleStore.buildPackageHandle (workspaceStore None) 5)
    (ImportGraph.packageMeta 4 "p" ["gone"]) workspaceStart "gone"
  ∧ checkedDespiteFailedDep (workspaceEnv None) 4 (freshBatch ["p"]) awaitedGone 0 "p" pHandle.
Proof.
  apply (dependency_failure_is_not_fatal
           (λ s, HandleStore.metadata s = workspace) (workspaceStore None)
           (HandleStore.buildPackageHandle (workspaceStore None) 5)
           (ImportGraph.packageMeta 4 "p" ["gone"]) workspaceStart "gone" "gone"
           (workspaceEnv None) 4 (freshBatch ["p"]) awaitedGone 0 "p" pHandle
           "no metadata for gone").
  - apply fixedRuntime_valid.
  - reflexivity.
  - intros d s1 _ HM.
    apply (buildPackageHandle_returns (workspaceStore None) workspaceRank workspace 5 d s1);
      [apply fixedRuntime_valid| |done|].
    + apply rank_check. eapply bool_decide_unpack. vm_compute. exact I.
    + unfold workspaceRank. repeat case_decide; lia.
  - vm_compute. reflexivity.
  - intros s1 r s2 HM Hbuild.
    eapply buildPackageHandle_no_metadata; [|done]. rewrite HM. vm_compute. reflexivity.
  - reflexivity.
  - vm_compute. reflexivity.
  - exact I.
  - vm_compute. reflexivity.
Defined.

Lemma unsafe_is_the_canonical_package_witness :
  (∃ b', getImportPackage (workspaceEnv None) 1 "unsafe" (freshBatch ["a"])
         = Some (returnPkg Unsafe, b')
     ∧ log b' = log (freshBatch ["a"])
     ∧ client b' = client (freshBatch ["a"])
     ∧ importPackages b' !! "unsafe" = Some (Some (returnPkg Unsafe)))
  ∧ (∀ id, TypeCheck.EvCheckFiles id
           ∉ (TypeCheck.typeCheckImpl TypeCheck.repairedEnv unsafeInputs).2)
  ∧ match (TypeCheck.typeCheckImpl TypeCheck.repairedEnv unsafeInputs).1 with
    | Ok pkg => TypeCheck.types pkg = Unsafe ∧ TypeCheck.typeErrors pkg = []
    | Err e => TypeCheck.parseFiles TypeCheck.repairedEnv (goFiles unsafeInputs) = Err e
               ∨ TypeCheck.parseFiles TypeCheck.repairedEnv (compiledGoFiles unsafeInputs)
                 = Err e
    end.
Proof.
  apply (unsafe_is_the_canonical_package (workspaceEnv None) 0 (freshBatch ["a"])
           TypeCheck.repairedEnv unsafeInputs).
  - vm_compute. reflexivity.
  - left. vm_compute. reflexivity.
  - reflexivity.
Defined.

(** When the batch was asked for the syntax of [unsafe],
    [getImportPackage] hands the request to [handleSyntaxPackage], which
    builds the handle of [unsafe] and has it checked: the call does not
    leave the record of calls as it found it. *)
Lemma getImportPackage_unsafe_requested_builds_handle :
  (∃ b', getImportPackage (workspaceEnv None) 5 "unsafe" (freshBatch ["unsafe"])
         = Some (returnPkg Unsafe, b')
     ∧ log b' = [EvBuildHandle "unsafe"; EvCheckPackage "unsafe"; EvPost 0 "unsafe"])
  ∧ ¬ (syntaxIndex (freshBatch ["unsafe"]) !! "unsafe" = None)
  ∧ ¬ ∃ b', getImportPackage (workspaceEnv None) 5 "unsafe" (freshBatch ["unsafe"])
            = Some (returnPkg Unsafe, b')
        ∧ log b' = log (freshBatch ["unsafe"]).
Proof.
  assert (∃ b', getImportPackage (workspaceEnv None) 5 "unsafe" (freshBatch ["unsafe"])
                = Some (returnPkg Unsafe, b')
            ∧ log b' = [EvBuildHandle "unsafe"; EvCheckPackage "unsafe"; EvPost 0 "unsafe"])
    as Hrun.
  { eexists. split; [vm_compute; reflexivity|]. reflexivity. }
  split_and!; [done|by vm_compute|].
  destruct Hrun as (b1 & Hrun & Hlog). intros (b2 & Hrun2 & Hlog2).
  rewrite Hrun in Hrun2. injection Hrun2 as <-. by rewrite Hlog in Hlog2.
Qed.

(** [TypeCheck] asked for the packages [a] and [c]: both entries of the
    slice are packages.  With a cancelled context it returns the error of
    the context and a slice of two nil entries. *)
Example TypeCheck_workspace_distinct :
  ∃ pkgA pkgC active,
    TypeCheck (workspaceEnv None) 5 workspaceSnapshot ∅ ["a"; "c"]
    = Some ([Some pkgA; Some pkgC], None, active).
Proof. eexists _, _, _. vm_compute. reflexivity. Qed.

Example TypeCheck_workspace_cancelled :
  ∃ active,
    TypeCheck (workspaceEnv (Some "context canceled")) 5 workspaceSnapshot ∅ ["a"; "c"]
    = Some ([None; None], Some "context canceled", active).
Proof. eexists. vm_compute. reflexivity. Qed.

(** C8. [TypeCheck] asked for the package [a] twice, in a snapshot in
    which [a] is not yet an active package: the call returns no error and
    a slice of two entries, the second of which is nil.  The second
    goroutine finds the future of the first in [syntaxPackages] and
    returns its value without calling [post]. *)
Theorem TypeCheck_duplicate_ids_leave_nil :
  ∃ pkgA active,
    TypeCheck (workspaceEnv None) 5 workspaceSnapshot ∅ ["a"; "a"]
    = Some ([Some pkgA; None], None, active).
Proof. eexists _, _. vm_compute. reflexivity. Qed.

End BatchRuns.

(** ** More on [expandErrors] *)

Section ErrorExpansionMore.
Import ErrorExpansion.

Lemma takeSecondaries_located {A} (f : Error → A) errs :
  (∀ e msg, f (setMsg e msg) = f e) →
  f <$> errs = (f <$> (takeSecondaries errs).1) ++ (f <$> (takeSecondaries errs).2).
Proof.
  intros Hf. induction errs as [|spl rest IH]; [done|]. cbn [takeSecondaries].
  destruct (startsWithTab (Msg spl)); [|done].
  destruct (takeSecondaries rest) as [secs rest'] eqn:Hrest.
  cbn [fst snd] in *. rewrite !fmap_cons, IH. unfold stripTab. by rewrite Hf.
Qed.

Lemma takeSecondaries_none errs :
  Forall (λ e, startsWithTab (Msg e) = false) errs →
  takeSecondaries errs = ([], errs).
Proof. intros [|e rest He _]; [done|]. simpl. by rewrite He. Qed.

Lemma expandErrors_located (errs : list Error) (supports : bool) :
  (location ∘ primary) <$> expandErrors errs supports = location <$> errs.
Proof.
  funelim (expandErrors errs supports); [done|].
  simp expandErrors. cbn [secondaries]. rewrite fmap_app, !fmap_cons, H.
  rewrite (takeSecondaries_located location rest) by done.
  rewrite <- app_comm_cons. do 2 f_equal.
  rewrite fmap_imap. rewrite <- imap_const. by apply imap_ext.
Qed.

(** X1. [expandErrors] returns one extended error for each error it is
    given, in the same order, and the primary of the k-th one is located
    where the k-th given error is: a continuation gives the error that is
    relocated to it. *)
Theorem expandErrors_one_per_error (errs : list Error) (supports : bool) :
  length (expandErrors errs supports) = length errs
  ∧ ∀ k x, expandErrors errs supports !! k = Some x →
      location <$> errs !! k = Some (location (primary x)).
Proof.
  pose proof (expandErrors_located errs supports) as Hloc. split.
  - apply (f_equal length) in Hloc. by rewrite !length_fmap in Hloc.
  - intros k x Hk. rewrite <- list_lookup_fmap, <- Hloc, list_lookup_fmap, Hk. done.
Qed.

(** X2. When no error after the first has a message that starts with a
    tab, [expandErrors] returns every error as a primary of its own,
    unchanged and without secondaries.  The first error is a primary
    whatever its message is: a tab at its start is kept. *)
Theorem expandErrors_without_continuations (errs : list Error) (supports : bool) :
  Forall (λ e, startsWithTab (Msg e) = false) (tail errs) →
  expandErrors errs supports = (λ e, {| primary := e; secondaries := [] |}) <$> errs.
Proof.
  destruct errs as [|e rest]; [by simp expandErrors|]. simpl. revert e.
  induction rest as [|r rest IH]; intros e Hrest; simp expandErrors; [done|].
  rewrite (takeSecondaries_none _ Hrest). simpl. f_equal.
  apply IH. by apply Forall_inv_tail in Hrest.
Qed.

Lemma expandErrors_without_continuations_witness :
  expandErrors [prevHere; redeclared] true
  = (λ e, {| primary := e; secondaries := [] |}) <$> [prevHere; redeclared].
Proof.
  apply (expandErrors_without_continuations [prevHere; redeclared] true).
  repeat constructor.
Defined.

End ErrorExpansionMore.

(** ** More on [typeCheckImpl] *)

Section TypeCheckMore.
Import Handles ErrorExpansion TypeCheck.

Lemma parseErrorLoop_files env errs st :
  let pkg' := (foldl (parseErrorStep env) st errs).2 in
  pkg_id pkg' = pkg_id st.2 ∧ goFiles pkg' = goFiles st.2
  ∧ compiledGoFiles pkg' = compiledGoFiles st.2 ∧ parseErrors pkg' = parseErrors st.2.
Proof.
  revert st. induction errs as [|e errs IH]; intros st; simpl; [done|].
  destruct (IH (parseErrorStep env st e)) as (-> & -> & -> & ->).
  unfold parseErrorStep. by case_match.
Qed.

Lemma typeErrorLoop_files env inputs U es pkg :
  let pkg' := foldl (typeErrorStep env inputs U) pkg es in
  pkg_id pkg' = pkg_id pkg ∧ goFiles pkg' = goFiles pkg
  ∧ compiledGoFiles pkg' = compiledGoFiles pkg ∧ parseErrors pkg' = parseErrors pkg.
Proof.
  revert pkg. induction es as [|e es IH]; intros pkg; simpl; [done|].
  destruct (IH (typeErrorStep env inputs U pkg e)) as (-> & -> & -> & ->).
  unfold typeErrorStep. by case_match.
Qed.

Lemma reportErrors_files env inputs pkg :
  let pkg' := reportErrors env inputs pkg in
  pkg_id pkg' = pkg_id pkg ∧ goFiles pkg' = goFiles pkg
  ∧ compiledGoFiles pkg' = compiledGoFiles pkg ∧ parseErrors pkg' = parseErrors pkg.
Proof.
  unfold reportErrors.
  pose proof (parseErrorLoop_files env (parseErrors pkg) (∅, pkg)) as Hparse.
  destruct (foldl (parseErrorStep env) (∅, pkg) (parseErrors pkg)) as [U pkg1].
  simpl in Hparse. destruct Hparse as (H1 & H2 & H3 & H4).
  destruct (hasFixedFiles pkg1); [done|].
  destruct (typeErrorLoop_files env inputs U
              (expandErrors (typeErrors pkg1) (relatedInformation inputs))
              (setTypeErrors pkg1 [])) as (-> & -> & -> & ->).
  done.
Qed.

Lemma typeErrorLoop_typeErrors env inputs U es pkg :
  (∀ pkg e, is_ok (typeErrorDiagnostics env (moduleMode inputs) (linkTarget inputs) pkg e)
            = true) →
  typeErrors (foldl (typeErrorStep env inputs U) pkg es)
  = typeErrors pkg ++ (primary <$> es).
Proof.
  intros Hok. revert pkg. induction es as [|e es IH]; intros pkg; simpl.
  - by rewrite app_nil_r.
  - rewrite IH. unfold typeErrorStep. specialize (Hok pkg e).
    destruct (typeErrorDiagnostics env _ _ pkg e); [|done].
    simpl. by rewrite <- app_assoc.
Qed.

(** X3. [typeCheckImpl] runs the type checker if and only if both lists
    of files are parsed without a fatal error, the package is not
    [unsafe], it has at least one compiled file, and the context is
    live. *)
Theorem typeCheckImpl_runs_checker_iff env inputs :
  (∃ id', EvCheckFiles id' ∈ (typeCheckImpl env inputs).2)
  ↔ ∃ gfs cgfs,
      parseFiles env (Handles.goFiles inputs) = Ok gfs
      ∧ parseFiles env (Handles.compiledGoFiles inputs) = Ok cgfs
      ∧ pkgPath inputs ≠ "unsafe" ∧ cgfs ≠ [] ∧ ctx_Err env = None.
Proof.
  assert (∀ (log : list Event) id' us,
            EvCheckFiles id' ∈ EvParseFiles us :: log ↔ EvCheckFiles id' ∈ log) as Hskip.
  { intros log id' us. rewrite elem_of_cons. naive_solver. }
  assert (∀ us1 us2, ¬ ∃ id', EvCheckFiles id' ∈ [EvParseFiles us1; EvParseFiles us2])
    as Hno.
  { intros us1 us2 [id' Hin]. do 2 apply Hskip in Hin. by apply not_elem_of_nil in Hin. }
  unfold typeCheckImpl, doTypeCheck.
  destruct (parseFiles env (Handles.goFiles inputs)) as [gfs|e1]; simpl.
  2:{ split; [|by intros (? & ? & ? & _)].
      intros [id' Hin]. apply Hskip in Hin. by apply not_elem_of_nil in Hin. }
  destruct (parseFiles env (Handles.compiledGoFiles inputs)) as [cgfs|e2]; simpl.
  2:{ split; [by intros ?%Hno|by intros (? & ? & _ & ? & _)]. }
  case_decide as Hunsafe; simpl.
  { split; [by intros ?%Hno|]. by intros (? & ? & _ & _ & ? & _). }
  case_decide as Hempty; simpl.
  { split; [by intros ?%Hno|].
    intros (? & cgfs' & _ & [= <-] & _ & Hne & _). by destruct cgfs. }
  destruct (ctx_Err env) as [cancelled|]; simpl.
  { split; [by intros ?%Hno|]. by intros (? & ? & _ & _ & _ & _ & ?). }
  split.
  - intros _. exists gfs, cgfs. split_and!; [done..| |done]. intros ->. done.
  - intros _. exists (id inputs). set_solver.
Qed.

(** X4. The ways in which [typeCheckImpl] fails: a fatal error of the
    parser for one of the two lists of files, a package other than
    [unsafe] without compiled files, or a cancelled context for such a
    package.  Otherwise it returns a package, whatever errors the checker
    reports and whether or not diagnostics can be computed for them; the
    package has the parsed files and the syntax errors of the compiled
    ones. *)
Theorem typeCheckImpl_failures env inputs :
  match (typeCheckImpl env inputs).1 with
  | Err e =>
      parseFiles env (Handles.goFiles inputs) = Err e
      ∨ parseFiles env (Handles.compiledGoFiles inputs) = Err e
      ∨ (pkgPath inputs ≠ "unsafe"
         ∧ parseFiles env (Handles.compiledGoFiles inputs) = Ok []
         ∧ e = "no parsed files for package " +:+ pkgPath inputs)
      ∨ (pkgPath inputs ≠ "unsafe" ∧ ctx_Err env = Some e)
  | Ok pkg =>
      pkg_id pkg = id inputs
      ∧ parseFiles env (Handles.goFiles inputs) = Ok (goFiles pkg)
      ∧ parseFiles env (Handles.compiledGoFiles inputs) = Ok (compiledGoFiles pkg)
      ∧ parseErrors pkg = omap pgf_ParseErr (compiledGoFiles pkg)
      ∧ (pkgPath inputs = "unsafe" ∨ (compiledGoFiles pkg ≠ [] ∧ ctx_Err env = None))
  end.
Proof.
  unfold typeCheckImpl.
  destruct (doTypeCheck env inputs) as [[pkg0|e] log] eqn:Hdo; simpl.
  - destruct (reportErrors_files env inputs pkg0) as (-> & -> & -> & ->).
    revert Hdo. unfold doTypeCheck.
    destruct (parseFiles env (Handles.goFiles inputs)) as [gfs|e1]; [|done].
    destruct (parseFiles env (Handles.compiledGoFiles inputs)) as [cgfs|e2]; [|done].
    case_decide as Hunsafe; [intros [= <- _]; simpl; split_and!; [done..|by left]|].
    case_decide as Hempty; [done|].
    destruct (ctx_Err env); [done|]. intros [= <- _]. simpl in *.
    split_and!; [done..|]. right. split; [|done]. intros ->. done.
  - revert Hdo. unfold doTypeCheck.
    destruct (parseFiles env (Handles.goFiles inputs)) as [gfs|e1]; [|intros [= <- _]; auto].
    destruct (parseFiles env (Handles.compiledGoFiles inputs)) as [cgfs|e2];
      [|intros [= <- _]; auto].
    case_decide as Hunsafe; [done|].
    case_decide as Hempty.
    { intros [= <- _]. right; right; left. simpl in Hempty.
      destruct cgfs; [done|]. done. }
    destruct (ctx_Err env) as [cancelled|]; [|done].
    intros [= <- _]. auto.
Qed.

(** X5. The diagnostics of the package that [typeCheckImpl] returns are
    the diagnostics of the syntax errors followed by diagnostics of type
    errors, and no diagnostic of a type error is in a file that has a
    diagnostic of a syntax error. *)
Theorem typeCheckImpl_type_diagnostics_in_parsed_files env inputs :
  match doTypeCheck env inputs with
  | (Err e, log) => typeCheckImpl env inputs = (Err e, log)
  | (Ok pkg0, log) =>
      let parseDiags := parseDiagnosticsComputed env pkg0 (parseErrors pkg0) in
      ∃ pkg typeDiags,
        typeCheckImpl env inputs = (Ok pkg, log)
        ∧ diagnostics pkg = parseDiags ++ typeDiags
        ∧ Forall (λ d, d_URI d ∉ d_URI <$> parseDiags) typeDiags
  end.
Proof.
  destruct (doTypeCheck env inputs) as [[pkg0|e] log] eqn:Hdo;
    unfold typeCheckImpl; rewrite Hdo; [|done].
  cbv zeta.
  destruct (reportErrors_diagnostics env inputs pkg0) as (pkg1 & _ & Hdiags).
  assert (diagnostics pkg0 = []) as Hnone.
  { revert Hdo. unfold doTypeCheck. repeat case_match; try done; by intros [= <- _]. }
  rewrite Hnone in Hdiags. simpl in Hdiags.
  eexists _, _. split; [done|]. split; [exact Hdiags|].
  destruct (hasFixedFiles pkg0); [done|]. apply Forall_forall.
  by intros d [Hd _]%list_elem_of_filter.
Qed.

(** X6. When a diagnostic can be computed for every type error, the
    [typeErrors] of the package that [typeCheckImpl] returns are the
    primaries of the expansion of the errors that the checker reported:
    as many as the checker reported, at the same locations. *)
Theorem typeCheckImpl_typeErrors_of_checker env inputs :
  (∀ pkg e, is_ok (typeErrorDiagnostics env (moduleMode inputs) (linkTarget inputs) pkg e)
            = true) →
  pkgPath inputs ≠ "unsafe" →
  match (typeCheckImpl env inputs).1 with
  | Err _ => True
  | Ok pkg =>
      typeErrors pkg
      = primary <$> expandErrors (check_Files env inputs (compiledGoFiles pkg))
                      (relatedInformation inputs)
      ∧ location <$> typeErrors pkg
        = location <$> check_Files env inputs (compiledGoFiles pkg)
  end.
Proof.
  intros Hok Hunsafe. unfold typeCheckImpl.
  destruct (doTypeCheck env inputs) as [[pkg0|e] log0] eqn:Hdo; [|done]. simpl.
  assert (typeErrors pkg0 = check_Files env inputs (compiledGoFiles pkg0)) as Hchecked.
  { revert Hdo. unfold doTypeCheck. repeat case_match; try done; by intros [= <- _]. }
  pose proof (doTypeCheck_hasFixedFiles _ _ _ _ Hdo) as Hfixed.
  destruct (reportErrors_files env inputs pkg0) as (_ & _ & -> & _).
  assert (typeErrors (reportErrors env inputs pkg0)
          = primary <$> expandErrors (typeErrors pkg0) (relatedInformation inputs)) as ->.
  { unfold reportErrors.
    destruct (parseErrorLoop_spec env (parseErrors pkg0) ∅ pkg0)
      as (pkg1 & -> & _ & Hf & Ht & _).
    rewrite Hf, Hfixed, Ht. by rewrite typeErrorLoop_typeErrors. }
  rewrite Hchecked. split; [done|].
  rewrite <- list_fmap_compose. apply expandErrors_located.
Qed.

Lemma typeCheckImpl_typeErrors_of_checker_witness :
  match (typeCheckImpl repairedEnv repairedInputs).1 with
  | Err _ => True
  | Ok pkg =>
      typeErrors pkg
      = primary <$> expandErrors (check_Files repairedEnv repairedInputs (compiledGoFiles pkg))
                      (relatedInformation repairedInputs)
      ∧ location <$> typeErrors pkg
        = location <$> check_Files repairedEnv repairedInputs (compiledGoFiles pkg)
  end.
Proof.
  apply (typeCheckImpl_typeErrors_of_checker repairedEnv repairedInputs).
  - intros pkg e. reflexivity.
  - intros [=].
Defined.

End TypeCheckMore.

(** ** More on [computePackageKey] *)

Section KeyHasherMore.
Import Handles KeyHasher.

Lemma mapM_ext_all {A B} (f g : A → option B) (l : list A) :
  (∀ x, f x = g x) → mapM f l = mapM g l.
Proof. intros Hfg. induction l as [|x l IH]; [done|]. simpl. by rewrite Hfg, IH. Qed.

(** X7. The key depends on the inputs only through what [sameKeyData]
    compares: two inputs that agree on it get the same key, whatever the
    addresses of the handles of their dependencies, the inputs of those
    handles and the contents of their files are, and whatever order the
    maps are visited in. *)
Theorem computePackageKey_reads (env : Env) (a b : typeCheckInputs)
    (importOrder importOrder' depOrder depOrder' : list string) :
  sameKeyData a b →
  rangeOrder (depsByImpPath a) importOrder →
  rangeOrder (depsByImpPath b) importOrder' →
  rangeOrder (deps a) depOrder →
  rangeOrder (deps b) depOrder' →
  computePackageKey env importOrder depOrder a
  = computePackageKey env importOrder' depOrder' b.
Proof.
  intros (Hid & Hname & Hpath & Hgo & Himp & Hcgf & Hgf & Hsz & Hrel & Hlink & Hmod & Hdeps)
         Hi Hi' Hd Hd'.
  assert (dom (deps a) = dom (deps b)) as Hdom.
  { apply set_eq. intros depID. rewrite !elem_of_dom, <- !(fmap_is_Some
      (λ dep, (PkgPath (ph_m dep), ph_key dep))). by rewrite Hdeps. }
  unfold computePackageKey, packageKeyStream.
  rewrite (sortStrings_Permutation importOrder importOrder').
  2:{ unfold rangeOrder in *. by rewrite Hi, Hi', Himp. }
  rewrite (sortStrings_Permutation depOrder depOrder').
  2:{ unfold rangeOrder in *. by rewrite Hd, Hd', Hdom. }
  rewrite (mapM_ext_all (depLine env a) (depLine env b)).
  2:{ intros depID. unfold depLine. specialize (Hdeps depID).
      destruct (deps a !! depID), (deps b !! depID); simplify_eq/=; [|done].
      by rewrite H, H0. }
  assert (∀ fhs fhs' : list FileHandle, fileIdentity <$> fhs = fileIdentity <$> fhs' →
            fileLine env <$> fhs = fileLine env <$> fhs') as Hlines.
  { intros fhs fhs' Heq.
    change (fileLine env) with ((λ fi, FileIdentity_String env fi +:+ newline) ∘ fileIdentity).
    by rewrite !list_fmap_compose, Heq. }
  rewrite (Hlines _ _ Hcgf), (Hlines _ _ Hgf).
  assert (∀ fhs fhs' : list FileHandle, fileIdentity <$> fhs = fileIdentity <$> fhs' →
            length fhs = length fhs') as Hlen.
  { intros fhs fhs' Heq. apply (f_equal length) in Heq. by rewrite !length_fmap in Heq. }
  rewrite (Hlen _ _ Hcgf), (Hlen _ _ Hgf).
  assert (importLine a = importLine b) as ->.
  { unfold importLine. by rewrite Himp. }
  by rewrite Hid, Hname, Hpath, Hgo, Hsz, Hrel, Hlink, Hmod.
Qed.

Lemma computePackageKey_reads_witness :
  computePackageKey plainEnv ["fmt"; "os"] ["fmt"; "os"] withTwoDeps
  = computePackageKey plainEnv ["os"; "fmt"] ["os"; "fmt"] withTwoDepsRebuilt.
Proof.
  apply (computePackageKey_reads plainEnv withTwoDeps withTwoDepsRebuilt).
  - split_and!; try reflexivity. intros depID.
    destruct (decide (depID = "fmt")) as [->|Hfmt]; [vm_compute; reflexivity|].
    destruct (decide (depID = "os")) as [->|Hos]; [vm_compute; reflexivity|].
    unfold withTwoDeps, withTwoDepsRebuilt. simpl.
    by rewrite !lookup_insert_ne, !lookup_singleton_ne by done.
  - unfold rangeOrder. vm_compute elements. by (reflexivity || apply perm_swap).
  - unfold rangeOrder. vm_compute elements. by (reflexivity || apply perm_swap).
  - unfold rangeOrder. vm_compute elements. by (reflexivity || apply perm_swap).
  - unfold rangeOrder. vm_compute elements. by (reflexivity || apply perm_swap).
Defined.

End KeyHasherMore.

(** ** More on [buildPackageHandle], [typeCheckInputs] and [readFiles] *)

Section HandleStoreMore.
Import Handles HandleStore.

(** X8. [readFiles] reads the files in order and stops at the first one
    that cannot be read: it returns the handles of all the files, one for
    each URI, or the error of the first file that fails, all files before
    it having been read. *)
Theorem readFiles_first_failure (readFile : URI → result FileHandle) (uris : list URI) :
  match readFiles readFile uris with
  | Ok fhs => Forall2 (λ uri fh, readFile uri = Ok fh) uris fhs
  | Err e =>
      ∃ read uri rest,
        uris = read ++ uri :: rest
        ∧ Forall (λ u, is_ok (readFile u) = true) read
        ∧ readFile uri = Err e
  end.
Proof.
  induction uris as [|uri uris IH]; simpl; [constructor|].
  destruct (readFile uri) as [fh|e] eqn:Huri.
  - destruct (readFiles readFile uris) as [fhs|e].
    + by constructor.
    + destruct IH as (read & uri' & rest & -> & Hread & Hfail).
      exists (uri :: read), uri', rest. split_and!; [done| |done].
      constructor; [by rewrite Huri|done].
  - by exists [], uri, uris.
Qed.






(** X10. Once [buildPackageHandle] has returned a handle for a package,
    every later call for that package in the same snapshot, whatever
    handles have been added to it since, returns that handle and leaves
    the snapshot as it is: it reads no file and builds no handle. *)
Theorem buildPackageHandle_cached env fuel fuel' id s h s' s'' :
  buildPackageHandle env fuel id s = Some (Ok h, s') →
  Grows s' s'' →
  buildPackageHandle env (S fuel') id s'' = Some (Ok h, s'').
Proof.
  intros Hfirst [Hmeta' Hpkgs'].
  destruct (buildPackageHandle_stored _ _ _ _ _ _ Hfirst) as ([Hmeta _] & Hstored).
  assert (is_Some (metadata s !! id)) as [m Hm].
  { destruct fuel as [|fuel]; [done|]. simpl in Hfirst. unfold lookupSection in Hfirst.
    destruct (metadata s !! id); [by eexists|]. by destruct (packages s !! id). }
  simpl. unfold lookupSection.
  by rewrite (Hpkgs' _ _ (Hstored h eq_refl)), Hmeta', Hmeta, Hm.
Qed.

Lemma buildPackageHandle_cached_witness :
  buildPackageHandle (Batch.workspaceStore None) 1 "a" Batch.workspaceWithA
  = Some (Ok Batch.aHandle, Batch.workspaceWithA).
Proof.
  apply (buildPackageHandle_cached (Batch.workspaceStore None) 5 0 "a"
           Batch.workspaceStart Batch.aHandle Batch.workspaceWithA Batch.workspaceWithA).
  - vm_compute. reflexivity.
  - split; [reflexivity|]. intros id h Hh. exact Hh.
Defined.

End HandleStoreMore.

(** ** More on [resolveImportGraph] *)

Section ImportGraphMore.
Import Handles ImportGraph.

(** What holds of every entry of [deps] while the first loops fill it. *)
Lemma addDep_entries (s : Snapshot) (P : PackageID → Prop) (Q : error → Prop) depIDs st :
  (∀ d, d ∈ depIDs → P d) →
  (∀ d e, is_Some (ctx_Err s) → buildPackageHandle s d = Err e → Q e) →
  match st with
  | Ok deps => ∀ id key, deps !! id = Some key →
                 P id ∧ ∃ ph, buildPackageHandle s id = Ok ph ∧ ph_key ph = key
  | Err e => Q e
  end →
  match foldl (addDep s) st depIDs with
  | Ok deps => ∀ id key, deps !! id = Some key →
                 P id ∧ ∃ ph, buildPackageHandle s id = Ok ph ∧ ph_key ph = key
  | Err e => Q e
  end.
Proof.
  intros HP HQ. revert st. induction depIDs as [|d rest IH]; intros st Hst; simpl; [done|].
  apply IH; [intros d' Hin; by apply HP, list_elem_of_further|].
  destruct st as [deps|e]; simpl; [|done].
  destruct (deps !! d) eqn:Hd; [done|].
  destruct (buildPackageHandle s d) as [ph|e] eqn:Hbuild.
  - intros id key [[<- <-]|[_ Hl]]%lookup_insert_Some; [|by apply Hst].
    split; [apply HP, list_elem_of_here|by exists ph].
  - destruct (ctx_Err s) eqn:Hctx; [|done]. by apply (HQ d e).
Qed.

Lemma addDepsOf_entries (rt : Runtime) (s : Snapshot) (O : PackageID → Prop)
    (Q : error → Prop) openIDs st :
  (∀ id, id ∈ openIDs → O id) →
  (∀ d e, is_Some (ctx_Err s) → buildPackageHandle s d = Err e → Q e) →
  match st with
  | Some (Ok deps) =>
      ∀ id key, deps !! id = Some key →
        (∃ parent, O parent ∧ depEdge s parent id)
        ∧ ∃ ph, buildPackageHandle s id = Ok ph ∧ ph_key ph = key
  | Some (Err e) => Q e
  | None => True
  end →
  match foldl (addDepsOf rt s) st openIDs with
  | Some (Ok deps) =>
      ∀ id key, deps !! id = Some key →
        (∃ parent, O parent ∧ depEdge s parent id)
        ∧ ∃ ph, buildPackageHandle s id = Ok ph ∧ ph_key ph = key
  | Some (Err e) => Q e
  | None => True
  end.
Proof.
  intros Hopen HQ. revert st.
  induction openIDs as [|id rest IH]; intros st Hst; simpl; [done|].
  apply IH; [intros id' Hin; by apply Hopen, list_elem_of_further|].
  destruct st as [[deps|e]|]; simpl; [|done..].
  destruct (metadata (meta s) !! id) as [m|] eqn:Hm; simpl; [|done].
  apply (addDep_entries s (λ d, ∃ parent, O parent ∧ depEdge s parent d) Q);
    [|done..].
  intros d (path & _ & Hpath)%list_elem_of_omap. exists id.
  split; [apply Hopen, list_elem_of_here|]. by exists m, path.
Qed.

(** X11. Every entry that [resolveImportGraph] leaves in [deps] is the
    key of the handle of a package that an open package imports
    directly. *)
Theorem importGraphDeps_entries (rt : Runtime) (s : Snapshot) (fuel : nat)
    (deps : gmap PackageID Hash) (id : PackageID) (key : Hash) :
  RangeValid rt →
  importGraphDeps rt fuel s = Some (Ok deps) →
  deps !! id = Some key →
  (∃ parent, OpenPackage s parent ∧ depEdge s parent id)
  ∧ ∃ ph, buildPackageHandle s id = Ok ph ∧ ph_key ph = key.
Proof.
  intros Hrange. unfold importGraphDeps. destruct (awaitLoaded s); [done|].
  pose proof (addDepsOf_entries rt s (OpenPackage s) (λ _, True)
                (rangeKeys rt (openPackagesOf s))
                (Some (Ok ∅))) as Hfold.
  destruct (foldl _ _ _) as [[deps0|err]|]; [|done..].
  destruct (markVolatile _ _ _ _ _ _) as [memo|]; [|done]. simpl.
  intros [= <-] Hkey. rewrite (eraseVolatile_lookup rt Hrange) in Hkey.
  destruct (default false (memo !! id)); [done|].
  apply Hfold; [|done|done|done].
  intros k [v Hv]%(elem_of_rangeKeys rt Hrange).
  assert (v = true) as -> by by eapply openPackagesOf_true.
  by apply openPackagesOf_lookup.
Qed.

Lemma importGraphDeps_entries_witness :
  (∃ parent, OpenPackage abcSnapshot parent ∧ depEdge abcSnapshot parent "c")
  ∧ ∃ ph, buildPackageHandle abcSnapshot "c" = Ok ph ∧ ph_key ph = "key of c".
Proof.
  apply (importGraphDeps_entries fixedRuntime abcSnapshot 3 {[ "c" := "key of c" ]}).
  - intros V m. unfold rangeOrder. simpl. reflexivity.
  - vm_compute. reflexivity.
  - reflexivity.
Defined.

(** X12. [resolveImportGraph] fails while it computes [deps] only with
    the error of [awaitLoaded], or, when the context is cancelled, with
    the error of a handle that could not be built.  While the context is
    live, a package whose handle cannot be built is left out. *)
Theorem importGraphDeps_errors (rt : Runtime) (s : Snapshot) (fuel : nat) :
  match importGraphDeps rt fuel s with
  | Some (Err e) =>
      awaitLoaded s = Some e
      ∨ (awaitLoaded s = None ∧ is_Some (ctx_Err s)
         ∧ ∃ id, buildPackageHandle s id = Err e)
  | _ => True
  end.
Proof.
  unfold importGraphDeps. destruct (awaitLoaded s) as [e|]; [by left|].
  pose proof (addDepsOf_entries rt s (λ _, True)
                (λ e, is_Some (ctx_Err s) ∧ ∃ id, buildPackageHandle s id = Err e)
                (rangeKeys rt (openPackagesOf s)) (Some (Ok ∅))) as Hfold.
  destruct (foldl _ _ _) as [[deps0|err]|]; [|right|done].
  - by destruct (markVolatile _ _ _ _ _ _).
  - split; [done|]. apply Hfold; [done| |done]. intros d e Hctx Hd. eauto.
Qed.

(** A run of the second kind: the context is cancelled and the package
    [b], which the open package [a] imports, has no handle. *)
Example importGraphDeps_cancelled :
  importGraphDeps fixedRuntime 3
    {| awaitLoaded := None; meta := abcGraph; overlays := ["file:///a.go"];
       buildPackageHandle := λ id, Err ("no handle for " +:+ id);
       ctx_Err := Some "context canceled" |}
  = Some (Err "no handle for b").
Proof. vm_compute. reflexivity. Qed.

End ImportGraphMore.

(** ** The futures and the calls of [post] of a batch *)

Section BatchProgress.
Import Handles Batch.
Context {C : Type} (env : Env) (Valid : nat → PackageID → Prop).

Local Abbreviation Progress := (Progress (C := C) Valid).
Local Abbreviation IndexValid := (IndexValid (C := C) Valid).
Local Abbreviation Imports := (Imports (C := C) Valid).
Local Abbreviation Checks := (Checks (C := C) Valid).
Local Abbreviation batch := (typeCheckBatch C).

Lemma futuresGrow_refl P m : futuresGrow P m m.
Proof. split; [done|auto]. Qed.

Lemma futuresGrow_trans P m1 m2 m3 :
  futuresGrow P m1 m2 → futuresGrow P m2 m3 → futuresGrow P m1 m3.
Proof.
  intros [Hold1 Hnew1] [Hold2 Hnew2]. split; [auto|].
  intros id Hid. destruct (Hnew1 id Hid) as [Hnone|(v & Hv & HP)]; [auto|].
  right. exists v. auto.
Qed.

(** The future of [id] is made, the map grows while the value is
    computed, and the value is stored. *)
Lemma futuresGrow_future (P : pkgOrErr → Prop) m m2 id v :
  m !! id = None →
  futuresGrow P (<[id := None]> m) m2 →
  P v →
  futuresGrow P m (<[id := Some v]> m2).
Proof.
  intros Hid [Hold Hnew] Hv. split.
  - intros x f Hx. assert (x ≠ id) by congruence.
    rewrite lookup_insert_ne by done. apply Hold. by rewrite lookup_insert_ne.
  - intros x Hx. destruct (decide (x = id)) as [->|Hne].
    + right. exists v. by rewrite lookup_insert_eq.
    + rewrite lookup_insert_ne by done. apply Hnew. by rewrite lookup_insert_ne.
Qed.

Lemma posted_app evs1 evs2 : posted (evs1 ++ evs2) = posted evs1 ++ posted evs2.
Proof. apply omap_app. Qed.

Lemma elem_of_posted evs id : id ∈ posted evs ↔ ∃ i, EvPost i id ∈ evs.
Proof.
  unfold posted. rewrite list_elem_of_omap. split.
  - intros (ev & Hin & Hev). destruct ev; try done. injection Hev as ->. eauto.
  - intros (i & Hin). by exists (EvPost i id).
Qed.

Lemma Progress_refl (b : batch) : Progress b b.
Proof.
  split_and!; [done..|apply futuresGrow_refl|apply futuresGrow_refl|].
  exists []. rewrite app_nil_r. split_and!; [done|constructor|..].
  - by intros id []%elem_of_nil.
  - by intros i id []%elem_of_nil.
Qed.

Lemma Progress_trans (b1 b2 b3 : batch) : Progress b1 b2 → Progress b2 b3 → Progress b1 b3.
Proof.
  intros (Hi1 & Hpre1 & Hpost1 & Hm1 & Himp1 & Hsyn1 & evs1 & Hlog1 & Hnd1 & Hp1 & Hv1)
         (Hi2 & Hpre2 & Hpost2 & Hm2 & Himp2 & Hsyn2 & evs2 & Hlog2 & Hnd2 & Hp2 & Hv2).
  split_and!; [congruence..|by eapply futuresGrow_trans|by eapply futuresGrow_trans|].
  exists (evs1 ++ evs2). split_and!.
  - by rewrite Hlog2, Hlog1, app_assoc.
  - rewrite posted_app. apply NoDup_app. split_and!; [done| |done].
    intros id [_ (v & Hv)]%Hp1 [Hnone _]%Hp2. congruence.
  - intros id. rewrite posted_app, elem_of_app. intros [Hid|Hid].
    + destruct (Hp1 id Hid) as [Hnone (v & Hv)]. split; [done|].
      exists v. by apply Hsyn2.
    + destruct (Hp2 id Hid) as [Hnone Hv]. split; [|done].
      destruct (syntaxPackages b1 !! id) as [f|] eqn:Hf; [|done].
      apply Hsyn1 in Hf. congruence.
  - intros i id [Hin|Hin]%elem_of_app; eauto.
Qed.

Lemma Progress_IndexValid (b b' : batch) : Progress b b' → IndexValid b → IndexValid b'.
Proof. intros (Hi & _) Hvalid id i. rewrite Hi. apply Hvalid. Qed.

Lemma Progress_ImportsEvaluated (b b' : batch) :
  Progress b b' → ImportsEvaluated b → ImportsEvaluated b'.
Proof.
  intros (_ & _ & _ & _ & [Hold Hnew] & _) Hev id v Hv.
  destruct (importPackages b !! id) as [f|] eqn:Hf.
  - pose proof (Hold _ _ Hf) as Hf'. rewrite Hf' in Hv. injection Hv as ->. by eapply Hev.
  - destruct (Hnew id Hf) as [Hnone|(v' & Hv' & He)]; congruence.
Qed.

(** A step that leaves the futures alone and calls no [post]. *)
Lemma Progress_quiet (b b' : batch) evs :
  syntaxIndex b' = syntaxIndex b → pre b' = pre b → post b' = post b → meta b' = meta b →
  importPackages b' = importPackages b → syntaxPackages b' = syntaxPackages b →
  log b' = log b ++ evs → posted evs = [] →
  Progress b b'.
Proof.
  intros Hi Hpre Hpost Hm Himp Hsyn Hlog Hposted.
  split_and!; [done..|rewrite Himp; apply futuresGrow_refl
              |rewrite Hsyn; apply futuresGrow_refl|].
  exists evs. split_and!; [done|rewrite Hposted; constructor|..].
  - rewrite Hposted. by intros id []%elem_of_nil.
  - intros i id Hin. assert (id ∈ posted evs) as Hid by (apply elem_of_posted; eauto).
    rewrite Hposted in Hid. by apply elem_of_nil in Hid.
Qed.

Lemma Progress_record (b : batch) ev : posted [ev] = [] → Progress b (record b ev).
Proof. intros Hev. by apply (Progress_quiet b (record b ev) [ev]). Qed.

Lemma callEach_progress {K} (f : K → batch → option (pkgOrErr * batch))
    (requests : list K) b rs b' :
  (∀ k b r b', IndexValid b → f k b = Some (r, b') → Progress b b') →
  IndexValid b → callEach f requests b = Some (rs, b') → Progress b b'.
Proof.
  intros Hf. revert b rs. induction requests as [|k rest IH]; intros b rs Hvalid; simpl.
  - intros [= _ <-]. apply Progress_refl.
  - destruct (f k b) as [[r b1]|] eqn:Hk; [|done].
    destruct (callEach f rest b1) as [[rs1 b2]|] eqn:Hrest; [|done].
    intros [= _ <-]. pose proof (Hf _ _ _ _ Hvalid Hk) as H1.
    eapply Progress_trans; [done|]. eapply IH; [|done].
    by eapply Progress_IndexValid.
Qed.

Lemma importerFunc_progress inputs get path (b : batch) r b' :
  Imports get → IndexValid b →
  importerFunc env inputs get path b = Some (r, b') → Progress b b'.
Proof.
  intros Hget Hvalid. unfold importerFunc.
  destruct (depsByImpPath inputs !! path) as [id|]; [|intros [= _ <-]; apply Progress_refl].
  destruct (deps inputs !! id) as [depPH|]; [|intros [= _ <-]; apply Progress_refl].
  destruct (IsValidImport env _ _); [|intros [= _ <-]; apply Progress_refl].
  intros Hcall. by apply (Hget _ _ _ _ Hvalid Hcall).
Qed.

Lemma checkPackageForImport_progress get ph (b : batch) r b' :
  Imports get → IndexValid b →
  checkPackageForImport env get ph b = Some (r, b') →
  Progress b b' ∧ evaluated r.
Proof.
  intros Hget Hvalid. unfold checkPackageForImport.
  pose proof (Progress_record b (EvParseFiles (ID (ph_m ph))) eq_refl) as H1.
  destruct (parseFiles env _) as [pgfs|e]; [|intros [= <- <-]; split; [done|by right]].
  destruct (ctx_Err env) as [cancelled|]; [intros [= <- <-]; split; [done|by right]|].
  pose proof (Progress_record (record b (EvParseFiles (ID (ph_m ph))))
                (EvCheckFiles (ID (ph_m ph))) eq_refl) as H2.
  destruct (callEach _ _ _) as [[rs b2]|] eqn:Hcalls; [|done].
  intros [= <- <-]. split; [|by left].
  eapply Progress_trans; [done|]. eapply Progress_trans; [done|].
  eapply callEach_progress; [|by eapply Progress_IndexValid|done].
  intros path b0 r0 b0' Hvalid0. by apply importerFunc_progress.
Qed.

Lemma importPackage_progress fuel get m data (b : batch) r b' :
  Imports get → IndexValid b →
  importPackage fuel env get m data b = Some (r, b') →
  Progress b b' ∧ evaluated r.
Proof.
  intros Hget Hvalid. unfold importPackage.
  destruct (importMap fuel env b (ID m)) as [impMap|]; [|done]. simpl.
  destruct (ctx_Err env) as [cancelled|];
    [intros [= <- <-]; split; [apply Progress_refl|by right]|].
  pose proof (Progress_record b (EvImportShallow (ID m)) eq_refl) as H1.
  destruct (callEach _ _ _) as [[rs b2]|] eqn:Hcalls; [|done].
  assert (Progress b b2) as H12.
  { eapply Progress_trans; [done|].
    eapply callEach_progress; [|by eapply Progress_IndexValid|done].
    intros path b0 r0 b0' Hvalid0 Hcall. by apply (Hget _ _ _ _ Hvalid0 Hcall). }
  destruct (IImportShallow env m data _); intros [= <- <-]; (split; [done|]);
    [by left|by right].
Qed.

Lemma importFromHandle_progress fuel get id (b : batch) r b' :
  Imports get → IndexValid b →
  importFromHandle env fuel get id b = Some (r, b') →
  Progress b b' ∧ evaluated r.
Proof.
  intros Hget Hvalid. unfold importFromHandle.
  case_decide; [intros [= <- <-]; split; [apply Progress_refl|by left]|].
  pose proof (Progress_record b (EvBuildHandle id) eq_refl) as H1.
  destruct (buildPackageHandle env id) as [ph|e]; [|intros [= <- <-]; split; [done|by right]].
  pose proof (Progress_record (record b (EvBuildHandle id)) (EvCacheGet (ph_key ph)) eq_refl)
    as H2.
  pose proof (Progress_trans _ _ _ H1 H2) as H12.
  pose proof (Progress_IndexValid _ _ H12 Hvalid) as Hvalid2.
  destruct (filecache_Get env (ph_key ph)) as [[data|]|e].
  - intros [H3 He]%importPackage_progress; [|done..].
    split; [by eapply Progress_trans|done].
  - intros [H3 He]%checkPackageForImport_progress; [|done..].
    split; [by eapply Progress_trans|done].
  - intros [= <- <-]. split; [done|by right].
Qed.

Lemma getImportPackageBody_imports fuel get handle :
  Imports get → Checks handle → Imports (getImportPackageBody env fuel get handle).
Proof.
  intros Hget Hhandle id b r b' Hvalid. unfold getImportPackageBody.
  destruct (importPackages b !! id) as [f|] eqn:Hf.
  { destruct (awaitFuture env id f) as [v|] eqn:Hv; simpl; [|done].
    intros [= <- <-]. split; [apply Progress_refl|]. intros Hev.
    unfold awaitFuture in Hv.
    destruct (ctx_Err env), f as [v0|]; try done; injection Hv as <-.
    - destruct (selectDone env id); [by right|by eapply Hev].
    - by right.
    - by eapply Hev. }
  set (b0 := setImportPackages b (<[id := None]> (importPackages b))).
  assert (IndexValid b0) as Hvalid0 by done.
  match goal with
  | |- match ?returned with _ => _ end = _ → _ =>
      destruct returned as [[v b2]|] eqn:Hreturned; [|done]
  end.
  intros [= <- <-].
  assert (Progress b0 b2 ∧ evaluated v) as [H02 Hev].
  { change (syntaxIndex b0) with (syntaxIndex b) in Hreturned.
    destruct (syntaxIndex b !! id) as [index|] eqn:Hindex.
    2:{ by apply importFromHandle_progress in Hreturned. }
    destruct (handle index id b0) as [[r1 b1]|] eqn:Hcall; [|done].
    pose proof (Hhandle _ _ _ _ _ Hvalid0 (Hvalid _ _ Hindex) Hcall) as H1.
    destruct (err r1) as [e|]; [injection Hreturned as <- <-; split; [done|by right]|].
    destruct (pkg r1) as [p|]; [injection Hreturned as <- <-; split; [done|by left]|].
    apply importFromHandle_progress in Hreturned as [H2 He];
      [|done|by eapply Progress_IndexValid].
    split; [by eapply Progress_trans|done]. }
  split; [|done].
  destruct H02 as (Hi & Hpre & Hpost & Hm & Himp & Hsyn & Hlog).
  split_and!; [done..| |done|done].
  by apply futuresGrow_future.
Qed.

Lemma awaitPredecessors_progress get m (b : batch) e b' :
  Imports get → IndexValid b →
  awaitPredecessors env get m b = Some (e, b') → Progress b b'.
Proof.
  intros Hget Hvalid. unfold awaitPredecessors.
  destruct (callEach _ _ _) as [[rs b1]|] eqn:Hcalls; [|done].
  intros [= _ <-]. eapply callEach_progress; [|done..].
  intros id b0 r0 b0' Hvalid0 Hcall. by apply (Hget _ _ _ _ Hvalid0 Hcall).
Qed.

(** The end of [handleSyntaxPackage]: the log grows by the call of the
    checker and, if it succeeds, by the one call of [post]. *)
Lemma checkAndPost_log i id ph (b : batch) v b' :
  checkAndPost env i id ph b = Some (v, b') →
  syntaxIndex b' = syntaxIndex b ∧ pre b' = pre b ∧ post b' = post b ∧ meta b' = meta b
  ∧ importPackages b' = importPackages b ∧ syntaxPackages b' = syntaxPackages b
  ∧ (log b' = log b ++ [EvCheckPackage id]
     ∨ log b' = log b ++ [EvCheckPackage id; EvPost i id]).
Proof.
  unfold checkAndPost. simpl.
  destruct (checkPackage env ph (importPackages b)) as [syntaxPkg|e].
  2:{ intros [= <- <-]. split_and!; [done..|]. by left. }
  destruct (post b i syntaxPkg (client b)) as [c|]; [|done]. simpl.
  intros [= <- <-]. split_and!; [done..|]. right. simpl. by rewrite <- app_assoc.
Qed.

Lemma handleSyntaxPackageBody_checks get :
  Imports get → Checks (handleSyntaxPackageBody env get).
Proof.
  intros Hget i id b r b' Hvalid Hi. unfold handleSyntaxPackageBody.
  destruct (syntaxPackages b !! id) as [f|] eqn:Hf.
  { destruct f as [v|]; simpl; [|done]. intros [= <- <-]. apply Progress_refl. }
  set (b0 := record (setSyntaxPackages b (<[id := None]> (syntaxPackages b)))
               (EvBuildHandle id)).
  assert (IndexValid b0) as Hvalid0 by done.
  match goal with
  | |- match ?returned with _ => _ end = _ → _ =>
      destruct returned as [[v b2]|] eqn:Hreturned; [|done]
  end.
  intros [= <- <-].
  (* the state [b1] after the predecessors, and the events that follow *)
  assert (∃ b1 tail, Progress b0 b1
            ∧ syntaxIndex b2 = syntaxIndex b1 ∧ pre b2 = pre b1 ∧ post b2 = post b1
            ∧ meta b2 = meta b1 ∧ importPackages b2 = importPackages b1
            ∧ syntaxPackages b2 = syntaxPackages b1
            ∧ log b2 = log b1 ++ tail
            ∧ (tail = [] ∨ tail = [EvCheckPackage id]
               ∨ tail = [EvCheckPackage id; EvPost i id]))
    as (b1 & tail & H01 & Hi2 & Hpre2 & Hpost2 & Hm2 & Himp2 & Hsyn2 & Hlog2 & Htail).
  { assert (∀ b1, Progress b0 b1 → ∃ b1' tail, Progress b0 b1'
              ∧ syntaxIndex b1 = syntaxIndex b1' ∧ pre b1 = pre b1' ∧ post b1 = post b1'
              ∧ meta b1 = meta b1' ∧ importPackages b1 = importPackages b1'
              ∧ syntaxPackages b1 = syntaxPackages b1'
              ∧ log b1 = log b1' ++ tail
              ∧ (tail = [] ∨ tail = [EvCheckPackage id]
                 ∨ tail = [EvCheckPackage id; EvPost i id])) as Hstay.
    { intros b1 H1. exists b1, []. rewrite app_nil_r. split_and!; [done..|by left]. }
    destruct (buildPackageHandle env id) as [ph|e];
      [|injection Hreturned as <- <-; apply Hstay, Progress_refl].
    destruct (match pre b0 with Some pre => negb (pre i ph) | None => false end);
      [injection Hreturned as <- <-; apply Hstay, Progress_refl|].
    destruct (awaitPredecessors _ _ _ _) as [[awaitErr b1]|] eqn:Hawait; [|done].
    pose proof (awaitPredecessors_progress _ _ _ _ _ Hget Hvalid0 Hawait) as H01.
    assert (∀ v b2, checkAndPost env i id ph b1 = Some (v, b2) →
              ∃ b1' tail, Progress b0 b1'
              ∧ syntaxIndex b2 = syntaxIndex b1' ∧ pre b2 = pre b1' ∧ post b2 = post b1'
              ∧ meta b2 = meta b1' ∧ importPackages b2 = importPackages b1'
              ∧ syntaxPackages b2 = syntaxPackages b1'
              ∧ log b2 = log b1' ++ tail
              ∧ (tail = [] ∨ tail = [EvCheckPackage id]
                 ∨ tail = [EvCheckPackage id; EvPost i id])) as Hcheck.
    { intros v0 b3 (? & ? & ? & ? & ? & ? & [Hl|Hl])%checkAndPost_log;
        eexists b1, _; (split_and!; [done..|exact Hl|]); auto. }
    destruct awaitErr, (ctx_Err env); try destruct (selectDone env id);
      try (injection Hreturned as <- <-; by apply Hstay); exact (Hcheck _ _ Hreturned). }
  destruct H01 as (Hi1 & Hpre1 & Hpost1 & Hm1 & Himp1 & Hsyn1 & evs1 & Hlog1 & Hnd1 & Hp1 & Hv1).
  assert (syntaxPackages b1 !! id = Some None) as Hinflight.
  { apply Hsyn1. simpl. apply lookup_insert_eq. }
  assert (id ∉ posted evs1) as Hfresh.
  { intros [Hnone _]%Hp1. simpl in Hnone. by rewrite lookup_insert_eq in Hnone. }
  split_and!; simpl.
  - by rewrite Hi2, Hi1.
  - by rewrite Hpre2, Hpre1.
  - by rewrite Hpost2, Hpost1.
  - by rewrite Hm2, Hm1.
  - by rewrite Himp2.
  - rewrite Hsyn2. by apply futuresGrow_future.
  - exists ([EvBuildHandle id] ++ evs1 ++ tail).
    assert (posted tail = [] ∨ posted tail = [id]) as Hposted.
    { destruct Htail as [-> | [-> | ->]]; auto. }
    split_and!.
    + rewrite Hlog2, Hlog1. simpl. by rewrite <- !app_assoc.
    + rewrite !posted_app. simpl.
      destruct Hposted as [Hp|Hp]; rewrite Hp; [by rewrite app_nil_r|].
      apply NoDup_app. split_and!; [done| |apply NoDup_singleton].
      intros x Hx ->%list_elem_of_singleton. done.
    + intros x. rewrite !posted_app. simpl. rewrite elem_of_app. intros [Hx|Hx].
      * destruct (Hp1 x Hx) as [Hnone (vx & Hvx)]. simpl in Hnone.
        assert (x ≠ id) by (intros ->; done).
        rewrite lookup_insert_ne in Hnone by done. split; [done|].
        exists vx. rewrite lookup_insert_ne by done. by rewrite Hsyn2.
      * destruct Hposted as [Hp|Hp]; rewrite Hp in Hx; [by apply elem_of_nil in Hx|].
        apply list_elem_of_singleton in Hx as ->. split; [done|].
        exists v. apply lookup_insert_eq.
    + intros i' id'. rewrite !elem_of_app, list_elem_of_singleton.
      intros [?|[Hin|Hin]]; [done|by eapply Hv1|].
      destruct Htail as [-> | [-> | ->]].
      * by apply elem_of_nil in Hin.
      * by apply list_elem_of_singleton in Hin.
      * apply elem_of_cons in Hin as [?|Hin]; [done|].
        apply list_elem_of_singleton in Hin. by injection Hin as -> ->.
Qed.

Lemma batch_progress fuel :
  Imports (getImportPackage env fuel) ∧ Checks (handleSyntaxPackage env fuel).
Proof.
  induction fuel as [|fuel [IHget IHhandle]].
  - split; [intros ??????|intros ????????]; done.
  - split.
    + by apply getImportPackageBody_imports.
    + by apply handleSyntaxPackageBody_checks.
Qed.

Lemma goEach_progress {K} (f : K → batch → option (pkgOrErr * batch))
    (requests : list K) b e b' :
  (∀ k b r b', k ∈ requests → IndexValid b → f k b = Some (r, b') → Progress b b') →
  IndexValid b → goEach f requests b = Some (e, b') → Progress b b'.
Proof.
  revert b e. induction requests as [|k rest IH]; intros b e Hf Hvalid; simpl.
  - intros [= _ <-]. apply Progress_refl.
  - destruct (f k b) as [[r b1]|] eqn:Hk; [|done].
    destruct (goEach f rest b1) as [[e1 b2]|] eqn:Hrest; [|done].
    intros [= _ <-].
    pose proof (Hf _ _ _ _ (list_elem_of_here _ _) Hvalid Hk) as H1.
    eapply Progress_trans; [done|]. eapply IH; [|by eapply Progress_IndexValid|done].
    intros k' b0 r0 b0' Hin. apply Hf. by apply list_elem_of_further.
Qed.

End BatchProgress.

(** ** What a batch guarantees to its callers *)

Section BatchGuarantees.
Import Handles Batch.
Context {C : Type}.

(** X13. [getImportPackage] never returns [(nil, nil)]: in a batch whose
    completed import futures hold a package or an error each, a call that
    returns returns a package or an error.  It keeps every import future
    that it finds, completed or not, as it is, and the futures it adds
    are completed and hold a package or an error. *)
Theorem getImportPackage_returns_package_or_error (env : Env) (fuel : nat)
    (id : PackageID) (b : typeCheckBatch C) :
  ImportsEvaluated b →
  match getImportPackage env fuel id b with
  | Some (r, b') =>
      evaluated r
      ∧ ImportsEvaluated b'
      ∧ futuresGrow evaluated (importPackages b) (importPackages b')
  | None => True
  end.
Proof.
  intros Hev. destruct (getImportPackage env fuel id b) as [[r b']|] eqn:Hcall; [|done].
  destruct (batch_progress (C := C) env (λ _ _, True) fuel) as [Hget _].
  destruct (Hget id b r b') as [Hprogress Hr]; [done..|].
  split_and!; [by apply Hr|by eapply Progress_ImportsEvaluated|].
  by destruct Hprogress as (_ & _ & _ & _ & Himp & _).
Qed.

(** Every entry that [forEachPackageInternal] puts into [syntaxIndex] is
    an index at which the package is requested. *)
Lemma syntaxIndex_valid (syntaxIDs : list PackageID) id i :
  foldl (λ index r, <[r.2 := r.1]> index) (∅ : gmap PackageID nat) (imap pair syntaxIDs)
    !! id = Some i →
  syntaxIDs !! i = Some id.
Proof.
  assert (∀ (requests : list (nat * PackageID)) (index : gmap PackageID nat),
            foldl (λ index r, <[r.2 := r.1]> index) index requests !! id = Some i →
            index !! id = Some i ∨ (i, id) ∈ requests) as Hfold.
  { induction requests as [|[j x] rest IH]; intros index; simpl; [auto|].
    intros [[[-> ->]|[_ Hl]]%lookup_insert_Some|Hin]%IH.
    - right. apply list_elem_of_here.
    - by left.
    - right. by apply list_elem_of_further. }
  intros [Hl|Hin]%Hfold; [done|].
  apply elem_of_lookup_imap in Hin as (j & x & [= -> ->] & Hj). done.
Qed.

(** X14. In one run of [forEachPackageInternal], [post] is called at most
    once for each package, and only with an index at which that package
    is requested. *)
Theorem forEachPackageInternal_posts_once (env : Env) (fuel : nat)
    (metadata : gmap PackageID Metadata) (graph : option importGraph)
    (importIDs syntaxIDs : list PackageID) (pre : option (nat → packageHandle → bool))
    (post : nat → Package → C → option C) (c : C) :
  match forEachPackageInternal env fuel metadata graph importIDs syntaxIDs pre post c with
  | Some (e, b) =>
      NoDup (posted (log b))
      ∧ ∀ i id, EvPost i id ∈ log b → syntaxIDs !! i = Some id
  | None => True
  end.
Proof.
  unfold forEachPackageInternal. set (b0 := {| syntaxIndex := _ |}).
  set (Valid := λ (i : nat) (id : PackageID), syntaxIDs !! i = Some id).
  assert (IndexValid Valid b0) as Hvalid0.
  { intros id i Hi. by apply syntaxIndex_valid. }
  destruct (batch_progress (C := C) env Valid fuel) as [Hget Hhandle].
  destruct (goEach _ importIDs b0) as [[e1 b1]|] eqn:Himports; [|done].
  destruct (goEach _ (imap pair syntaxIDs) b1) as [[e2 b2]|] eqn:Hsyntax; [|done].
  assert (Progress Valid b0 b1) as H01.
  { eapply (goEach_progress Valid); [|done..].
    intros id b r b' _ Hvalid Hcall. by apply (Hget _ _ _ _ Hvalid Hcall). }
  assert (Progress Valid b1 b2) as H12.
  { eapply (goEach_progress Valid); [|by eapply Progress_IndexValid|done].
    intros [i id] b r b' (j & x & [= -> ->] & Hj)%elem_of_lookup_imap Hvalid Hcall.
    by apply (Hhandle _ _ _ _ _ Hvalid Hj Hcall). }
  destruct (Progress_trans Valid _ _ _ H01 H12)
    as (_ & _ & _ & _ & _ & _ & evs & Hlog & Hnodup & _ & Hindex).
  simpl in Hlog. rewrite Hlog. done.
Qed.

End BatchGuarantees.

Section BatchGuaranteesRuns.
Import Handles Batch.

Lemma getImportPackage_returns_package_or_error_witness :
  match getImportPackage (workspaceEnv None) 5 "a" (freshBatch ["a"]) with
  | Some (r, b') =>
      evaluated r
      ∧ ImportsEvaluated b'
      ∧ futuresGrow evaluated (importPackages (freshBatch ["a"])) (importPackages b')
  | None => True
  end.
Proof.
  apply (getImportPackage_returns_package_or_error (workspaceEnv None) 5 "a"
           (freshBatch ["a"])).
  intros id v Hv. simpl in Hv. by rewrite lookup_empty in Hv.
Defined.

(** The run of the witness: the call for [a] returns its package, and the
    batch ends with the completed futures of [a], [b] and [c]. *)
Example getImportPackage_workspace_futures :
  match getImportPackage (workspaceEnv None) 5 "a" (freshBatch ["a"]) with
  | Some (r, b') =>
      r = returnPkg (TypeCheck.NewPackage "a" "a")
      ∧ dom (importPackages b') = {[ "a"; "b"; "c" ]}
  | None => False
  end.
Proof. vm_compute. split; reflexivity. Qed.

End BatchGuaranteesRuns.

(** ** The rest of [resolveImportGraph] *)

Section SharedImportGraphFacts.
Import Handles Batch SharedImportGraph.

Section Pairs.
Context (rt : Runtime) (Hrange : RangeValid rt).

Lemma elem_of_rangePairs {V} (m : gmap string V) k v :
  (k, v) ∈ rangePairs rt m ↔ m !! k = Some v.
Proof.
  unfold rangePairs. rewrite list_elem_of_omap. split.
  - intros (k' & _ & Hk'). destruct (m !! k') as [v'|] eqn:Hl; [|done].
    injection Hk' as -> ->. done.
  - intros Hk. exists k. rewrite Hk. split; [|done].
    apply (elem_of_rangeKeys rt Hrange). eauto.
Qed.

Lemma rangePairs_keys {V} (m : gmap string V) : (rangePairs rt m).*1 = rangeKeys rt m.
Proof.
  unfold rangePairs.
  assert (∀ l : list string, (∀ k, k ∈ l → is_Some (m !! k)) →
            (omap (λ k, (λ v, (k, v)) <$> m !! k) l).*1 = l) as Hall.
  { induction l as [|k l IH]; intros Hl; [done|]. simpl.
    destruct (Hl k) as [v ->]; [apply list_elem_of_here|]. simpl. f_equal.
    apply IH. intros k' Hin. by apply Hl, list_elem_of_further. }
  apply Hall. intros k. by rewrite (elem_of_rangeKeys rt Hrange).
Qed.

Lemma rangeKeys_NoDup {V} (m : gmap string V) : NoDup (rangeKeys rt m).
Proof. rewrite (Hrange V m). apply NoDup_elements. Qed.

End Pairs.

Lemma compareDeps_fold last (pairs : list (PackageID * Hash)) u ids :
  foldl (λ (st : bool * list PackageID) (r : PackageID * Hash),
           (if st.1 then sameKey last r else false, st.2 ++ [r.1]))
        (u, ids) pairs
  = (u && forallb (sameKey last) pairs, ids ++ pairs.*1).
Proof.
  revert u ids. induction pairs as [|r pairs IH]; intros u ids; simpl.
  - by rewrite andb_true_r, app_nil_r.
  - rewrite IH. simpl. rewrite <- app_assoc. simpl. f_equal.
    destruct u; [done|]. by simpl.
Qed.

(** X15. The loop that [resolveImportGraph] runs over [deps] collects all
    the IDs of [deps], and it finds the dependencies unchanged if and
    only if there is a last import graph and its [deps] are equal to the
    new ones: the same packages with the same keys. *)
Theorem compareDeps_unchanged_iff (rt : Runtime) (deps : gmap PackageID Hash)
    (lastImportGraph : option importGraph) :
  RangeValid rt →
  ((compareDeps rt deps lastImportGraph).1 = true
   ↔ ∃ last, lastImportGraph = Some last ∧ ig_deps last = deps)
  ∧ (compareDeps rt deps lastImportGraph).2 = rangeKeys rt deps.
Proof.
  intros Hrange. unfold compareDeps. rewrite compareDeps_fold. simpl.
  split; [|apply (rangePairs_keys rt Hrange)].
  destruct lastImportGraph as [last|]; simpl; [|by split; [|intros (? & ? & _)]].
  rewrite andb_true_iff, bool_decide_eq_true, forallb_forall. split.
  - intros [Hsize Hsame]. exists last. split; [done|]. symmetry.
    apply map_subseteq_size_eq; [|lia].
    apply map_subseteq_spec. intros id key Hid.
    specialize (Hsame (id, key)). unfold sameKey in Hsame. simpl in Hsame.
    destruct (ig_deps last !! id) as [prevKey|].
    + f_equal. eapply bool_decide_eq_true_1, Hsame.
      apply list_elem_of_In. by apply (elem_of_rangePairs rt Hrange).
    + discriminate Hsame. apply list_elem_of_In. by apply (elem_of_rangePairs rt Hrange).
  - intros (? & [= <-] & <-). split; [done|]. intros [id key] Hin.
    apply list_elem_of_In, (elem_of_rangePairs rt Hrange) in Hin.
    unfold sameKey. simpl. rewrite Hin. by apply bool_decide_eq_true_2.
Qed.

Lemma compareDeps_unchanged_iff_witness :
  ((compareDeps fixedRuntime {[ "c" := "key of c" ]} (Some graphOfC)).1 = true
   ↔ ∃ last, Some graphOfC = Some last ∧ ig_deps last = {[ "c" := "key of c" ]})
  ∧ (compareDeps fixedRuntime {[ "c" := "key of c" ]} (Some graphOfC)).2
    = rangeKeys fixedRuntime ({[ "c" := "key of c" ]} : gmap PackageID Hash).
Proof.
  apply (compareDeps_unchanged_iff fixedRuntime {[ "c" := "key of c" ]} (Some graphOfC)).
  intros V m. unfold rangeOrder. simpl. reflexivity.
Defined.

(** The futures of a map all hold a package or an error: the loop that
    copies them does not panic, and it copies every one of them. *)
Lemma collectImports_evaluated (rt : Runtime) (futures : gmap PackageID (option pkgOrErr)) :
  RangeValid rt →
  (∀ id f, futures !! id = Some f → ∃ v, f = Some v ∧ evaluated v) →
  ∃ imports, collectImports rt futures = Some imports
    ∧ ∀ id v, imports !! id = Some v ↔ futures !! id = Some (Some v).
Proof.
  intros Hrange Hall. unfold collectImports.
  assert (∀ (l : list (PackageID * option pkgOrErr)) (acc : gmap PackageID pkgOrErr),
            NoDup (l.*1) →
            (∀ id f, (id, f) ∈ l → ∃ v, f = Some v ∧ evaluated v) →
            ∃ imports,
              foldl copyImport (Some acc) l = Some imports
              ∧ ∀ id v, imports !! id = Some v
                        ↔ (id, Some v) ∈ l ∨ (id ∉ fst <$> l) ∧ acc !! id = Some v) as Hfold.
  { induction l as [|[k f] l IH]; intros acc Hnodup Hl.
    - exists acc. split; [done|]. intros id v. rewrite elem_of_nil.
      split; [intros ?; right; split; [apply not_elem_of_nil|done]|by intros [[]|[_ ?]]].
    - rewrite fmap_cons in Hnodup. apply NoDup_cons in Hnodup as [Hk Hnodup].
      destruct (Hl k f (list_elem_of_here _ _)) as (v & -> & Hv). cbn [foldl].
      assert (copyImport (Some acc) (k, Some v) = Some (<[k := v]> acc)) as ->.
      { unfold copyImport. simpl. destruct Hv as [Hv|Hv]; destruct (pkg v), (err v); done. }
      destruct (IH (<[k := v]> acc) Hnodup) as (imports & -> & Himports).
      { intros id f Hin. apply (Hl id f). by apply list_elem_of_further. }
      exists imports. split; [done|]. intros id w. rewrite Himports.
      rewrite fmap_cons, elem_of_cons, not_elem_of_cons, lookup_insert_Some. simpl. split.
      + intros [?|[Hid [[<- <-]|[Hne Hacc]]]]; [by left; right|by left; left|].
        right. split; [by split|done].
      + intros [[[= -> <-]|Hin]|[[Hne Hid] Hacc]].
        * right. split; [|by left]. intros Hin. apply Hk. done.
        * by left.
        * right. split; [done|by right]. }
  destruct (Hfold (rangePairs rt futures) ∅) as (imports & -> & Himports).
  - rewrite (rangePairs_keys rt Hrange). apply (rangeKeys_NoDup rt Hrange).
  - intros id f Hin%(elem_of_rangePairs rt Hrange). by eapply Hall.
  - exists imports. split; [done|]. intros id v.
    rewrite Himports, (elem_of_rangePairs rt Hrange), lookup_empty. naive_solver.
Qed.

Lemma getImportPackage_future {C} (env : Env) fuel id (b : typeCheckBatch C) r b' :
  getImportPackage env fuel id b = Some (r, b') → is_Some (importPackages b' !! id).
Proof.
  destruct fuel as [|fuel]; [done|]. simpl. unfold getImportPackageBody.
  destruct (importPackages b !! id) as [f|] eqn:Hf.
  - destruct (awaitFuture env id f); [|done]. simpl. intros [= _ <-]. by rewrite Hf.
  - match goal with
    | |- match ?returned with _ => _ end = _ → _ => destruct returned as [[v b2]|]; [|done]
    end.
    intros [= _ <-]. simpl. rewrite lookup_insert_eq. by eexists.
Qed.

(** X16. When [resolveImportGraph] finds the dependencies changed and the
    batch that imports them returns without an error, it returns a new
    import graph and does not panic: the graph has the new [deps], its
    imports are the values of the import futures of the batch, each of
    them a package or an error, and every package of [deps] is among
    them. *)
Theorem resolveImportGraph_new_graph (env : Env) (fuel : nat) (s : ImportGraph.Snapshot)
    (lastImportGraph : option importGraph) :
  RangeValid (rt env) →
  match ImportGraph.importGraphDeps (rt env) fuel s with
  | Some (Ok deps) =>
      if (compareDeps (rt env) deps lastImportGraph).1 then True
      else
        match forEachPackageInternal env fuel
                (ImportGraph.metadata (ImportGraph.meta s)) None
                (compareDeps (rt env) deps lastImportGraph).2 [] None
                (λ _ _ (_ : unit), None) tt with
        | Some (None, b) =>
            ∃ next, resolveImportGraph env fuel s lastImportGraph = Some (Ok next)
              ∧ ig_deps next = deps
              ∧ (∀ id v, ig_imports next !! id = Some v
                         ↔ importPackages b !! id = Some (Some v))
              ∧ (∀ id v, ig_imports next !! id = Some v → evaluated v)
              ∧ ∀ id, id ∈ dom deps → is_Some (ig_imports next !! id)
        | _ => True
        end
  | _ => True
  end.
Proof.
  intros Hrange. unfold resolveImportGraph.
  destruct (ImportGraph.importGraphDeps (rt env) fuel s) as [[deps|err]|]; [|done..].
  destruct (compareDeps (rt env) deps lastImportGraph) as [unchanged ids] eqn:Hcompare.
  simpl. destruct unchanged; [done|].
  assert (ids = rangeKeys (rt env) deps) as Hids.
  { destruct (compareDeps_fold lastImportGraph (rangePairs (rt env) deps)
                (match lastImportGraph with
                 | Some last => bool_decide (size deps = size (ig_deps last))
                 | None => false
                 end) []) as [].
    unfold compareDeps in Hcompare. rewrite compareDeps_fold in Hcompare.
    injection Hcompare as _ <-. apply (rangePairs_keys (rt env) Hrange). }
  destruct (forEachPackageInternal _ _ _ _ _ _ _ _ _) as [[[err|] b]|] eqn:Hrun; [done| |done].
  revert Hrun. unfold forEachPackageInternal. set (b0 := {| syntaxIndex := _ |}).
  destruct (goEach _ ids b0) as [[e1 b1]|] eqn:Himports; [|done].
  simpl. intros [= He <-]. destruct e1; [done|]. clear He.
  destruct (batch_progress (C := unit) env (λ _ _, True) fuel) as [Hget _].
  (* every requested import has a future, and the futures only grow *)
  assert (∀ (l : list PackageID) (b b' : typeCheckBatch unit) e,
            goEach (getImportPackage env fuel) l b = Some (e, b') →
            Progress (λ _ _, True) b b'
            ∧ ∀ id, id ∈ l → is_Some (importPackages b' !! id)) as Hgo.
  { induction l as [|id l IH]; intros b b' e; simpl.
    - intros [= _ <-]. split; [apply Progress_refl|]. by intros id []%elem_of_nil.
    - destruct (getImportPackage env fuel id b) as [[r b2]|] eqn:Hcall; [|done].
      destruct (goEach _ l b2) as [[e2 b3]|] eqn:Hrest; [|done].
      intros [= _ <-]. destruct (IH _ _ _ Hrest) as [H23 Hl].
      destruct (Hget _ _ _ _ ltac:(done) Hcall) as [H12 _].
      split; [by eapply Progress_trans|].
      intros id' [->|Hin]%elem_of_cons; [|by apply Hl].
      destruct (getImportPackage_future _ _ _ _ _ _ Hcall) as [f Hf].
      exists f. by apply H23. }
  destruct (Hgo _ _ _ _ Himports) as [(_ & _ & _ & _ & [_ Hnew] & _) Hfutures].
  destruct (collectImports_evaluated (rt env) (importPackages b1) Hrange)
    as (imports & -> & Himports').
  { intros id f Hf. destruct (Hnew id) as [Hnone|(v & Hv & He)]; [done|congruence|].
    exists v. split; [congruence|done]. }
  simpl. eexists. split; [done|]. simpl. split_and!; [done|done| |].
  - intros id v Hv%Himports'.
    destruct (Hnew id) as [Hnone|(v' & Hv' & He)]; [done|congruence|].
    congruence.
  - intros id Hid. destruct (Hfutures id) as [f Hf].
    { rewrite Hids. apply (elem_of_rangeKeys (rt env) Hrange). by apply elem_of_dom. }
    destruct (Hnew id) as [Hnone|(v & Hv & _)]; [done|congruence|].
    exists v. by apply Himports'.
Qed.

Lemma resolveImportGraph_new_graph_witness :
  match ImportGraph.importGraphDeps (rt (workspaceEnv None)) 5 workspaceOpen with
  | Some (Ok deps) =>
      if (compareDeps (rt (workspaceEnv None)) deps None).1 then True
      else
        match forEachPackageInternal (workspaceEnv None) 5
                (ImportGraph.metadata (ImportGraph.meta workspaceOpen)) None
                (compareDeps (rt (workspaceEnv None)) deps None).2 [] None
                (λ _ _ (_ : unit), None) tt with
        | Some (None, b) =>
            ∃ next, resolveImportGraph (workspaceEnv None) 5 workspaceOpen None
                    = Some (Ok next)
              ∧ ig_deps next = deps
              ∧ (∀ id v, ig_imports next !! id = Some v
                         ↔ importPackages b !! id = Some (Some v))
              ∧ (∀ id v, ig_imports next !! id = Some v → evaluated v)
              ∧ ∀ id, id ∈ dom deps → is_Some (ig_imports next !! id)
        | _ => True
        end
  | _ => True
  end.
Proof.
  apply (resolveImportGraph_new_graph (workspaceEnv None) 5 workspaceOpen None).
  intros V m. unfold rangeOrder. simpl. reflexivity.
Defined.

(** The run of the witness: with the file of [a] open, the graph holds
    the imports of [b], which [a] imports, and of [c], which [b]
    imports. *)
Example resolveImportGraph_workspace :
  match resolveImportGraph (workspaceEnv None) 5 workspaceOpen None with
  | Some (Ok next) =>
      dom (ig_deps next) = {[ "b" ]}
      ∧ ig_imports next = {[ "b" := returnPkg (TypeCheck.NewPackage "b" "b");
                             "c" := returnPkg (TypeCheck.NewPackage "c" "c") ]}
  | _ => False
  end.
Proof. vm_compute. split; reflexivity. Qed.

End SharedImportGraphFacts.

(** ** More on [TypeCheck], [getImportPackage], [handleSyntaxPackage] and [importMap] *)

Section BatchMore.
Import Handles Batch.

(** X17. [TypeCheck] asked for packages that are all different returns a
    slice with one entry for each of them, and if it returns no error
    none of the entries is nil. *)
Theorem TypeCheck_distinct_packages_returned {A} (env : Env) (fuel : nat)
    (s : Snapshot A) (active : A) (ids : list PackageID) :
  NoDup ids →
  match TypeCheck env fuel s active ids with
  | Some (pkgs, e, _) => length pkgs = length ids ∧ (e = None → Forall is_Some pkgs)
  | None => True
  end.
Proof.
  intros Hnodup.
  destruct (TypeCheck env fuel s active ids) as [[[pkgs e] active']|] eqn:Hrun; [|done].
  destruct (TypeCheck_distinct_ids s env fuel active ids pkgs e active' Hnodup Hrun)
    as [Hlen Hfilled].
  split; [done|]. intros He. apply Forall_lookup. intros pos slot Hslot.
  destruct (Hfilled He pos) as [pkg Hpkg].
  { rewrite <- Hlen. by eapply lookup_lt_Some. }
  rewrite Hpkg in Hslot. injection Hslot as <-. by eexists.
Qed.

Lemma TypeCheck_distinct_packages_returned_witness :
  match TypeCheck (workspaceEnv None) 5 workspaceSnapshot ∅ ["a"; "c"] with
  | Some (pkgs, e, _) =>
      length pkgs = length ["a"; "c"] ∧ (e = None → Forall is_Some pkgs)
  | None => True
  end.
Proof.
  apply (TypeCheck_distinct_packages_returned (workspaceEnv None) 5 workspaceSnapshot ∅
           ["a"; "c"]).
  eapply bool_decide_unpack. vm_compute. exact I.
Defined.

Lemma activePackages_all_active {A} (s : Snapshot A) (active : A) (ids : list PackageID) k :
  (∀ id, id ∈ ids → is_Some (getActivePackage s active id)) →
  activePackages s active k ids = (getActivePackage s active <$> ids, [], []).
Proof.
  revert k. induction ids as [|id ids IH]; intros k Hall; [done|]. simpl.
  rewrite IH by (intros id' Hin; by apply Hall, list_elem_of_further).
  by destruct (Hall id (list_elem_of_here _ _)) as [pkg ->].
Qed.

(** X18. [TypeCheck] asked only for packages that are active returns
    those packages and no error and leaves the active packages as they
    are, whatever the context, the parser, the checker and the rest of
    the snapshot are: the batch has nothing to do, and the call needs no
    step of it. *)
Theorem TypeCheck_active_packages {A} (env : Env) (fuel : nat)
    (s : Snapshot A) (active : A) (ids : list PackageID) :
  (∀ id, id ∈ ids → is_Some (getActivePackage s active id)) →
  TypeCheck env fuel s active ids
  = Some (getActivePackage s active <$> ids, None, active).
Proof.
  intros Hall. unfold TypeCheck. by rewrite (activePackages_all_active s active ids 0 Hall).
Qed.

Lemma TypeCheck_active_packages_witness :
  TypeCheck (workspaceEnv (Some "context canceled")) 0 workspaceSnapshot activeA ["a"; "a"]
  = Some (getActivePackage workspaceSnapshot activeA <$> ["a"; "a"], None, activeA).
Proof.
  apply (TypeCheck_active_packages (workspaceEnv (Some "context canceled")) 0
           workspaceSnapshot activeA ["a"; "a"]).
  intros id Hin. assert (id = "a") as -> by set_solver. by eexists.
Defined.

Section Calls.
Context {C : Type}.

(** X19. While the context is live, a call of [getImportPackage] that has
    returned is remembered: every later call for the same package returns
    the same result and leaves the batch as it is. *)
Theorem getImportPackage_memoized (env : Env) (fuel : nat) (id : PackageID)
    (b : typeCheckBatch C) :
  ctx_Err env = None →
  match getImportPackage env fuel id b with
  | Some (r, b') => ∀ fuel', getImportPackage env (S fuel') id b' = Some (r, b')
  | None => True
  end.
Proof.
  intros Hlive. destruct fuel as [|fuel]; [done|]. simpl.
  unfold getImportPackageBody at 1.
  destruct (importPackages b !! id) as [f|] eqn:Hf.
  - unfold awaitFuture. rewrite Hlive. destruct f as [v|]; [|done]. simpl.
    intros fuel'. unfold getImportPackageBody. rewrite Hf. unfold awaitFuture.
    by rewrite Hlive.
  - match goal with
    | |- match match ?returned with _ => _ end with _ => _ end =>
        destruct returned as [[v b2]|]; [|done]
    end.
    intros fuel'. simpl. unfold getImportPackageBody. simpl.
    rewrite lookup_insert_eq. unfold awaitFuture. by rewrite Hlive.
Qed.

(** X20. A call of [handleSyntaxPackage] that has returned is remembered:
    every later call for the same package, with whatever index, returns
    the same result and leaves the batch as it is; it does not call
    [post]. *)
Theorem handleSyntaxPackage_memoized (env : Env) (fuel : nat) (i : nat) (id : PackageID)
    (b : typeCheckBatch C) :
  match handleSyntaxPackage env fuel i id b with
  | Some (r, b') => ∀ fuel' j, handleSyntaxPackage env (S fuel') j id b' = Some (r, b')
  | None => True
  end.
Proof.
  destruct fuel as [|fuel]; [done|]. simpl. unfold handleSyntaxPackageBody at 1.
  destruct (syntaxPackages b !! id) as [f|] eqn:Hf.
  - destruct f as [v|]; [|done]. simpl. intros fuel' j.
    unfold handleSyntaxPackageBody. by rewrite Hf.
  - match goal with
    | |- match match ?returned with _ => _ end with _ => _ end =>
        destruct returned as [[v b2]|]; [|done]
    end.
    intros fuel' j. simpl. unfold handleSyntaxPackageBody. simpl.
    by rewrite lookup_insert_eq.
Qed.

Lemma populateDeps_sound (env : Env) (M : gmap PackageID Metadata) (root : PackageID) fuel :
  ∀ parent impMap impMap',
    (∀ d path, DepsByPkgPath parent !! path = Some d → tc (importsDirectly M) root d) →
    importMapSound M root impMap →
    populateDeps fuel env M parent impMap = Some impMap' →
    importMapSound M root impMap' ∧ impMap ⊆ impMap'.
Proof.
  induction fuel as [|fuel IH]; intros parent impMap impMap' Hparent Hsound; [done|].
  simpl.
  assert (∀ d, d ∈ rangeValues (rt env) (DepsByPkgPath parent) →
            tc (importsDirectly M) root d) as Hdeps.
  { intros d (path & _ & Hpath)%list_elem_of_omap. eauto. }
  clear Hparent. revert impMap Hsound.
  induction (rangeValues (rt env) (DepsByPkgPath parent)) as [|d ds IHds];
    intros impMap Hsound; simpl.
  { intros [= <-]. done. }
  destruct (M !! d) as [m|] eqn:Hm; simpl.
  2:{ intros Hnone. exfalso. clear -Hnone.
      induction ds as [|d' ds IHds]; simpl in Hnone; [done|]. by apply IHds. }
  assert (tc (importsDirectly M) root d) as Hd by apply Hdeps, list_elem_of_here.
  assert (∀ d', d' ∈ ds → tc (importsDirectly M) root d') as Hds.
  { intros d' Hin. by apply Hdeps, list_elem_of_further. }
  destruct (impMap !! PkgPath m) as [known|] eqn:Hknown; [by apply IHds|].
  destruct (populateDeps fuel env M m (<[PkgPath m := ID m]> impMap)) as [impMap1|] eqn:Hrec.
  2:{ intros Hnone. exfalso. clear -Hnone.
      induction ds as [|d' ds IHds]; simpl in Hnone; [done|]. by apply IHds. }
  assert (∀ d' path, DepsByPkgPath m !! path = Some d' → tc (importsDirectly M) root d')
    as Hm1.
  { intros d' path Hpath. eapply tc_r; [done|]. by exists m, path. }
  assert (importMapSound M root (<[PkgPath m := ID m]> impMap)) as Hsound0.
  { intros path dep [[<- <-]|[_ Hl]]%lookup_insert_Some; [|by apply Hsound].
    by exists d, m. }
  destruct (IH m _ _ Hm1 Hsound0 Hrec) as [Hsound1 Hsub1].
  intros Hrest. destruct (IHds Hds impMap1 Hsound1 Hrest) as [Hsound' Hsub'].
  split; [done|]. etrans; [|done]. etrans; [|done]. by apply insert_subseteq.
Qed.

Lemma populateDeps_foldl_None (env : Env) (M : gmap PackageID Metadata) fuel ds :
  foldl (λ acc id,
           impMap ← acc;
           m ← M !! id;
           match impMap !! PkgPath m with
           | Some _ => Some impMap
           | None => populateDeps fuel env M m (<[PkgPath m := ID m]> impMap)
           end) None ds = None.
Proof. by induction ds. Qed.

Lemma populateDeps_direct (env : Env) (M : gmap PackageID Metadata) fuel :
  ∀ parent impMap impMap',
    populateDeps fuel env M parent impMap = Some impMap' →
    impMap ⊆ impMap'
    ∧ ∀ d m, d ∈ rangeValues (rt env) (DepsByPkgPath parent) → M !! d = Some m →
        is_Some (impMap' !! PkgPath m).
Proof.
  induction fuel as [|fuel IH]; intros parent impMap impMap'; [done|]. simpl.
  revert impMap.
  induction (rangeValues (rt env) (DepsByPkgPath parent)) as [|d ds IHds];
    intros impMap; simpl.
  { intros [= <-]. split; [done|]. by intros d m []%elem_of_nil. }
  destruct (M !! d) as [m|] eqn:Hm; simpl; [|by rewrite populateDeps_foldl_None].
  destruct (impMap !! PkgPath m) as [known|] eqn:Hknown.
  - intros [Hsub Hrest]%IHds. split; [done|].
    intros d' m' [->|Hin]%elem_of_cons Hm'; [|by eapply Hrest].
    assert (m' = m) as -> by congruence.
    exists known. by eapply lookup_weaken.
  - destruct (populateDeps fuel env M m (<[PkgPath m := ID m]> impMap)) as [impMap1|]
      eqn:Hrec; [|by rewrite populateDeps_foldl_None].
    destruct (IH _ _ _ Hrec) as [Hsub1 _].
    intros [Hsub Hrest]%IHds. split.
    + etrans; [|done]. etrans; [|done]. by apply insert_subseteq.
    + intros d' m' [->|Hin]%elem_of_cons Hm'; [|by eapply Hrest].
      assert (m' = m) as -> by congruence.
      exists (ID m). eapply lookup_weaken; [|done]. eapply lookup_weaken; [|done].
      apply lookup_insert_eq.
Qed.

(** X21. [importMap] returns a map each of whose entries is the package
    path and the ID of the metadata of a package that the given package
    imports, directly or through other packages; and every package that
    it imports directly has its package path in the map. *)
Theorem importMap_entries (env : Env) (fuel : nat) (b : typeCheckBatch C) (id : PackageID) :
  RangeValid (rt env) →
  match importMap fuel env b id with
  | Some impMap =>
      importMapSound (meta b) id impMap
      ∧ ∀ depID m, importsDirectly (meta b) id depID → meta b !! depID = Some m →
          is_Some (impMap !! PkgPath m)
  | None => True
  end.
Proof.
  intros Hrange. unfold importMap.
  destruct (meta b !! id) as [m0|] eqn:Hm0; [|done]. simpl.
  destruct (populateDeps fuel env (meta b) m0 ∅) as [impMap|] eqn:Hpopulate; [|done].
  split.
  - eapply (populateDeps_sound env (meta b) id fuel m0 ∅); [| |done].
    + intros d path Hpath. apply tc_once. by exists m0, path.
    + by intros path dep.
  - intros depID m (m0' & path & Hm0' & Hpath) Hm.
    assert (m0' = m0) as -> by congruence.
    destruct (populateDeps_direct env (meta b) fuel m0 ∅ impMap Hpopulate) as [_ Hdirect].
    eapply Hdirect; [|done]. apply (elem_of_rangeValues (rt env) Hrange). eauto.
Qed.

End Calls.

Lemma getImportPackage_memoized_witness :
  match getImportPackage (workspaceEnv None) 5 "a" (freshBatch ["a"]) with
  | Some (r, b') =>
      ∀ fuel', getImportPackage (workspaceEnv None) (S fuel') "a" b' = Some (r, b')
  | None => True
  end.
Proof.
  apply (getImportPackage_memoized (workspaceEnv None) 5 "a" (freshBatch ["a"])).
  reflexivity.
Defined.

Lemma importMap_entries_witness :
  match importMap 5 (workspaceEnv None) (freshBatch ["a"]) "a" with
  | Some impMap =>
      importMapSound (meta (freshBatch ["a"])) "a" impMap
      ∧ ∀ depID m, importsDirectly (meta (freshBatch ["a"])) "a" depID →
          meta (freshBatch ["a"]) !! depID = Some m →
          is_Some (impMap !! PkgPath m)
  | None => True
  end.
Proof.
  apply (importMap_entries (workspaceEnv None) 5 (freshBatch ["a"]) "a").
  intros V m. unfold rangeOrder. simpl. reflexivity.
Defined.

(** The import map of [a] in the workspace: [a] imports [b], which
    imports [c]. *)
Example importMap_workspace :
  importMap 5 (workspaceEnv None) (freshBatch ["a"]) "a" = Some {[ "b" := "b"; "c" := "c" ]}.
Proof. vm_compute. reflexivity. Qed.

End BatchMore.

(** ** [source.Analyze] and [source.FileDiagnostics] *)

Section SourceDiagnosticsFacts.
Import Handles SourceDiagnostics.

Lemma report_groups (diags : list TypeCheck.Diagnostic) :
  ∀ (reports : gmap URI (list TypeCheck.Diagnostic)) uri,
    default [] (foldl report reports diags !! uri)
    = default [] (reports !! uri) ++ filter (λ d, TypeCheck.d_URI d = uri) diags.
Proof.
  induction diags as [|d diags IH]; intros reports uri; simpl.
  - by rewrite app_nil_r.
  - rewrite IH, filter_cons. unfold report.
    destruct (decide (TypeCheck.d_URI d = uri)) as [<-|Hne].
    + rewrite lookup_insert_eq. simpl. by rewrite <- app_assoc.
    + by rewrite lookup_insert_ne.
Qed.

Lemma report_keys (diags : list TypeCheck.Diagnostic) :
  ∀ (reports : gmap URI (list TypeCheck.Diagnostic)) uri,
    is_Some (foldl report reports diags !! uri)
    ↔ is_Some (reports !! uri) ∨ uri ∈ TypeCheck.d_URI <$> diags.
Proof.
  induction diags as [|d diags IH]; intros reports uri; simpl.
  - rewrite elem_of_nil. tauto.
  - rewrite IH, elem_of_cons. unfold report.
    destruct (decide (TypeCheck.d_URI d = uri)) as [<-|Hne].
    + rewrite lookup_insert_eq. split; [auto|]. intros _. left. by eexists.
    + rewrite lookup_insert_ne by done. naive_solver.
Qed.

(** What [Analyze] returns: the diagnostics that [snapshot.Analyze]
    reported, grouped by URI. *)
Lemma Analyze_reports (env : Env) (pkgID : PackageID) (includeConvenience : bool) reports :
  Analyze env pkgID includeConvenience = Ok reports →
  ∃ analysisDiagnostics,
    snapshot_Analyze env pkgID (analyzersOf env includeConvenience) = Ok analysisDiagnostics
    ∧ ∀ uri,
        reports !! uri
        = match filter (λ d, TypeCheck.d_URI d = uri) analysisDiagnostics with
          | [] => None
          | diags => Some diags
          end.
Proof.
  unfold Analyze. destruct (ctx_Err env) as [cancelled|]; [done|].
  destruct (snapshot_Analyze env pkgID _) as [diags|err] eqn:Hanalyze; [|done].
  intros [= <-]. exists diags. split; [done|]. intros uri.
  pose proof (report_groups diags ∅ uri) as Hgroup.
  pose proof (report_keys diags ∅ uri) as Hkeys.
  rewrite lookup_empty in Hgroup, Hkeys. simpl in Hgroup.
  destruct (foldl report ∅ diags !! uri) as [ds|] eqn:Hl; simpl in Hgroup.
  - rewrite <- Hgroup. destruct ds as [|d ds]; [|done].
    destruct Hkeys as [[[]%is_Some_None|Hin] _]; [by eexists|].
    apply list_elem_of_fmap in Hin as (d & -> & Hin).
    assert (d ∈ filter (λ d0, TypeCheck.d_URI d0 = TypeCheck.d_URI d) diags) as Hd
      by by apply list_elem_of_filter.
    rewrite <- Hgroup in Hd. by apply elem_of_nil in Hd.
  - by rewrite <- Hgroup.
Qed.

(** X22. [Analyze] runs the default and the staticcheck analyzers, and
    the convenience analyzers as well if it is asked to.  It fails with
    the error of a cancelled context or with the error of
    [snapshot.Analyze]; otherwise it groups the diagnostics of the
    analyzers by file: the entry of a URI holds the diagnostics with that
    URI, all of them, in the order in which they were reported, and a URI
    without a diagnostic has no entry. *)
Theorem Analyze_groups_by_URI (env : Env) (pkgID : PackageID) (includeConvenience : bool) :
  analyzersOf env includeConvenience
  = rangeValues (rt env) (DefaultAnalyzers env)
    ++ rangeValues (rt env) (StaticcheckAnalyzers env)
    ++ (if includeConvenience then rangeValues (rt env) (ConvenienceAnalyzers env) else [])
  ∧ match Analyze env pkgID includeConvenience with
    | Ok reports =>
        ∃ analysisDiagnostics,
          snapshot_Analyze env pkgID (analyzersOf env includeConvenience)
          = Ok analysisDiagnostics
          ∧ ∀ uri,
              reports !! uri
              = match filter (λ d, TypeCheck.d_URI d = uri) analysisDiagnostics with
                | [] => None
                | diags => Some diags
                end
    | Err err =>
        ctx_Err env = Some err
        ∨ snapshot_Analyze env pkgID (analyzersOf env includeConvenience) = Err err
    end.
Proof.
  split.
  - unfold analyzersOf. destruct includeConvenience; simpl; [by rewrite <- app_assoc|].
    by rewrite app_nil_r.
  - destruct (Analyze env pkgID includeConvenience) as [reports|err] eqn:Hrun.
    + by apply Analyze_reports in Hrun.
    + revert Hrun. unfold Analyze.
      destruct (ctx_Err env) as [cancelled|]; [intros [= <-]; by left|].
      destruct (snapshot_Analyze env pkgID _) as [diags|e]; [done|].
      intros [= <-]. by right.
Qed.

(** X23. [FileDiagnostics] returns the identity of the file and, after
    the diagnostics that [DiagnosePackage] has for the file, the
    diagnostics of the analyzers that are in the file: all of them and no
    other, in the order in which they were reported.  The convenience
    analyzers are not run. *)
Theorem FileDiagnostics_of_file (env : Env) (uri : URI) :
  match FileDiagnostics env uri with
  | Ok (identity, fileDiags) =>
      ∃ fh pkgID diagnostics analysisDiagnostics,
        GetVersionedFile env uri = Ok fh
        ∧ identity = fileIdentity fh
        ∧ GetTypedFile env fh = Ok pkgID
        ∧ DiagnosePackage env pkgID = Ok diagnostics
        ∧ snapshot_Analyze env pkgID (analyzersOf env false) = Ok analysisDiagnostics
        ∧ fileDiags
          = default [] (diagnostics !! fh_URI fh)
            ++ filter (λ d, TypeCheck.d_URI d = fh_URI fh) analysisDiagnostics
  | Err err => True
  end.
Proof.
  unfold FileDiagnostics.
  destruct (GetVersionedFile env uri) as [fh|e1] eqn:Hfh; [|done].
  destruct (GetTypedFile env fh) as [pkgID|e2] eqn:Hpkg; [|done].
  destruct (DiagnosePackage env pkgID) as [diagnostics|e3] eqn:Hdiag; [|done].
  destruct (Analyze env pkgID false) as [reports|e4] eqn:Hrun; [|done].
  destruct (Analyze_reports _ _ _ _ Hrun) as (diags & Hanalyze & Hreports).
  exists fh, pkgID, diagnostics, diags. split_and!; [done..|].
  f_equal. rewrite Hreports. by destruct (filter _ diags).
Qed.

End SourceDiagnosticsFacts.

(** ** [parseLinkname] *)

Section LinknameFacts.
Import Linkname.







End LinknameFacts.

(** ** The orderings of the persistent maps *)

Section PersistentMapsFacts.
Import Handles PersistentMaps.

Lemma string_compare_refl s : String.compare s s = Eq.
Proof.
  induction s as [|c s IH]; simpl; [done|].
  unfold Ascii.compare. by rewrite N.compare_refl.
Qed.

Lemma stringLess_spec a b : stringLess a b = true ↔ String.le a b ∧ a ≠ b.
Proof.
  unfold stringLess, String.ltb, String.le, String.leb.
  destruct (String.compare a b) eqn:Hcompare.
  - apply String.compare_eq_iff in Hcompare. split; [done|]. by intros [_ ?].
  - split; [|done]. intros _. split; [done|]. intros ->.
    by rewrite string_compare_refl in Hcompare.
  - split; [done|]. by intros [[] _].
Qed.

Lemma stringLess_strict_total : StrictTotal stringLess.
Proof.
  split_and!.
  - intros a. apply not_true_is_false. rewrite stringLess_spec. by intros [_ ?].
  - intros a b c. rewrite !stringLess_spec. intros [Hab Hne] [Hbc Hne'].
    split; [by etrans|]. intros ->. apply Hne. by apply (anti_symm String.le).
  - intros a b. destruct (decide (a = b)) as [|Hne]; [by left|]. right.
    rewrite !stringLess_spec. destruct (total String.le a b); [left|right]; done.
Qed.

(** X25. The comparison that [newPackagesMap] gives to the map of
    package handles is a strict total order of the package keys: no key
    is less than itself, the comparison is transitive, and of two
    different keys one is less than the other. *)
Theorem packageKeyLess_strict_total : StrictTotal packageKeyLess.
Proof.
  destruct stringLess_strict_total as (Hirr & Htrans & Htotal).
  unfold packageKeyLess. split_and!.
  - intros a. by rewrite decide_False by (intros ?; done).
  - intros a b c. repeat case_decide; rewrite ?bool_decide_eq_true; intros Hab Hbc;
      try lia; try congruence. by eapply Htrans.
  - intros [m1 id1] [m2 id2]. simpl.
    destruct (decide (m1 = m2)) as [->|Hne].
    + rewrite !decide_False by (intros ?; done).
      destruct (Htotal id1 id2) as [->|[?|?]]; auto.
    + right. rewrite decide_True by done. rewrite (decide_True (P := m2 ≠ m1)) by done.
      rewrite !bool_decide_eq_true. lia.
Qed.

(** X26. If [Hash.Less] is a strict total order of hashes, [parseKeyLess]
    is a strict total order of parse keys. *)
Theorem parseKeyLess_strict_total (Hash_Less : Hash → Hash → bool) :
  StrictTotal Hash_Less → StrictTotal (parseKeyLess Hash_Less).
Proof.
  intros (Hhirr & Hhtrans & Hhtotal).
  destruct stringLess_strict_total as (Hirr & Htrans & Htotal).
  unfold parseKeyLess. split_and!.
  - intros a. by rewrite !decide_False by (intros ?; done).
  - intros [[ua ha] ma] [[ub hb] mb] [[uc hc] mc]. simpl.
    repeat case_decide; rewrite ?bool_decide_eq_true; intros Hab Hbc;
      repeat match goal with H : ¬ (_ ≠ _) |- _ => apply dec_stable in H end;
      subst; try lia; try done; try (by eapply Htrans); try (by eapply Hhtrans);
      exfalso; pose proof (Hhtrans _ _ _ Hab Hbc) as Hb; by rewrite Hhirr in Hb.
  - intros [[u1 h1] m1] [[u2 h2] m2]. simpl.
    destruct (decide (m1 = m2)) as [->|Hne].
    2:{ right. rewrite decide_True by done. rewrite (decide_True (P := m2 ≠ m1)) by done.
        rewrite !bool_decide_eq_true. lia. }
    rewrite !(decide_False (P := m2 ≠ m2)) by (intros ?; done).
    destruct (decide (h1 = h2)) as [->|Hh].
    2:{ right. rewrite decide_True by done. rewrite (decide_True (P := h2 ≠ h1)) by done.
        destruct (Hhtotal h1 h2) as [?|[?|?]]; auto. }
    rewrite !(decide_False (P := h2 ≠ h2)) by (intros ?; done).
    destruct (Htotal u1 u2) as [->|[?|?]]; auto.
Qed.

Lemma parseKeyLess_strict_total_witness : StrictTotal (parseKeyLess stringLess).
Proof. apply (parseKeyLess_strict_total stringLess). apply stringLess_strict_total. Defined.

End PersistentMapsFacts.

(** ** [depsErrors] *)

Section DepsErrorsFacts.
Import Handles DepsErrors.

Lemma indexImport_indexed env uris pgf allImports i :
  AllIndexed env uris allImports →
  (∀ value, imp_Path i = Some value →
     Indexed env uris (trim quote value) {| cgf := pgf; imp := i |}) →
  AllIndexed env uris (indexImport pgf allImports i).
Proof.
  intros Hall Hi item l. unfold indexImport.
  destruct (imp_Path i) as [value|] eqn:Hpath; [|by apply Hall].
  destruct (decide (trim quote value = item)) as [<-|Hne].
  - rewrite lookup_insert_eq. intros [= <-]. apply Forall_app. split.
    + destruct (allImports !! trim quote value) as [l'|] eqn:Hl; simpl; [|done].
      by apply (Hall _ _ Hl).
    + apply Forall_singleton. by apply Hi.
  - rewrite lookup_insert_ne by done. by apply Hall.
Qed.

Lemma indexGroup_indexed env uris pgf group :
  ∀ allImports,
    AllIndexed env uris allImports →
    (∀ i value, i ∈ group → imp_Path i = Some value →
       Indexed env uris (trim quote value) {| cgf := pgf; imp := i |}) →
    AllIndexed env uris (foldl (indexImport pgf) allImports group).
Proof.
  induction group as [|i group IH]; intros allImports Hall Hgroup; simpl; [done|].
  apply IH.
  - apply indexImport_indexed; [done|]. intros value. apply Hgroup. by left.
  - intros i' value Hin. apply Hgroup. by right.
Qed.

Lemma indexGroups_indexed env uris pgf groups :
  ∀ allImports,
    AllIndexed env uris allImports →
    (∀ group i value, group ∈ groups → i ∈ group → imp_Path i = Some value →
       Indexed env uris (trim quote value) {| cgf := pgf; imp := i |}) →
    AllIndexed env uris
      (foldl (λ acc group, foldl (indexImport pgf) acc group) allImports groups).
Proof.
  induction groups as [|group groups IH]; intros allImports Hall Hgroups; simpl; [done|].
  apply IH.
  - apply indexGroup_indexed; [done|]. intros i value. apply Hgroups. by left.
  - intros group' i value Hin. apply Hgroups. by right.
Qed.

Lemma indexImports_indexed env all uris :
  ∀ allImports allImports',
    (∀ uri, uri ∈ uris → uri ∈ all) →
    AllIndexed env all allImports →
    indexImports env uris allImports = Ok allImports' →
    AllIndexed env all allImports'.
Proof.
  induction uris as [|uri uris IH]; intros allImports allImports' Hsub Hall; simpl.
  - by intros [= <-].
  - destruct (parseGoURI env uri) as [pgf|] eqn:Hparse; [|done].
    apply IH; [intros uri' Hin; apply Hsub; by right|].
    apply indexGroups_indexed; [done|].
    intros group i value Hgroup Hi Hpath. exists uri, group, value.
    split_and!; try done. apply Hsub. by left.
Qed.

Lemma importDiagnostics_spec env moduleMode item depErr imps :
  ∀ errors errors',
    importDiagnostics env moduleMode item depErr imps errors = Ok errors' →
    ∃ new, errors' = errors ++ new ∧ Forall2 (ForImport env moduleMode depErr item) imps new.
Proof.
  induction imps as [|fi imps IH]; intros errors errors'; simpl.
  - intros [= <-]. exists []. by rewrite app_nil_r.
  - destruct (NodeRange env (cgf fi) (imp fi)) as [rng|] eqn:Hrng; [|done].
    destruct (goGetQuickFixes env moduleMode (pgf_URI (cgf fi)) item) as [fixes|] eqn:Hfixes;
      [|done].
    intros Hrest. destruct (IH _ _ Hrest) as (new & -> & Hnew).
    eexists (_ :: new). split; [by rewrite <- app_assoc|].
    constructor; [|done]. by repeat split.
Qed.

Lemma stackDiagnostics_spec env workspacePackages allImports moduleMode depErr items :
  ∀ errors errors',
    stackDiagnostics env workspacePackages allImports moduleMode depErr items errors
    = Ok errors' →
    ∃ new, errors' = errors ++ new
           ∧ ForStack env workspacePackages allImports moduleMode depErr items new.
Proof.
  induction items as [|item items IH]; intros errors errors'; simpl.
  - intros [= <-]. exists []. split; [by rewrite app_nil_r|].
    exists [], []. split_and!; try done. by left.
  - destruct (workspacePackages !! item) as [path|] eqn:Hws.
    + intros [= <-]. exists []. split; [by rewrite app_nil_r|].
      exists [], []. split_and!; try done; [apply prefix_nil|].
      right. exists item. split; [|by rewrite Hws]. by apply prefix_cons, prefix_nil.
    + destruct (importDiagnostics env moduleMode item depErr
                  (default [] (allImports !! item)) errors) as [errors1|] eqn:Himports;
        [|done].
      intros Hrest.
      destruct (importDiagnostics_spec _ _ _ _ _ _ _ Himports) as (new1 & -> & Hnew1).
      destruct (IH _ _ Hrest) as (new2 & -> & reached & news & Hprefix & Hout & Hstop & -> & Hnews).
      exists (new1 ++ concat news). split; [by rewrite <- app_assoc|].
      exists (item :: reached), (new1 :: news). split_and!; try done.
      * by apply prefix_cons.
      * by constructor.
      * destruct Hstop as [->|(p & Hp & Hin)]; [by left|right].
        exists p. split; [|done]. simpl. by apply prefix_cons.
      * by constructor.
Qed.

Lemma forEachError_spec (P : PackageError → list Diagnostic → Prop) body relevantErrors :
  (∀ depErr errors errors',
     depErr ∈ relevantErrors → body depErr errors = Ok errors' →
     ∃ new, errors' = errors ++ new ∧ P depErr new) →
  ∀ errors errors',
    forEachError body relevantErrors errors = Ok errors' →
    ∃ news, errors' = errors ++ concat news ∧ Forall2 P relevantErrors news.
Proof.
  induction relevantErrors as [|depErr rest IH]; intros Hbody errors errors'; simpl.
  - intros [= <-]. exists []. by rewrite app_nil_r.
  - destruct (body depErr errors) as [errors1|] eqn:Hrun; [|done].
    intros Hrest.
    destruct (Hbody _ _ _ ltac:(by left) Hrun) as (new & -> & Hnew).
    destruct (IH ltac:(intros d e e' Hin; apply Hbody; by right) _ _ Hrest)
      as (news & -> & Hnews).
    exists (new :: news). split; [by rewrite <- app_assoc|]. by constructor.
Qed.

Lemma moduleDiagnostic_spec env meta pm depErr items :
  ∀ errors errors',
    moduleDiagnostic env meta pm depErr items errors = Ok errors' →
    ∃ new, errors' = errors ++ new ∧ ForModule env meta pm depErr items new.
Proof.
  induction items as [|item items IH]; intros errors errors'; simpl.
  - intros [= <-]. exists []. split; [by rewrite app_nil_r|]. by left.
  - destruct (referenceOf env meta pm item) as [reference|] eqn:Href.
    + unfold referenceOf in Href.
      destruct (meta !! item ≫= Module) as [module|] eqn:Hmodule; [|done]. rewrite Href.
      destruct (OffsetRange env pm _ _) as [rng|] eqn:Hrng; [|done].
      destruct (goGetQuickFixes env true (pm_URI pm) item) as [fixes|] eqn:Hfixes; [|done].
      intros [= <-]. eexists [_]. split; [done|]. right.
      exists [], item, items. eexists. split_and!; try done.
      exists reference. unfold referenceOf. rewrite Hmodule. by split_and!.
    + assert (moduleDiagnostic env meta pm depErr (item :: items) errors
              = moduleDiagnostic env meta pm depErr items errors) as Hskip.
      { simpl. unfold referenceOf in Href.
        destruct (meta !! item ≫= Module) as [module|]; [|done]. by rewrite Href. }
      simpl in Hskip. rewrite Hskip. intros Hrest.
      destruct (IH _ _ Hrest) as (new & -> & Hnew). exists new. split; [done|].
      destruct Hnew as [[-> Hnone]|(skipped & item' & rest & d & -> & -> & Hskipped & Hd)].
      * left. split; [done|]. by constructor.
      * right. exists (item :: skipped), item', rest, d. split_and!; try done.
        by constructor.
Qed.

Lemma Forall2_elem_of_l {A B} (P : A → B → Prop) l k x :
  Forall2 P l k → x ∈ l → ∃ y, y ∈ k ∧ P x y.
Proof.
  intros Hall [i Hi]%list_elem_of_lookup.
  destruct (Forall2_lookup_l _ _ _ _ _ Hall Hi) as (y & Hy & HP).
  exists y. split; [|done]. by eapply list_elem_of_lookup_2.
Qed.

Lemma Forall2_elem_of_r {A B} (P : A → B → Prop) l k y :
  Forall2 P l k → y ∈ k → ∃ x, x ∈ l ∧ P x y.
Proof.
  intros Hall [i Hi]%list_elem_of_lookup.
  destruct (Forall2_lookup_r _ _ _ _ _ Hall Hi) as (x & Hx & HP).
  exists x. split; [|done]. by eapply list_elem_of_lookup_2.
Qed.

Lemma elem_of_concat {A} (x : A) (ls : list (list A)) :
  x ∈ concat ls ↔ ∃ l, x ∈ l ∧ l ∈ ls.
Proof.
  induction ls as [|l ls IH]; simpl.
  - split; [by intros ?%elem_of_nil|]. by intros (l & _ & ?%elem_of_nil).
  - rewrite elem_of_app, IH. split.
    + intros [?|(l' & ? & ?)]; [exists l; split; [done|by left]|].
      exists l'. split; [done|by right].
    + intros (l' & Hx & [->|?]%elem_of_cons); [by left|right]. by exists l'.
Qed.

(** The relevant errors. *)
Lemma elem_of_relevant workspacePackages (DepsErrors : list PackageError) depErr :
  depErr ∈ filter (λ depsError, relevant workspacePackages depsError = true) DepsErrors
  ↔ depErr ∈ DepsErrors ∧ relevant workspacePackages depErr = true.
Proof. rewrite list_elem_of_filter. tauto. Qed.

(** The three passes of a call of [depsErrors] that returns without an
    error. *)
Lemma depsErrors_passes env m DepsErrors meta workspacePackages errors :
  depsErrors env m DepsErrors meta workspacePackages = Ok errors →
  let relevantErrors :=
    filter (λ depsError, relevant workspacePackages depsError = true) DepsErrors in
  (errors = [] ∧ (relevantErrors = [] ∨ CompiledGoFiles m = []))
  ∨ ∃ first allImports modFile pm news news',
      head (CompiledGoFiles m) = Some first
      ∧ indexImports env (CompiledGoFiles m) ∅ = Ok allImports
      ∧ nearestModFile env first = Ok modFile
      ∧ parseModURI env modFile = Ok pm
      ∧ errors = concat news ++ concat news'
      ∧ Forall2 (λ depErr new,
                   ForStack env workspacePackages allImports
                     (bool_decide (is_Some (Module m))) depErr
                     (reverse (ImportStack depErr)) new)
          relevantErrors news
      ∧ Forall2 (λ depErr new,
                   ForModule env meta pm depErr (reverse (ImportStack depErr)) new)
          relevantErrors news'.
Proof.
  intros Hrun relevantErrors. unfold depsErrors in Hrun. fold relevantErrors in Hrun.
  destruct relevantErrors as [|depErr rest] eqn:Hrelevant.
  { injection Hrun as <-. left. auto. }
  rewrite <- Hrelevant in *. clear Hrelevant.
  assert (match CompiledGoFiles m with
          | [] => Ok []
          | first :: _ =>
              match indexImports env (CompiledGoFiles m) ∅ with
              | Err err => Err err
              | Ok allImports =>
                  match forEachError
                          (λ depErr,
                             stackDiagnostics env workspacePackages allImports
                               (bool_decide (is_Some (Module m))) depErr
                               (reverse (ImportStack depErr)))
                          relevantErrors [] with
                  | Err err => Err err
                  | Ok errors =>
                      match nearestModFile env first with
                      | Err err => Err err
                      | Ok modFile =>
                          match parseModURI env modFile with
                          | Err err => Err err
                          | Ok pm =>
                              forEachError
                                (λ depErr,
                                   moduleDiagnostic env meta pm depErr
                                     (reverse (ImportStack depErr)))
                                relevantErrors errors
                          end
                      end
                  end
              end
          end = Ok errors) as Hrun'.
  { rewrite <- Hrun. by destruct relevantErrors. }
  clear Hrun. destruct (CompiledGoFiles m) as [|first files] eqn:Hfiles.
  { injection Hrun' as <-. left. auto. }
  destruct (indexImports env (first :: files) ∅) as [allImports|] eqn:Hindex; [|done].
  destruct (forEachError _ relevantErrors []) as [errors1|] eqn:Hsecond; [|done].
  destruct (nearestModFile env first) as [modFile|] eqn:Hnearest; [|done].
  destruct (parseModURI env modFile) as [pm|] eqn:Hparse; [|done].
  apply forEachError_spec
    with (P := λ depErr new,
                 ForStack env workspacePackages allImports
                   (bool_decide (is_Some (Module m))) depErr
                   (reverse (ImportStack depErr)) new) in Hsecond
    as (news & -> & Hnews).
  2:{ intros d e e' _. apply stackDiagnostics_spec. }
  apply forEachError_spec
    with (P := λ depErr new,
                 ForModule env meta pm depErr (reverse (ImportStack depErr)) new) in Hrun'
    as (news' & -> & Hnews').
  2:{ intros d e e' _. apply moduleDiagnostic_spec. }
  right. exists first, allImports, modFile, pm, news, news'. by split_and!.
Qed.

Lemma reverse_split {A} (stack : list A) skipped item rest :
  reverse stack = skipped ++ item :: rest →
  stack = reverse rest ++ item :: reverse skipped.
Proof.
  intros Hrev. rewrite <- (reverse_involutive stack), Hrev.
  by rewrite reverse_app, reverse_cons, <- app_assoc.
Qed.

Lemma ForModule_length env meta pm (relevantErrors : list PackageError) news :
  Forall2 (λ depErr new,
             ForModule env meta pm depErr (reverse (ImportStack depErr)) new)
    relevantErrors news →
  length (concat news) ≤ length relevantErrors.
Proof.
  induction 1 as [|depErr new rest news Hnew _ IH]; simpl; [done|].
  rewrite length_app.
  destruct Hnew as [[-> _]|(? & ? & ? & ? & -> & _)]; simpl; lia.
Qed.

(** X27. The diagnostics that [depsErrors] returns are those for import
    declarations, followed by those for the go.mod file.  Each is an
    error of the compiler with the message of an error of the
    dependencies whose direct importer is no workspace package.  One for
    an import declaration is at a declaration of a compiled file that
    imports a package of the import stack which no workspace package
    follows in the stack.  One for the go.mod file is at the line that
    refers to the module of a package of the stack, the last one that
    has such a line, and there is at most one of them for each error. *)
Theorem depsErrors_diagnostics (env : Env) (m : Metadata) (DepsErrors : list PackageError)
    (meta : gmap PackageID Metadata) (workspacePackages : gmap PackageID PackagePath) :
  match depsErrors env m DepsErrors meta workspacePackages with
  | Ok errors =>
      ∃ onImports onModule,
        errors = onImports ++ onModule
        ∧ (∀ d, d ∈ onImports →
             ∃ depErr item,
               depErr ∈ DepsErrors
               ∧ relevant workspacePackages depErr = true
               ∧ Reports depErr item d
               ∧ OnImport env m workspacePackages depErr item d)
        ∧ (∀ d, d ∈ onModule →
             ∃ depErr item,
               depErr ∈ DepsErrors
               ∧ relevant workspacePackages depErr = true
               ∧ Reports depErr item d
               ∧ OnModule env m meta depErr item d)
        ∧ length onModule
          ≤ length (filter (λ depsError, relevant workspacePackages depsError = true)
                      DepsErrors)
  | Err _ => True
  end.
Proof.
  destruct (depsErrors env m DepsErrors meta workspacePackages) as [errors|] eqn:Hrun;
    [|done].
  destruct (depsErrors_passes _ _ _ _ _ _ Hrun)
    as [[-> _]|(first & allImports & modFile & pm & news & news' & Hfirst & Hindex
                & Hnearest & Hparse & -> & Hnews & Hnews')].
  { exists [], []. split_and!; [done| | |simpl; lia]; by intros d ?%elem_of_nil. }
  exists (concat news), (concat news'). split_and!; [done| | |by eapply ForModule_length].
  - intros d (new & Hd & Hnew)%elem_of_concat.
    destruct (Forall2_elem_of_r _ _ _ _ Hnews Hnew)
      as (depErr & [HdepErr Hrelevant]%elem_of_relevant & Hstack).
    destruct Hstack as (reached & news1 & [rest Hreached] & Houtside & _ & -> & Hnews1).
    apply elem_of_concat in Hd as (new1 & Hd & Hnew1).
    destruct (Forall2_elem_of_r _ _ _ _ Hnews1 Hnew1) as (item & Hitem & Himports).
    destruct (Forall2_elem_of_r _ _ _ _ Himports Hd) as (fi & Hfi & Hreports & HURI & Hrng & Hfixes).
    exists depErr, item. split_and!; try done. split.
    + apply list_elem_of_split in Hitem as (l1 & l2 & ->).
      rewrite <- !app_assoc in Hreached. simpl in Hreached.
      apply reverse_split in Hreached.
      eexists _, _. split; [done|].
      apply Forall_app in Houtside as [Hl1 Hl2].
      apply Forall_cons in Hl2 as [Hitem _].
      constructor; [done|]. by apply Forall_reverse.
    + destruct (allImports !! item) as [l|] eqn:Hl; simpl in Hfi; [|by apply elem_of_nil in Hfi].
      pose proof (indexImports_indexed env (CompiledGoFiles m) _ _ _ (λ _ H, H)
                    ltac:(by intros ? ? ?%lookup_empty_Some) Hindex item l Hl) as Hall.
      rewrite Forall_forall in Hall.
      destruct (Hall fi Hfi) as (uri & group & value & ?).
      exists uri, (cgf fi), group, (imp fi), value. naive_solver.
  - intros d (new & Hd & Hnew)%elem_of_concat.
    destruct (Forall2_elem_of_r _ _ _ _ Hnews' Hnew)
      as (depErr & [HdepErr Hrelevant]%elem_of_relevant & Hmodule).
    destruct Hmodule as [[-> _]|(skipped & item & rest & d' & -> & Hitems & Hskipped & Hd')];
      [by apply elem_of_nil in Hd|].
    apply list_elem_of_singleton in Hd as ->.
    destruct Hd' as (reference & Href & Hreports & HURI & Hrng & Hfixes).
    exists depErr, item. split_and!; try done.
    unfold referenceOf in Href.
    destruct (meta !! item ≫= Module) as [module|] eqn:Hmodule; [|done].
    exists first, modFile, pm, module, reference, (reverse rest), (reverse skipped).
    split_and!; try done; [by apply reverse_split|].
    apply Forall_reverse. eapply Forall_impl; [exact Hskipped|].
    intros p Hp module' Hmodule'. unfold referenceOf in Hp. by rewrite Hmodule' in Hp.
Qed.

(** The index of the imports keeps what it holds, and it holds every
    import of every file that has been read. *)
Lemma indexImport_grows pgf allImports i item fi :
  fi ∈ default [] (allImports !! item) →
  fi ∈ default [] (indexImport pgf allImports i !! item).
Proof.
  intros Hfi. unfold indexImport. destruct (imp_Path i) as [value|]; [|done].
  destruct (decide (trim quote value = item)) as [<-|Hne].
  - rewrite lookup_insert_eq. simpl. apply elem_of_app. by left.
  - by rewrite lookup_insert_ne.
Qed.

Lemma indexImport_adds pgf allImports i value :
  imp_Path i = Some value →
  {| cgf := pgf; imp := i |} ∈ default [] (indexImport pgf allImports i !! trim quote value).
Proof.
  intros Hpath. unfold indexImport. rewrite Hpath, lookup_insert_eq. simpl.
  apply elem_of_app. right. by left.
Qed.

Lemma indexGroup_grows pgf group item fi :
  ∀ allImports,
    fi ∈ default [] (allImports !! item) →
    fi ∈ default [] (foldl (indexImport pgf) allImports group !! item).
Proof.
  induction group as [|i group IH]; intros allImports Hfi; simpl; [done|].
  by apply IH, indexImport_grows.
Qed.

Lemma indexGroup_adds pgf group i value :
  i ∈ group → imp_Path i = Some value →
  ∀ allImports,
    {| cgf := pgf; imp := i |}
    ∈ default [] (foldl (indexImport pgf) allImports group !! trim quote value).
Proof.
  intros Hin Hpath. induction group as [|i' group IH]; intros allImports; simpl.
  - by apply elem_of_nil in Hin.
  - apply elem_of_cons in Hin as [->|Hin].
    + by apply indexGroup_grows, indexImport_adds.
    + by apply IH.
Qed.

Lemma indexGroups_grows pgf groups item fi :
  ∀ allImports,
    fi ∈ default [] (allImports !! item) →
    fi ∈ default []
           (foldl (λ acc group, foldl (indexImport pgf) acc group) allImports groups !! item).
Proof.
  induction groups as [|group groups IH]; intros allImports Hfi; simpl; [done|].
  by apply IH, indexGroup_grows.
Qed.

Lemma indexGroups_adds pgf groups group i value :
  group ∈ groups → i ∈ group → imp_Path i = Some value →
  ∀ allImports,
    {| cgf := pgf; imp := i |}
    ∈ default []
        (foldl (λ acc group, foldl (indexImport pgf) acc group) allImports groups
         !! trim quote value).
Proof.
  intros Hgroup Hin Hpath. induction groups as [|group' groups IH]; intros allImports; simpl.
  - by apply elem_of_nil in Hgroup.
  - apply elem_of_cons in Hgroup as [->|Hgroup].
    + by apply indexGroups_grows, indexGroup_adds.
    + by apply IH.
Qed.

Lemma indexImports_grows env uris item fi :
  ∀ allImports allImports',
    indexImports env uris allImports = Ok allImports' →
    fi ∈ default [] (allImports !! item) →
    fi ∈ default [] (allImports' !! item).
Proof.
  induction uris as [|uri uris IH]; intros allImports allImports'; simpl.
  - by intros [= <-].
  - destruct (parseGoURI env uri) as [pgf|]; [|done].
    intros Hrest Hfi. apply (IH _ _ Hrest). by apply indexGroups_grows.
Qed.

Lemma indexImports_complete env uris uri pgf group i value :
  uri ∈ uris → parseGoURI env uri = Ok pgf →
  group ∈ Imports env pgf → i ∈ group → imp_Path i = Some value →
  ∀ allImports allImports',
    indexImports env uris allImports = Ok allImports' →
    {| cgf := pgf; imp := i |} ∈ default [] (allImports' !! trim quote value).
Proof.
  intros Huri Hparse Hgroup Hin Hpath.
  induction uris as [|uri' uris IH]; intros allImports allImports'; simpl.
  - by apply elem_of_nil in Huri.
  - apply elem_of_cons in Huri as [<-|Huri].
    + rewrite Hparse. intros Hrest. apply (indexImports_grows _ _ _ _ _ _ Hrest).
      by eapply indexGroups_adds.
    + destruct (parseGoURI env uri') as [pgf'|]; [|done]. by apply IH.
Qed.

(** The second pass reaches every package of the stack that no workspace
    package follows. *)
Lemma ForStack_reaches env workspacePackages allImports moduleMode depErr new
    before item after :
  ForStack env workspacePackages allImports moduleMode depErr
    (reverse (before ++ item :: after)) new →
  Forall (λ p, workspacePackages !! p = None) (item :: after) →
  ∃ new',
    (∀ d, d ∈ new' → d ∈ new)
    ∧ Forall2 (ForImport env moduleMode depErr item) (default [] (allImports !! item)) new'.
Proof.
  intros (reached & news & Hreached & Houtside & Hstop & -> & Hnews) Hafter.
  assert (item ∈ reached) as Hitem.
  { rewrite reverse_app, reverse_cons, <- app_assoc in Hreached, Hstop.
    assert (reverse after ++ [item] `prefix_of` (reverse after ++ [item]) ++ reverse before)
      as Hup by apply prefix_app_r, reflexivity.
    rewrite <- app_assoc in Hup.
    destruct Hstop as [->|(p & Hp & [path Hinside])].
    { rewrite !elem_of_app, list_elem_of_singleton. auto. }
    destruct (prefix_weak_total _ _ _ Hp Hup) as [Hle|Hle].
    - exfalso. assert (p ∈ reverse after ++ [item]) as Hin.
      { destruct Hle as [k ->]. rewrite !elem_of_app, list_elem_of_singleton. auto. }
      rewrite Forall_forall in Hafter. rewrite (Hafter p) in Hinside; [done|].
      apply elem_of_app in Hin as [Hin|Hin%list_elem_of_singleton].
      + right. by apply elem_of_reverse.
      + subst. by left.
    - destruct Hle as [k Hk]. destruct k as [|x k _] using rev_ind.
      + rewrite app_nil_r in Hk. apply app_inj_tail in Hk as [_ ->].
        rewrite Forall_forall in Hafter. rewrite (Hafter item) in Hinside; [done|by left].
      + rewrite !app_assoc in Hk. apply app_inj_tail in Hk as [-> _].
        rewrite !elem_of_app, list_elem_of_singleton. auto. }
  destruct (Forall2_elem_of_l _ _ _ _ Hnews Hitem) as (new' & Hnew' & Himports).
  exists new'. split; [|done]. intros d Hd. apply elem_of_concat. by exists new'.
Qed.

(** X28. When [depsErrors] returns without an error, it has a diagnostic
    for every import declaration of a compiled file that imports a
    package of the import stack of an error, if neither that package nor
    one after it in the stack is a workspace package. *)
Theorem depsErrors_reports_every_import (env : Env) (m : Metadata)
    (DepsErrors : list PackageError) (meta : gmap PackageID Metadata)
    (workspacePackages : gmap PackageID PackagePath)
    (depErr : PackageError) (before after : list string) (item : string)
    (uri : URI) (pgf : ParsedGoFile) (group : list ImportSpec) (i : ImportSpec)
    (value : string) :
  depErr ∈ DepsErrors →
  ImportStack depErr = before ++ item :: after →
  Forall (λ p, workspacePackages !! p = None) (item :: after) →
  uri ∈ CompiledGoFiles m →
  parseGoURI env uri = Ok pgf →
  group ∈ Imports env pgf →
  i ∈ group →
  imp_Path i = Some value →
  trim quote value = item →
  match depsErrors env m DepsErrors meta workspacePackages with
  | Ok errors =>
      ∃ d, d ∈ errors
           ∧ Reports depErr item d
           ∧ d_URI d = pgf_URI pgf
           ∧ NodeRange env pgf i = Ok (d_Range d)
  | Err _ => True
  end.
Proof.
  intros HdepErr Hstack Hafter Huri Hparse Hgroup Hi Hpath Hitem.
  destruct (depsErrors env m DepsErrors meta workspacePackages) as [errors|] eqn:Hrun;
    [|done].
  assert (relevant workspacePackages depErr = true) as Hrelevant.
  { unfold relevant. rewrite Hstack.
    assert (∃ p, last (before ++ item :: after) = Some p ∧ p ∈ item :: after) as (p & -> & Hp).
    { clear. destruct after as [|x after _] using rev_ind.
      - exists item. split; [|by left]. by rewrite last_app.
      - exists x. rewrite app_comm_cons, app_assoc, last_snoc. split; [done|].
        right. apply elem_of_app. right. by left. }
    rewrite Forall_forall in Hafter. by rewrite (Hafter p Hp), bool_decide_eq_true. }
  assert (depErr ∈ filter (λ depsError, relevant workspacePackages depsError = true) DepsErrors)
    as Hin by by apply elem_of_relevant.
  destruct (depsErrors_passes _ _ _ _ _ _ Hrun)
    as [[_ [Hnone|Hnone]]|(first & allImports & modFile & pm & news & news' & Hfirst & Hindex
                & Hnearest & Hparse' & -> & Hnews & Hnews')].
  { rewrite Hnone in Hin. by apply elem_of_nil in Hin. }
  { rewrite Hnone in Huri. by apply elem_of_nil in Huri. }
  destruct (Forall2_elem_of_l _ _ _ _ Hnews Hin) as (new & Hnew & Hfor).
  rewrite Hstack in Hfor.
  destruct (ForStack_reaches _ _ _ _ _ _ _ _ _ Hfor Hafter) as (new' & Hsub & Himports).
  pose proof (indexImports_complete _ _ _ _ _ _ _ Huri Hparse Hgroup Hi Hpath _ _ Hindex)
    as Hindexed.
  rewrite Hitem in Hindexed.
  destruct (Forall2_elem_of_l _ _ _ _ Himports Hindexed)
    as (d & Hd & Hreports & HURI & Hrng & _).
  exists d. split_and!; try done.
  apply elem_of_app. left. apply elem_of_concat. exists new. auto.
Qed.

End DepsErrorsFacts.

Section DepsErrorsRuns.
Import Handles DepsErrors.

Lemma depsErrors_reports_every_import_witness :
  match depsErrors sampleEnv sampleMetadata [sampleError] sampleGraph sampleWorkspace with
  | Ok errors =>
      ∃ d, d ∈ errors
           ∧ Reports sampleError "p" d
           ∧ d_URI d = "file:///w.go"
           ∧ NodeRange sampleEnv
               {| pgf_URI := "file:///w.go"; pgf_Src := ""; pgf_Fixed := false;
                  pgf_ParseErr := None |} sampleImport
             = Ok (d_Range d)
  | Err _ => True
  end.
Proof.
  apply (depsErrors_reports_every_import sampleEnv sampleMetadata [sampleError] sampleGraph
           sampleWorkspace sampleError ["w"] [] "p" "file:///w.go"
           {| pgf_URI := "file:///w.go"; pgf_Src := ""; pgf_Fixed := false;
              pgf_ParseErr := None |}
           [sampleImport] sampleImport (Batch.quoted "p")).
  - by left.
  - reflexivity.
  - by repeat constructor.
  - by left.
  - reflexivity.
  - by left.
  - by left.
  - reflexivity.
  - reflexivity.
Defined.

(** The sample gives one diagnostic at the import of [p] and one at the
    line of the go.mod file for the module of [p]. *)
Example depsErrors_sample :
  depsErrors sampleEnv sampleMetadata [sampleError] sampleGraph sampleWorkspace
  = Ok [ {| d_URI := "file:///w.go";
            d_Range := {| rng_Start := 20; rng_End := 23 |};
            d_Severity := SeverityError; d_Source := TypeError;
            d_Message := "error while importing p: cannot find package gone";
            d_SuggestedFixes := [] |};
         {| d_URI := "file:///w/go.mod";
            d_Range := {| rng_Start := 30; rng_End := 50 |};
            d_Severity := SeverityError; d_Source := TypeError;
            d_Message := "error while importing p: cannot find package gone";
            d_SuggestedFixes := [] |} ].
Proof. by vm_compute. Qed.

End DepsErrorsRuns.
